(** * The audio acquisition and batch transcription pipeline

    A shallow embedding of [src/components/AudioManager.tsx]: the four
    source adapters, the React state they mutate, the batch evaluator
    [transcribeAllFiles] and the report built by [CopyButton].

    Conventions of the embedding.
    - A JavaScript string is the list of its UTF-16 code units.
    - A JavaScript number is [NaN], an infinity, or a finite value; a
      finite double is represented by the rational it denotes. [num_div] and
      [num_mul] give the exact result of an operation and [Double.round]
      rounds it to the nearest double, ties to even, as the arithmetic of
      the language does: [Double.div] and [Double.mul] are the operators
      [/] and [*] of the source. The sign of zero is not modelled.
    - A handler is the list of effects it performs, in program order, as a
      function of the answers it gets from the browser (fetch, decode, ...).
      [apply] interprets the state setters on the component state. *)

From Stdlib Require Import NArith ZArith QArith Qround Qabs Qpower Qreduction.
From Stdlib Require Import Lqa String Ascii.
From stdpp Require Import base option list gmap.

Local Open Scope N_scope.

(** ** JavaScript values *)

Module JS.

(** UTF-16 code units. *)
Definition jsstring : Type := list N.

(** A string literal of the source (ASCII only). *)
Definition lit (s : string) : jsstring :=
  map N_of_ascii (list_ascii_of_string s).

Definition LF : N := 10.
Definition SPACE : N := 32.

(** ToBoolean on [string | undefined]: the empty string and [undefined]
    are falsy. *)
Definition truthy_string (s : option jsstring) : bool :=
  match s with
  | Some (_ :: _) => true
  | _ => false
  end.

(** [s || d] on strings. *)
Definition string_or (s : option jsstring) (d : jsstring) : jsstring :=
  match s with
  | Some (c :: r) => c :: r
  | _ => d
  end.

(** WhiteSpace and LineTerminator code points of ECMAScript, the ones
    [String.prototype.trim] removes. *)
Definition isWhiteSpace (c : N) : bool :=
  (c =? 9) || (c =? 10) || (c =? 11) || (c =? 12) || (c =? 13) || (c =? 32)
  || (c =? 160) || (c =? 5760) || ((8192 <=? c) && (c <=? 8202))
  || (c =? 8232) || (c =? 8233) || (c =? 8239) || (c =? 8287)
  || (c =? 12288) || (c =? 65279).

Fixpoint trimStart (s : jsstring) : jsstring :=
  match s with
  | c :: r => if isWhiteSpace c then trimStart r else s
  | [] => []
  end.

Definition trimEnd (s : jsstring) : jsstring :=
  reverse (trimStart (reverse s)).

Definition trim (s : jsstring) : jsstring := trimEnd (trimStart s).

(** [s.split(sep)] for a one-unit separator: never the empty array. *)
Fixpoint split (sep : N) (s : jsstring) : list jsstring :=
  match s with
  | [] => [[]]
  | c :: r =>
      if c =? sep then [] :: split sep r
      else match split sep r with
           | l :: ls => (c :: l) :: ls
           | [] => [[c]]
           end
  end.

(** [a.join(sep)] for a one-unit separator. *)
Fixpoint join (sep : N) (a : list jsstring) : jsstring :=
  match a with
  | [] => []
  | [x] => x
  | x :: r => x ++ sep :: join sep r
  end.

(** [s.indexOf(c)]: [None] stands for -1. *)
Fixpoint indexOf (c : N) (s : jsstring) : option nat :=
  match s with
  | [] => None
  | d :: r => if d =? c then Some O else S <$> indexOf c r
  end.

(** [s.substring(i, j)] and [s.substring(i)] for in-range indices. *)
Definition substring (i j : nat) (s : jsstring) : jsstring :=
  take (j - i) (drop i s).
Definition substring_from (i : nat) (s : jsstring) : jsstring := drop i s.

(** Numbers. *)
Inductive number : Type :=
| NaN
| Infinity (negative : bool)
| Finite (q : Q).

Definition of_nat (n : nat) : number := Finite (inject_Z (Z.of_nat n)).
Definition of_N (n : N) : number := Finite (inject_Z (Z.of_N n)).

Definition Qneg (q : Q) : bool := (Qnum q <? 0)%Z.
Definition Qzero (q : Q) : bool := (Qnum q =? 0)%Z.

(** ToBoolean on numbers: [NaN] and zero are falsy. *)
Definition truthy (x : number) : bool :=
  match x with
  | NaN => false
  | Infinity _ => true
  | Finite q => negb (Qzero q)
  end.

(** [x || d] where [x : number | undefined]. *)
Definition num_or (x : option number) (d : number) : number :=
  match x with
  | Some v => if truthy v then v else d
  | None => d
  end.

(** The exact quotient [a / b], before it is rounded. *)
Definition num_div (a b : number) : number :=
  match a, b with
  | NaN, _ | _, NaN => NaN
  | Infinity _, Infinity _ => NaN
  | Infinity s, Finite q => Infinity (xorb s (Qneg q))
  | Finite _, Infinity _ => Finite 0
  | Finite p, Finite q =>
      if Qzero q then (if Qzero p then NaN else Infinity (Qneg p))
      else Finite (p / q)
  end.

(** The exact product [a * b], before it is rounded. *)
Definition num_mul (a b : number) : number :=
  match a, b with
  | NaN, _ | _, NaN => NaN
  | Infinity s, Infinity t => Infinity (xorb s t)
  | Infinity s, Finite q | Finite q, Infinity s =>
      if Qzero q then NaN else Infinity (xorb s (Qneg q))
  | Finite p, Finite q => Finite (p * q)
  end.

(** [a <= b] as a proposition, false as soon as a [NaN] is involved. *)
Definition num_le (a b : number) : Prop :=
  match a, b with
  | NaN, _ | _, NaN => False
  | Infinity true, _ => True
  | _, Infinity false => True
  | Infinity false, _ => False
  | _, Infinity true => False
  | Finite p, Finite q => (p <= q)%Q
  end.

(** [a === b] on numbers. *)
Definition num_eq (a b : number) : Prop :=
  match a, b with
  | Infinity s, Infinity t => s = t
  | Finite p, Finite q => (p == q)%Q
  | _, _ => False
  end.

Definition is_NaN (x : number) : bool :=
  match x with NaN => true | _ => false end.

(** The finite numbers of the language are the IEEE 754 binary64 numbers:
    53 significant binary digits, the last one of exponent -1074 at least,
    and a magnitude below [2 ^ 1024]. An operation delivers the double
    nearest to its exact result, the one whose last digit is even when two
    are as near, and an infinity when that is [2 ^ 1024] or beyond. *)
Module Double.

(** [floor (log2 q)], for [0 < q]. *)
Definition ilog2 (q : Q) : Z :=
  let k := (Z.log2 (Qnum q) - Z.log2 (Zpos (Qden q)))%Z in
  if Qle_bool (2 ^ k) q then k else (k - 1)%Z.

(** The exponent of the last digit of the doubles next to [q]. *)
Definition ulp_exponent (q : Q) : Z := Z.max (ilog2 (Qabs q) - 52) (-1074).

(** The nearest integer, the even one at a tie. *)
Definition nearest_even (a : Q) : Z :=
  let f := Qfloor a in
  match Qcompare (a - inject_Z f) (1 # 2) with
  | Lt => f
  | Gt => (f + 1)%Z
  | Eq => if Z.even f then f else (f + 1)%Z
  end.

(** The nearest multiple of [2 ^ ulp_exponent q]. *)
Definition nearest (q : Q) : Q :=
  let e := ulp_exponent q in
  (inject_Z (nearest_even (q / 2 ^ e)) * 2 ^ e)%Q.

(** The double an exact result [q] is rounded to. *)
Definition round (q : Q) : number :=
  let r := nearest q in
  if Qle_bool (2 ^ 1024) (Qabs r) then Infinity (Qneg q) else Finite (Qred r).

Definition rounded (x : number) : number :=
  match x with
  | Finite q => round q
  | _ => x
  end.

(** [a / b] and [a * b]. *)
Definition div (a b : number) : number := rounded (num_div a b).
Definition mul (a b : number) : number := rounded (num_mul a b).

End Double.

End JS.

Import JS.

(** ** Data of [AudioManager.tsx] *)

Inductive AudioSource : Type := URL | FILE | RECORDING | TEST.

(** A decoded [AudioBuffer] is opaque to this code: it is represented by
    the identity of the object. *)
Definition AudioBuffer : Type := nat.

(** Raw bytes. *)
Definition ArrayBuffer : Type := list N.

(** The [url] field of an audio: either a blob URL handed out by
    [URL.createObjectURL] (the handle [h] identifies the registration that
    [URL.revokeObjectURL] would release) or the path of a resource. *)
Inductive PlaybackUrl : Type :=
| BlobUrl (h : nat)
| ResourceUrl (path : jsstring).

(** A [Blob] (or [File]): its declared type and its bytes. *)
Record Blob : Type := { blob_type : jsstring; blob_bytes : ArrayBuffer }.

(** The value of the [audioData] state. *)
Record AudioData : Type := {
  buffer : AudioBuffer;
  url : PlaybackUrl;
  source : AudioSource;
  mimeType : jsstring
}.

(** An element of the [audioDataList] state. *)
Module Item.
Record t : Type := {
  buffer : AudioBuffer;
  url : PlaybackUrl;
  source : AudioSource;
  mimeType : jsstring;
  filename : jsstring;
  transcription : jsstring
}.
End Item.

(** What [props.transcriber.start] resolves to ([TranscriberData]). *)
Module TranscriberData.
Record t : Type := { text : jsstring; latency : number }.
End TranscriberData.

(** An element of the [transcriptionResults] state. *)
Module Result.
Record t : Type := {
  filename : jsstring;
  groundTruth : jsstring;
  transcription : jsstring;
  latency : number
}.
End Result.

(** The React state of the [AudioManager] component. An entry of
    [transcriptionResults] is [None] when the array holds [undefined]
    there. *)
Record State : Type := {
  progress : option number;
  audioData : option AudioData;
  audioDownloadUrl : option jsstring;
  audioDataList : list Item.t;
  transcriptionResults : list (option Result.t);
  testProgress : number
}.

Definition initial : State := {|
  progress := None;
  audioData := None;
  audioDownloadUrl := None;
  audioDataList := [];
  transcriptionResults := [];
  testProgress := Finite 0
|}.

Definition isAudioLoading (s : State) : bool :=
  match progress s with Some _ => true | None => false end.

(** ** Effects *)

Inductive effect : Type :=
| onInputChange                                  (* props.transcriber.onInputChange() *)
| transcriber_start (b : AudioBuffer)            (* props.transcriber.start(b) *)
| setProgress (p : option number)
| setAudioData (a : option AudioData)
| setAudioDownloadUrl (u : option jsstring)
| setAudioDataList (l : list Item.t)
| setTranscriptionResults (l : list (option Result.t))
| appendTranscriptionResult (r : option Result.t) (* setTranscriptionResults(prev => [...prev, r]) *)
| setTestProgress (p : number)
| createObjectURL (h : nat)                      (* URL.createObjectURL(..) returned handle h *)
| revokeObjectURL (h : nat)                      (* URL.revokeObjectURL(..) *)
| abort (controller : nat)                       (* requestAbortController.abort() *)
| console_log
| console_error (subject : jsstring).

Definition apply (s : State) (e : effect) : State :=
  match e with
  | setProgress p =>
      {| progress := p; audioData := audioData s;
         audioDownloadUrl := audioDownloadUrl s; audioDataList := audioDataList s;
         transcriptionResults := transcriptionResults s; testProgress := testProgress s |}
  | setAudioData a =>
      {| progress := progress s; audioData := a;
         audioDownloadUrl := audioDownloadUrl s; audioDataList := audioDataList s;
         transcriptionResults := transcriptionResults s; testProgress := testProgress s |}
  | setAudioDownloadUrl u =>
      {| progress := progress s; audioData := audioData s;
         audioDownloadUrl := u; audioDataList := audioDataList s;
         transcriptionResults := transcriptionResults s; testProgress := testProgress s |}
  | setAudioDataList l =>
      {| progress := progress s; audioData := audioData s;
         audioDownloadUrl := audioDownloadUrl s; audioDataList := l;
         transcriptionResults := transcriptionResults s; testProgress := testProgress s |}
  | setTranscriptionResults l =>
      {| progress := progress s; audioData := audioData s;
         audioDownloadUrl := audioDownloadUrl s; audioDataList := audioDataList s;
         transcriptionResults := l; testProgress := testProgress s |}
  | appendTranscriptionResult r =>
      {| progress := progress s; audioData := audioData s;
         audioDownloadUrl := audioDownloadUrl s; audioDataList := audioDataList s;
         transcriptionResults := transcriptionResults s ++ [r];
         testProgress := testProgress s |}
  | setTestProgress p =>
      {| progress := progress s; audioData := audioData s;
         audioDownloadUrl := audioDownloadUrl s; audioDataList := audioDataList s;
         transcriptionResults := transcriptionResults s; testProgress := p |}
  | _ => s
  end.

Definition run (s : State) (t : list effect) : State := foldl apply s t.

(** The setters of the component state. *)
Definition is_mutation (e : effect) : bool :=
  match e with
  | setProgress _ | setAudioData _ | setAudioDownloadUrl _ | setAudioDataList _
  | setTranscriptionResults _ | appendTranscriptionResult _ | setTestProgress _ => true
  | _ => false
  end.

(** ** Session state helpers and the URL adapter *)

Definition resetAudio : list effect :=
  [setAudioData None; setAudioDownloadUrl None].

(** [setAudioFromDownload]: the part that runs before the function
    suspends on [decodeAudioData] ... *)
Definition setAudioFromDownload_begin (blobUrl : nat) : list effect :=
  [createObjectURL blobUrl].

(** ... and its continuation once the decode has resolved. A rejected
    decode leaves the promise of [setAudioFromDownload] rejected and
    nothing else happens. *)
Definition setAudioFromDownload_resume
    (blobUrl : nat) (mimeType : jsstring) (decoded : option AudioBuffer)
    : list effect :=
  match decoded with
  | Some d =>
      [setAudioData (Some {| buffer := d; url := BlobUrl blobUrl;
                             source := URL; mimeType := mimeType |})]
  | None => []
  end.

(** Lines 240-243: the declared content type as recorded. *)
Definition declared_mimeType (contentType : option jsstring) : jsstring :=
  match contentType with
  | Some m =>
      if negb (truthy_string (Some m)) || bool_decide (m = lit "audio/wave")
      then lit "audio/wav"
      else m
  | None => lit "audio/wav"
  end.

(** The answers [downloadAudioFromUrl] gets: the [progress] field of each
    progress event, the response (or [None] when the request is rejected or
    aborted), the blob URL handed out and the outcome of the decode. *)
Record Download : Type := {
  progressEvents : list (option number);
  response : option (ArrayBuffer * option jsstring);
  blobUrl : nat;
  decoded : option AudioBuffer
}.

Definition download_begin : list effect :=
  [setAudioData None; setProgress (Some (Finite 0))].

Definition onDownloadProgress (p : option number) : list effect :=
  [setProgress (Some (num_or p (Finite 0)))].

(** The request settles: the [try] body after the [await], or the [catch],
    then the [finally]. [setAudioFromDownload] is called without [await],
    so the [finally] runs before its continuation. *)
Definition download_settle (env : Download) : list effect :=
  match response env with
  | Some (data, contentType) =>
      setAudioFromDownload_begin (blobUrl env) ++ [setProgress None]
  | None => [console_log; setProgress None]
  end.

Definition download_decoded (env : Download) : list effect :=
  match response env with
  | Some (data, contentType) =>
      setAudioFromDownload_resume (blobUrl env) (declared_mimeType contentType)
        (decoded env)
  | None => []
  end.

Definition downloadAudioFromUrl
    (audioDownloadUrl : option jsstring) (env : Download) : list effect :=
  if truthy_string audioDownloadUrl then
    download_begin
    ++ flat_map onDownloadProgress (progressEvents env)
    ++ download_settle env
    ++ download_decoded env
  else [].

(** [onUrlUpdate] of the URL tile. *)
Definition onUrlUpdate (e : jsstring) : list effect :=
  [onInputChange; setAudioDownloadUrl (Some e)].

(** The effect hook on [audioDownloadUrl]: it runs again only when the
    value has changed. Here the download runs to its end before anything
    else happens (the cleanup of the previous run then aborts a settled
    request, which does nothing); [UrlLoader] below has the interleavings. *)
Definition audioDownloadUrl_effect
    (previous next : option jsstring) (env : Download) : list effect :=
  if bool_decide (previous = next) then [] else downloadAudioFromUrl next env.

(** A submission of the URL modal, up to the end of the load it starts. *)
Definition urlTile_submit
    (previous : option jsstring) (e : jsstring) (env : Download) : list effect :=
  onUrlUpdate e ++ audioDownloadUrl_effect previous (Some e) env.

(** ** The recording adapter *)

(** The answers [setAudioFromRecording] gets: the blob URL, the
    [(loaded, total)] of each progress event of the reader and the outcome
    of the decode. *)
Record Recording : Type := {
  rec_blobUrl : nat;
  rec_progress : list (N * N);
  rec_decoded : option AudioBuffer
}.

Definition reader_onprogress (ev : N * N) : list effect :=
  [setProgress
     (Some (num_or (Some (Double.div (of_N ev.1) (of_N ev.2))) (Finite 0)))].

Definition reader_onloadend (data : Blob) (env : Recording) : list effect :=
  match rec_decoded env with
  | Some d =>
      [setProgress None;
       setAudioData (Some {| buffer := d; url := BlobUrl (rec_blobUrl env);
                             source := RECORDING; mimeType := blob_type data |})]
  | None => []
  end.

Definition setAudioFromRecording (data : Blob) (env : Recording) : list effect :=
  resetAudio
  ++ [setProgress (Some (Finite 0)); createObjectURL (rec_blobUrl env)]
  ++ flat_map reader_onprogress (rec_progress env)
  ++ reader_onloadend data env.

(** The [setAudioData] callback given to the record tile. *)
Definition onRecording (data : Blob) (env : Recording) : list effect :=
  [onInputChange] ++ setAudioFromRecording data env.

(** ** The file adapter *)

(** The answers the file tile gets: the blob URL, whether the reader
    delivered a buffer and the outcome of the decode. *)
Record FileRead : Type := {
  file_blobUrl : nat;
  file_result : option ArrayBuffer;
  file_decoded : option AudioBuffer
}.

Definition onFileUpdate
    (decoded : AudioBuffer) (blobUrl : nat) (mimeType : jsstring) : list effect :=
  [onInputChange;
   setAudioData (Some {| buffer := decoded; url := BlobUrl blobUrl;
                         source := FILE; mimeType := mimeType |})].

(** [elem.oninput] of the file tile; [files] is [None] when the input has
    no file list, else its first file. *)
Definition file_oninput (files : option Blob) (env : FileRead) : list effect :=
  match files with
  | None => []
  | Some f =>
      createObjectURL (file_blobUrl env)
      :: match file_result env, file_decoded env with
         | Some _, Some d => onFileUpdate d (file_blobUrl env) (blob_type f)
         | _, _ => []
         end
  end.

(** ** The bulk test-corpus adapter ([TestTile]) *)

(** [import.meta.env.BASE_URL], the [base] of the Vite configuration. *)
Definition BASE_URL : jsstring := lit "/chat_new/".
Definition audioFilesPath : jsstring := BASE_URL ++ lit "test-clean/".
Definition transcriptionsFile : jsstring :=
  audioFilesPath ++ lit "61-70968.trans.txt".

(** The answers [handleClick] gets: the text behind a path ([None] when
    [fetch] or [text()] rejects), the bytes and [Content-Type] header behind
    a path ([None] when [fetch] or [arrayBuffer()] rejects) and the outcome
    of decoding given bytes. The code does not look at the status of a
    response: the body of an error response is an answer like any other. *)
Record Corpus : Type := {
  fetch_text : jsstring -> option jsstring;
  fetch_arrayBuffer : jsstring -> option (ArrayBuffer * option jsstring);
  decodeAudioData : ArrayBuffer -> option AudioBuffer
}.

(** [text.split('\n').filter((line) => line.trim() !== '')] *)
Definition manifest_lines (text : jsstring) : list jsstring :=
  filter (fun line => trim line <> []) (split LF text).

(** One iteration of the loop over the lines. *)
Inductive line_outcome : Type :=
| Skipped                          (* no space: continue *)
| Pushed (item : Item.t)           (* audioDataList.push(..) *)
| Failed (audioFilePath : jsstring). (* inner catch *)

Definition load_line (env : Corpus) (line : jsstring) : line_outcome :=
  match indexOf SPACE line with
  | None => Skipped
  | Some firstSpaceIndex =>
      let filename := substring 0 firstSpaceIndex line in
      let transcription := trim (substring_from (firstSpaceIndex + 1) line) in
      let audioFilePath := audioFilesPath ++ filename ++ lit ".flac" in
      match fetch_arrayBuffer env audioFilePath with
      | Some (arrayBuffer, contentType) =>
          match decodeAudioData env arrayBuffer with
          | Some decoded =>
              Pushed {| Item.buffer := decoded;
                        Item.url := ResourceUrl audioFilePath;
                        Item.source := TEST;
                        Item.mimeType := string_or contentType (lit "audio/wav");
                        Item.filename := filename;
                        Item.transcription := transcription |}
          | None => Failed audioFilePath
          end
      | None => Failed audioFilePath
      end
  end.

(** The loop: what is logged and what [audioDataList] holds at its end. *)
Fixpoint load_lines (env : Corpus) (lines : list jsstring)
    : list effect * list Item.t :=
  match lines with
  | [] => ([], [])
  | line :: rest =>
      let '(log, items) := load_lines env rest in
      match load_line env line with
      | Skipped => (log, items)
      | Pushed item => (log, item :: items)
      | Failed audioFilePath => (console_error audioFilePath :: log, items)
      end
  end.

(** The item a line contributes, and what it logs. *)
Definition pushed (env : Corpus) (line : jsstring) : option Item.t :=
  match load_line env line with Pushed item => Some item | _ => None end.

Definition logged (env : Corpus) (line : jsstring) : option effect :=
  match load_line env line with
  | Failed audioFilePath => Some (console_error audioFilePath)
  | _ => None
  end.

(** [handleClick]: its log, and the argument [props.onFilesLoaded] is
    called with, [None] when the callback is not called. *)
Definition handleClick (env : Corpus) : list effect * option (list Item.t) :=
  match fetch_text env transcriptionsFile with
  | Some text =>
      let '(log, audioDataList) := load_lines env (manifest_lines text) in
      (log ++ [console_log], Some audioDataList)
  | None => ([console_error transcriptionsFile], None)
  end.

(** ** The batch evaluator *)

(** How a call of [props.transcriber.start] settles. *)
Inductive StartOutcome : Type :=
| Resolved (transcribedData : option TranscriberData.t)
| Rejected.

(** The value of the block-scoped [result] when it is appended: it is
    assigned on one path only. *)
Definition result_of (audioData : Item.t) (o : StartOutcome) : option Result.t :=
  match o with
  | Resolved (Some transcribedData) =>
      Some {| Result.filename := Item.filename audioData;
              Result.groundTruth := Item.transcription audioData;
              Result.transcription := TranscriberData.text transcribedData;
              Result.latency := TranscriberData.latency transcribedData |}
  | _ => None
  end.

(** [((i + 1) / totalFiles) * 100] *)
Definition percent (i totalFiles : nat) : number :=
  Double.mul (Double.div (of_nat (i + 1)) (of_nat totalFiles)) (Finite 100).

(** The body of the [for] loop at index [i]. *)
Definition iteration
    (totalFiles i : nat) (audioData : Item.t) (o : StartOutcome) : list effect :=
  [transcriber_start (Item.buffer audioData)]
  ++ match o with
     | Resolved (Some _) => []
     | _ => [console_error (Item.filename audioData)]
     end
  ++ [setTestProgress (percent i totalFiles);
      appendTranscriptionResult (result_of audioData o)].

(** The loop from index [i] on; [rest] is [audioDataList.slice(i)]. The
    transcriber answers the call made at index [i] with [start i buffer]. *)
Fixpoint iterations
    (start : nat -> AudioBuffer -> StartOutcome)
    (totalFiles i : nat) (rest : list Item.t) : list effect :=
  match rest with
  | [] => []
  | audioData :: rest' =>
      iteration totalFiles i audioData (start i (Item.buffer audioData))
      ++ iterations start totalFiles (S i) rest'
  end.

Definition transcribeAllFiles
    (audioDataList : list Item.t) (start : nat -> AudioBuffer -> StartOutcome)
    : list effect :=
  [setTestProgress (Finite 0); setTranscriptionResults []]
  ++ iterations start (length audioDataList) 0 audioDataList.

(** The effect hook on [audioDataList]. *)
Definition audioDataList_effect
    (audioDataList : list Item.t) (start : nat -> AudioBuffer -> StartOutcome)
    : list effect :=
  match audioDataList with
  | [] => []
  | _ :: _ => transcribeAllFiles audioDataList start
  end.

Definition onFilesLoaded
    (audioDataList : list Item.t) (start : nat -> AudioBuffer -> StartOutcome)
    : list effect :=
  [onInputChange; setAudioDataList audioDataList]
  ++ audioDataList_effect audioDataList start.

(** A click on the test tile, up to the end of the batch it starts. *)
Definition testTile_click
    (env : Corpus) (start : nat -> AudioBuffer -> StartOutcome) : list effect :=
  let '(log, loaded) := handleClick env in
  log ++ match loaded with
         | Some audioDataList => onFilesLoaded audioDataList start
         | None => []
         end.

(** The values passed to [setTestProgress], in order. *)
Definition reported_progress (t : list effect) : list number :=
  omap (fun e => match e with setTestProgress p => Some p | _ => None end) t.

(** The calls of [start] and the progress reports of a trace, in order. *)
Definition on_timeline (e : effect) : bool :=
  match e with
  | transcriber_start _ | setTestProgress _ => true
  | _ => false
  end.

Definition batch_timeline (t : list effect) : list effect :=
  filter (fun e => on_timeline e) t.

(** A sequence of numbers that never decreases. *)
Definition nondecreasing (l : list number) : Prop :=
  forall (j k : nat) (p q : number),
    (j <= k)%nat -> l !! j = Some p -> l !! k = Some q -> num_le p q.

(** [(i + 1) / n] as a percentage, in exact arithmetic. *)
Definition percentage (i n : nat) : Q :=
  inject_Z (Z.of_nat (i + 1)) / inject_Z (Z.of_nat n) * 100.

(** ** The report of [CopyButton] *)

Section Report.

(** Two built-ins of the language are parameters of the report:
    [String.prototype.toLowerCase] and the conversion of a number to a
    string in a template literal. *)
Variable toLowerCase : jsstring -> jsstring.
Variable toString : number -> jsstring.

(** The three lines of a record. *)
Definition report_fields (data : Result.t) : list jsstring :=
  [toString (Result.latency data);
   trim (toLowerCase (Result.groundTruth data));
   trim (toLowerCase (Result.transcription data))].

(** The template literal of the [map] callback. Reading a property of
    [undefined] throws a TypeError: [None]. *)
Definition report_block (data : option Result.t) : option jsstring :=
  match data with
  | Some data =>
      Some (toString (Result.latency data)
            ++ LF :: trim (toLowerCase (Result.groundTruth data))
            ++ LF :: trim (toLowerCase (Result.transcription data)))
  | None => None
  end.

Definition report_triple (data : Result.t) : jsstring * jsstring * jsstring :=
  (toString (Result.latency data),
   trim (toLowerCase (Result.groundTruth data)),
   trim (toLowerCase (Result.transcription data))).

Definition concatenatedResults
    (transcriptionResults : list (option Result.t)) : option jsstring :=
  blocks ← mapM report_block transcriptionResults;
  Some (join LF blocks).

End Report.

(** Modelled from the spec: a reader of reports, which the source does not
    have, after the format the specification gives (newline-delimited text,
    three lines per record). The empty text is the report of no record. *)
Fixpoint blocks_of (lines : list jsstring)
    : option (list (jsstring * jsstring * jsstring)) :=
  match lines with
  | [] => Some []
  | latency :: groundTruth :: transcription :: rest =>
      r ← blocks_of rest; Some ((latency, groundTruth, transcription) :: r)
  | _ => None
  end.

(** Modelled from the spec: the report is split at the newlines and read
    three lines at a time. *)
Definition parse_report (text : jsstring)
    : option (list (jsstring * jsstring * jsstring)) :=
  match text with
  | [] => Some []
  | _ => blocks_of (split LF text)
  end.

(** Sample instances of the two built-ins, used to run the report:
    lowercasing of the ASCII letters, and the decimal digits of the
    integer part of a non-negative finite number. *)
Definition ascii_toLowerCase (s : jsstring) : jsstring :=
  map (fun c => if (65 <=? c) && (c <=? 90) then c + 32 else c) s.

Fixpoint digits (fuel : nat) (n : N) (acc : jsstring) : jsstring :=
  match fuel with
  | O => acc
  | S fuel' =>
      let acc' := (48 + n mod 10) :: acc in
      if n / 10 =? 0 then acc' else digits fuel' (n / 10) acc'
  end.

Definition integer_toString (x : number) : jsstring :=
  match x with
  | NaN => lit "NaN"
  | Infinity s => if s then lit "-Infinity" else lit "Infinity"
  | Finite q =>
      let n := Z.to_N (Qnum q / Z.pos (Qden q))%Z in
      digits (S (N.to_nat (N.log2 n))) n []
  end.

(** ** Sample answers of the browser, to run the handlers on *)

Definition sample_download (blob : nat) (d : AudioBuffer) : Download :=
  {| progressEvents := [Some (Finite (1 # 2))];
     response := Some ([73; 68; 51], Some (lit "audio/mpeg"));
     blobUrl := blob;
     decoded := Some d |}.

(** A corpus of two lines of which only the audio of [A01] can be
    fetched. *)
Definition sample_corpus : Corpus :=
  {| fetch_text := fun _ =>
       Some (lit "A01 the quick fox" ++ LF :: lit "A02 hello world" ++ [LF]);
     fetch_arrayBuffer := fun path =>
       if bool_decide (path = lit "/chat_new/test-clean/A01.flac")
       then Some ([102; 76; 97; 67], Some (lit "audio/flac"))
       else None;
     decodeAudioData := fun _ => Some 1%nat |}.

(** A corpus of two lines whose audio can all be fetched and decoded. *)
Definition complete_corpus : Corpus :=
  {| fetch_text := fun _ =>
       Some (lit "A01 the quick fox" ++ LF :: lit "A02  hello world ");
     fetch_arrayBuffer := fun _ => Some ([102; 76; 97; 67], None);
     decodeAudioData := fun _ => Some 1%nat |}.

(** A file, a recording and the answers their adapters get. *)
Definition sample_blob : Blob :=
  {| blob_type := lit "audio/webm"; blob_bytes := [26; 69; 223; 163] |}.

Definition sample_file_read : FileRead :=
  {| file_blobUrl := 3%nat; file_result := Some [26; 69; 223; 163];
     file_decoded := Some 6%nat |}.

Definition sample_recording : Recording :=
  {| rec_blobUrl := 4%nat; rec_progress := [(2, 4); (4, 4)];
     rec_decoded := Some 8%nat |}.

(** A corpus whose manifest cannot be fetched. *)
Definition unreachable_corpus : Corpus :=
  {| fetch_text := fun _ => None;
     fetch_arrayBuffer := fun _ => None;
     decodeAudioData := fun _ => None |}.

(** A server that answers every request with the page of a 404 error. *)
Definition not_found_page : jsstring := lit "<html>404 Not Found</html>".

Definition not_found_corpus : Corpus :=
  {| fetch_text := fun _ => Some not_found_page;
     fetch_arrayBuffer := fun _ => Some (not_found_page, Some (lit "text/html"));
     decodeAudioData := fun _ => None |}.

Definition sample_item : Item.t :=
  {| Item.buffer := 1%nat;
     Item.url := ResourceUrl (lit "/chat_new/test-clean/A01.flac");
     Item.source := TEST;
     Item.mimeType := lit "audio/flac";
     Item.filename := lit "A01";
     Item.transcription := lit "the quick fox" |}.

(** Results to build reports from. *)
Definition sample_results : list Result.t :=
  [ {| Result.filename := lit "A01";
       Result.groundTruth := lit "THE QUICK FOX";
       Result.transcription := lit " The quick fox";
       Result.latency := Finite 12 |};
    {| Result.filename := lit "A02";
       Result.groundTruth := lit "HELLO WORLD";
       Result.transcription := lit "";
       Result.latency := Finite 3 |} ].

(** A transcription that spans four lines. *)
Definition multiline_result : Result.t :=
  {| Result.filename := lit "A01";
     Result.groundTruth := lit "a";
     Result.transcription := lit "b" ++ LF :: lit "2" ++ LF :: lit "c" ++ LF :: lit "d";
     Result.latency := Finite 1 |}.

(** Two records whose report is the report of [multiline_result]. *)
Definition two_results : list Result.t :=
  [ {| Result.filename := lit "A01"; Result.groundTruth := lit "a";
       Result.transcription := lit "b"; Result.latency := Finite 1 |};
    {| Result.filename := lit "A02"; Result.groundTruth := lit "c";
       Result.transcription := lit "d"; Result.latency := Finite 2 |} ].

(** ** A session: adapters used one after the other *)

Inductive action : Type :=
| UrlSubmitted (e : jsstring) (env : Download)
| FilePicked (files : option Blob) (env : FileRead)
| RecordingSubmitted (data : Blob) (env : Recording)
| TestTileClicked (env : Corpus) (start : nat -> AudioBuffer -> StartOutcome).

Definition perform (s : State) (a : action) : list effect :=
  match a with
  | UrlSubmitted e env => urlTile_submit (audioDownloadUrl s) e env
  | FilePicked files env => file_oninput files env
  | RecordingSubmitted data env => onRecording data env
  | TestTileClicked env start => testTile_click env start
  end.

Fixpoint session (s : State) (l : list action) : list effect :=
  match l with
  | [] => []
  | a :: r => let t := perform s a in t ++ session (run s t) r
  end.

(** How many times the handle [h] is released in a trace. *)
Definition is_release (h : nat) (e : effect) : bool :=
  match e with
  | revokeObjectURL h' => Nat.eqb h h'
  | _ => false
  end.

Definition released (h : nat) (t : list effect) : nat :=
  length (filter (fun e => is_release h e) t).

(** The handle of the audio in the session state, when it is a blob. *)
Definition playback_handle (s : State) : option nat :=
  match audioData s with
  | Some a => match url a with BlobUrl h => Some h | ResourceUrl _ => None end
  | None => None
  end.


(** A trace without any setter. *)
Definition quiet (t : list effect) : Prop :=
  Forall (fun e => is_mutation e = false) t.

(** ** URL loads that overlap *)

Module UrlLoader.

(** The life of one request of [downloadAudioFromUrl], named by the
    [AbortController] made for it. By the contract of the HTTP client a
    request whose signal is aborted while it is in flight rejects; it
    does not deliver a response any more. A submission is one event: the
    state update, the render and the effect hook (cleanup, then body) run
    before any other callback does. *)
Inductive status : Type :=
| InFlight
| Aborted                                      (* signal aborted, rejection not yet handled *)
| Failed                                       (* catch and finally have run *)
| Decoding (blobUrl : nat) (mimeType : jsstring) (* setAudioFromDownload awaits the decode *)
| Installed                                    (* its result was passed to setAudioData *)
| DecodeFailed.

Record machine : Type := {
  component : State;
  requests : gmap nat status;
  cleanup : option nat;      (* controller held by the cleanup of the effect hook *)
  fresh : nat                (* controllers made so far *)
}.

Definition init : machine :=
  {| component := initial; requests := ∅; cleanup := None; fresh := O |}.

Inductive event : Type :=
| UrlSubmit (e : jsstring)                      (* onUrlUpdate(e), render, effects *)
| ResetAudio                                    (* resetAudio(), render, effects *)
| Progress (id : nat) (p : option number)       (* onDownloadProgress *)
| Response (id : nat) (data : ArrayBuffer)
           (contentType : option jsstring) (blobUrl : nat)
| RequestFailed (id : nat)                      (* the awaited request rejects *)
| Decoded (id : nat) (decoded : option AudioBuffer)
| OtherAudio (a : option AudioData).            (* another adapter calls setAudioData *)

(** [requestAbortController.abort()] *)
Definition abort_request (rs : gmap nat status) (c : nat) : gmap nat status :=
  match rs !! c with
  | Some InFlight => <[c := Aborted]> rs
  | _ => rs
  end.

Definition with_component (m : machine) (c : State) : machine :=
  {| component := c; requests := requests m; cleanup := cleanup m; fresh := fresh m |}.

Definition with_status (m : machine) (id : nat) (st : status) : machine :=
  {| component := component m; requests := <[id := st]> (requests m);
     cleanup := cleanup m; fresh := fresh m |}.

(** The effect hook runs again: cleanup of the previous run, then the
    body with the new value. *)
Definition rerun_effect (m : machine) (next : option jsstring) : machine :=
  let rs := match cleanup m with
            | Some c => abort_request (requests m) c
            | None => requests m
            end in
  if truthy_string next then
    {| component := run (component m) download_begin;
       requests := <[fresh m := InFlight]> rs;
       cleanup := Some (fresh m);
       fresh := S (fresh m) |}
  else
    {| component := component m; requests := rs; cleanup := None; fresh := fresh m |}.

(** A handler that ends with [setAudioDownloadUrl(next)]: the hook runs
    again only when the value differs from the previous one. *)
Definition set_url (m : machine) (t : list effect) (next : option jsstring)
    : machine :=
  let m' := with_component m (run (component m) (t ++ [setAudioDownloadUrl next])) in
  if bool_decide (audioDownloadUrl (component m) = next) then m'
  else rerun_effect m' next.

Definition response_env
    (r : option (ArrayBuffer * option jsstring)) (blob : nat)
    (d : option AudioBuffer) : Download :=
  {| progressEvents := []; response := r; blobUrl := blob; decoded := d |}.

(** One event; [None] when the event cannot happen in this state. *)
Definition step (m : machine) (ev : event) : option machine :=
  match ev with
  | UrlSubmit e => Some (set_url m [onInputChange] (Some e))
  | ResetAudio => Some (set_url m [setAudioData None] None)
  | OtherAudio a => Some (with_component m (run (component m) [setAudioData a]))
  | Progress id p =>
      match requests m !! id with
      | Some InFlight =>
          Some (with_component m (run (component m) (onDownloadProgress p)))
      | _ => None
      end
  | Response id data contentType blob =>
      match requests m !! id with
      | Some InFlight =>
          let env := response_env (Some (data, contentType)) blob None in
          Some (with_status
                  (with_component m (run (component m) (download_settle env)))
                  id (Decoding blob (declared_mimeType contentType)))
      | _ => None
      end
  | RequestFailed id =>
      match requests m !! id with
      | Some InFlight | Some Aborted =>
          let env := response_env None O None in
          Some (with_status
                  (with_component m (run (component m) (download_settle env)))
                  id Failed)
      | _ => None
      end
  | Decoded id d =>
      match requests m !! id with
      | Some (Decoding blob mime) =>
          Some (with_status
                  (with_component m
                     (run (component m) (setAudioFromDownload_resume blob mime d)))
                  id (match d with Some _ => Installed | None => DecodeFailed end))
      | _ => None
      end
  end.

Fixpoint exec (m : machine) (evs : list event) : option machine :=
  match evs with
  | [] => Some m
  | ev :: r => m' ← step m ev; exec m' r
  end.

(** The request was cancelled: it is aborted or has failed. *)
Definition cancelled (m : machine) (id : nat) : Prop :=
  requests m !! id = Some Aborted \/ requests m !! id = Some Failed.

(** The event does not deliver or install the result of request [id]. *)
Definition not_result_of (id : nat) (ev : event) : Prop :=
  match ev with
  | Response id' _ _ _ | Decoded id' _ => id' <> id
  | _ => True
  end.

(** Controllers are numbered in the order they are made, and a request in
    flight is the one the cleanup of the effect hook holds. *)
Definition wf (m : machine) : Prop :=
  (forall id st, requests m !! id = Some st -> (id < fresh m)%nat)
  /\ (forall id, requests m !! id = Some InFlight -> cleanup m = Some id).

(** The state after a sequence of events that can all happen. *)
Definition after (evs : list event) : machine := default init (exec init evs).

(** Two submissions of different URLs, the second while the first
    request is in flight; the first request then rejects and the second is
    answered and decoded. *)
Definition first_submission : list event := [UrlSubmit (lit "https://a/x.wav")].

Definition after_second_submission : list event :=
  [RequestFailed 0;
   Response 1 [82; 73; 70; 70] (Some (lit "audio/wave")) 7;
   Decoded 1 (Some 3%nat)].

(** The same URL submitted twice, then the answer to the only request. *)
Definition same_url_twice : list event :=
  [UrlSubmit (lit "https://a/x.wav");
   UrlSubmit (lit "https://a/x.wav");
   Response 0 [82; 73; 70; 70] (Some (lit "audio/wave")) 7;
   Decoded 0 (Some 3%nat)].

(** A second URL submitted after the response to the first has arrived,
    while its decode is pending; the first decode resolves last. *)
Definition submission_during_decode : list event :=
  [UrlSubmit (lit "https://a/x.wav");
   Response 0 [82; 73; 70; 70] (Some (lit "audio/wave")) 7;
   UrlSubmit (lit "https://b/y.mp3");
   Response 1 [73; 68; 51] (Some (lit "audio/mpeg")) 8;
   Decoded 1 (Some 4%nat);
   Decoded 0 (Some 3%nat)].

End UrlLoader.

(** ** The transcription orchestrator *)

Module Orchestrator.

(** Modelled from the spec: [hooks/useTranscriber], which implements
    [start], [onInputChange] and the busy flags, is not among the
    sources. The state machine of section 4.4: [start] goes to
    [ModelLoading] while the artifacts are not resident, else to [Busy];
    success caches the output and goes to [Done]; a failure passes
    through [Failed] back to [Idle]; [onInputChange] goes to [Idle] from
    any state, clears the output and lets the call in flight finish with
    a result that is then stale. The single-flight gate rejects a [start]
    while an accepted call has not finished (rejection is the choice the
    design notes recommend), so also after an input change has returned
    the state to [Idle] under a call that is still running. *)
Inductive phase : Type := Idle | ModelLoading | Busy | Done | Failed.

Inductive reply : Type := accepted | rejected.

(** Modelled from the spec: the state of the orchestrator, with the calls
    the engine is working on and the answers the gate has given. *)
Record t : Type := {
  state : phase;
  resident : bool;             (* the model artifacts are loaded *)
  running : list nat;          (* accepted calls that have not finished *)
  stale : bool;                (* the input changed under the running call *)
  output : option nat;         (* the call whose result is the last output *)
  replies : list (nat * reply) (* answers of the gate, latest first *)
}.

Definition init : t :=
  {| state := Idle; resident := false; running := []; stale := false;
     output := None; replies := [] |}.

Inductive input : Type :=
| start (call : nat)
| artifacts_ready
| engine_done (call : nat) (ok : bool)
| input_changed.

(** Modelled from the spec: the transitions of section 4.4 and the
    single-flight gate. *)
Definition step (o : t) (i : input) : t :=
  match i with
  | start c =>
      match running o with
      | [] =>
          {| state := if resident o then Busy else ModelLoading;
             resident := resident o; running := [c]; stale := false;
             output := None; replies := (c, accepted) :: replies o |}
      | _ :: _ =>
          {| state := state o; resident := resident o; running := running o;
             stale := stale o; output := output o;
             replies := (c, rejected) :: replies o |}
      end
  | artifacts_ready =>
      {| state := match state o with ModelLoading => Busy | p => p end;
         resident := true; running := running o; stale := stale o;
         output := output o; replies := replies o |}
  | engine_done c ok =>
      if bool_decide (c ∈ running o) then
        {| state := if stale o then state o else if ok then Done else Idle;
           resident := resident o;
           running := filter (fun c' => c' <> c) (running o);
           stale := false;
           output := if stale o then output o
                     else if ok then Some c else None;
           replies := replies o |}
      else o
  | input_changed =>
      {| state := Idle; resident := resident o; running := running o;
         stale := match running o with [] => false | _ => true end;
         output := None; replies := replies o |}
  end.

Definition exec (o : t) (l : list input) : t := foldl step o l.

Definition isBusy (o : t) : bool :=
  match running o with [] => false | _ => true end.

(** The engine is occupied in the states [ModelLoading] and [Busy], and a
    stale call only runs under the state [Idle]. *)
Definition consistent (o : t) : Prop :=
  (length (running o) <= 1)%nat
  /\ (state o = Busy \/ state o = ModelLoading -> running o <> [])
  /\ (stale o = true -> state o = Idle).

(** Two calls that overlap, an input change under the first, and a third
    call after the first has finished. *)
Definition overlapping_calls : list input :=
  [start 0; artifacts_ready; start 1; input_changed; start 2;
   engine_done 0 true; start 3].

End Orchestrator.

(** ** The progress bar *)

(** [Math.round]: the nearest integer, ties upwards. *)
Definition Math_round (x : number) : number :=
  match x with
  | Finite q => Finite (inject_Z (Qfloor (q + (1 # 2))))
  | _ => x
  end.

(** The [progress] given to [AudioDataBar]:
    [isAudioLoading ? progress : +!!audioData]. *)
Definition bar_progress (s : State) : number :=
  match progress s with
  | Some p => p
  | None => match audioData s with Some _ => Finite 1 | None => Finite 0 end
  end.

(** [AudioDataBar]: the number in front of the percent sign of the width. *)
Definition AudioDataBar (progress : number) : number :=
  Math_round (Double.mul progress (Finite 100)).

(** ** [titleCase] *)

(** The class [\w] and the characters the dot does not match. *)
Definition isWordChar (c : N) : bool :=
  ((48 <=? c) && (c <=? 57)) || ((65 <=? c) && (c <=? 90)) || (c =? 95)
  || ((97 <=? c) && (c <=? 122)).

Definition isLineTerminator (c : N) : bool :=
  (c =? 10) || (c =? 13) || (c =? 8232) || (c =? 8233).

(** [str.match(/\w+.?/g) || []]: the successive leftmost matches. [cur] is
    the word being read, latest character first, when the scan is inside a
    match. *)
Fixpoint word_matches (cur : option jsstring) (s : jsstring) : list jsstring :=
  match s with
  | [] => match cur with Some w => [reverse w] | None => [] end
  | c :: r =>
      match cur with
      | Some w =>
          if isWordChar c then word_matches (Some (c :: w)) r
          else if isLineTerminator c then reverse w :: word_matches None r
          else reverse (c :: w) :: word_matches None r
      | None =>
          if isWordChar c then word_matches (Some [c]) r
          else word_matches None r
      end
  end.

(** [toUpperCase] on a character of the class [\w]. *)
Definition word_toUpperCase (c : N) : N :=
  if (97 <=? c) && (c <=? 122) then c - 32 else c.

(** [word.charAt(0).toUpperCase() + word.slice(1)]; a match starts with a
    character of the class [\w]. *)
Definition capitalize (word : jsstring) : jsstring :=
  match word with
  | c :: r => word_toUpperCase c :: r
  | [] => []
  end.

Definition titleCase (toLowerCase : jsstring -> jsstring) (str : jsstring)
    : jsstring :=
  concat (map capitalize (word_matches None (toLowerCase str))).

(** [titleCase] described as one pass over the lowercased string, to
    compare [titleCase] with: [inWord] tells whether the character before
    is a word character. A word character is kept, in upper case when it
    does not follow a word character; another character is kept only when
    it directly follows a word character and is not a line terminator. *)
Fixpoint titleCase_one_pass (inWord : bool) (s : jsstring) : jsstring :=
  match s with
  | [] => []
  | c :: r =>
      if isWordChar c
      then (if inWord then c else word_toUpperCase c) :: titleCase_one_pass true r
      else if inWord && negb (isLineTerminator c)
           then c :: titleCase_one_pass false r
           else titleCase_one_pass false r
  end.

(** ** The record tile and its modal *)

Module RecordTile.

(** [showModal] of [RecordTile] and [audioBlob] of [RecordModal]. *)
Record state : Type := { showModal : bool; audioBlob : option Blob }.

Definition init : state := {| showModal := false; audioBlob := None |}.

Inductive event : Type :=
| onClick                              (* the tile is clicked *)
| onRecordingComplete (blob : Blob)    (* the recorder delivers a recording *)
| onSubmit                             (* the submit callback of the modal *)
| onClose.                             (* the close callback of the modal *)

(** One callback: the new state and the blobs [props.setAudioData] is
    called with. *)
Definition step (s : state) (ev : event) : state * list Blob :=
  match ev with
  | onClick => ({| showModal := true; audioBlob := audioBlob s |}, [])
  | onRecordingComplete blob =>
      ({| showModal := showModal s; audioBlob := Some blob |}, [])
  | onSubmit =>
      match audioBlob s with
      | Some data => ({| showModal := false; audioBlob := None |}, [data])
      | None => ({| showModal := showModal s; audioBlob := None |}, [])
      end
  | onClose => ({| showModal := false; audioBlob := None |}, [])
  end.

Fixpoint exec (s : state) (evs : list event) : state * list Blob :=
  match evs with
  | [] => (s, [])
  | ev :: r =>
      let '(s1, loaded) := step s ev in
      let '(s2, loaded') := exec s1 r in
      (s2, loaded ++ loaded')
  end.

(** The recordings the recorder delivered, in order. *)
Definition recordings (evs : list event) : list Blob :=
  omap (fun ev => match ev with onRecordingComplete b => Some b | _ => None end) evs.

Definition pending (s : state) : list Blob :=
  match audioBlob s with Some b => [b] | None => [] end.

Definition sample_events : list event :=
  [onClick;
   onRecordingComplete {| blob_type := lit "audio/webm"; blob_bytes := [1] |};
   onRecordingComplete {| blob_type := lit "audio/webm"; blob_bytes := [2] |};
   onSubmit; onSubmit; onClick;
   onRecordingComplete {| blob_type := lit "audio/webm"; blob_bytes := [3] |};
   onClose; onSubmit].

End RecordTile.

(** ** The chat page ([ChatbotPage.tsx]) *)

Module ChatbotPage.

Inductive Role : Type := user | assistant | system.

Record Message : Type := { role : Role; content : jsstring }.

Record State : Type := {
  messages : list Message;
  inputText : jsstring;
  isLoading : bool;
  apiKey : jsstring
}.

Definition system_prompt : Message :=
  {| role := system; content := lit "You are a helpful assistant." |}.

Definition initial : State :=
  {| messages := [system_prompt]; inputText := []; isLoading := false;
     apiKey := [] |}.

Inductive effect : Type :=
| setMessages (l : list Message)
| appendMessage (m : Message)          (* setMessages(prev => [...prev, m]) *)
| setInputText (t : jsstring)
| setIsLoading (b : bool)
| setApiKey (k : jsstring)
| localStorage_setItem (value : jsstring)
| alert
| post (body : list Message)           (* axios.post(.., {model, messages: body}, ..) *)
| transcriber_start (b : AudioBuffer)
| console_error.

Definition apply (s : State) (e : effect) : State :=
  match e with
  | setMessages l =>
      {| messages := l; inputText := inputText s; isLoading := isLoading s;
         apiKey := apiKey s |}
  | appendMessage m =>
      {| messages := messages s ++ [m]; inputText := inputText s;
         isLoading := isLoading s; apiKey := apiKey s |}
  | setInputText t =>
      {| messages := messages s; inputText := t; isLoading := isLoading s;
         apiKey := apiKey s |}
  | setIsLoading b =>
      {| messages := messages s; inputText := inputText s; isLoading := b;
         apiKey := apiKey s |}
  | setApiKey k =>
      {| messages := messages s; inputText := inputText s;
         isLoading := isLoading s; apiKey := k |}
  | _ => s
  end.

Definition run (s : State) (t : list effect) : State := foldl apply s t.

(** The requests sent to the chat API in a trace. *)
Definition posts (t : list effect) : list (list Message) :=
  omap (fun e => match e with post body => Some body | _ => None end) t.

(** [messageText || inputText] *)
Definition text_to_send (c : State) (messageText : option jsstring) : jsstring :=
  string_or messageText (inputText c).

(** Whether [handleSend] gets as far as the request. *)
Definition sends (c : State) (messageText : option jsstring) : bool :=
  negb (bool_decide (trim (text_to_send c messageText) = []))
  && negb (bool_decide (apiKey c = [])).

(** [handleSend] up to its [await]; [c] is the state of the render the
    handler closes over. *)
Definition handleSend_begin (c : State) (messageText : option jsstring)
    : list effect :=
  let text := text_to_send c messageText in
  if bool_decide (trim text = []) then []
  else if bool_decide (apiKey c = []) then [alert]
  else
    let updatedMessages := messages c ++ [{| role := user; content := text |}] in
    [setMessages updatedMessages; setInputText []; setIsLoading true;
     post updatedMessages].

Definition api_error : Message :=
  {| role := assistant;
     content := lit "Error: Unable to get a response from OpenAI API." |}.

(** [handleSend] after the [await]: the reply, or [None] when the request
    or the reading of the reply throws; then the [finally]. *)
Definition handleSend_settle (reply : option jsstring) : list effect :=
  match reply with
  | Some assistantResponse =>
      [appendMessage {| role := assistant; content := assistantResponse |}]
  | None => [console_error; appendMessage api_error]
  end
  ++ [setIsLoading false].

Definition handleSend (c : State) (messageText : option jsstring)
    (reply : option jsstring) : list effect :=
  handleSend_begin c messageText
  ++ (if sends c messageText then handleSend_settle reply else []).

Definition transcription_error : Message :=
  {| role := assistant; content := lit "Error: Unable to transcribe audio." |}.

(** [handleTranscription] up to the point where nothing more runs until
    the chat request settles: [handleSend] is called without [await], so
    the [finally] runs as soon as [handleSend] suspends or returns. *)
Definition handleTranscription_begin
    (c : State) (audioBuffer : AudioBuffer) (o : StartOutcome) : list effect :=
  [setIsLoading true; transcriber_start audioBuffer]
  ++ match o with
     | Resolved (Some result) =>
         [setInputText (TranscriberData.text result)]
         ++ handleSend_begin c (Some (TranscriberData.text result))
         ++ [setIsLoading false]
     | _ => [console_error; appendMessage transcription_error; setIsLoading false]
     end.

Definition handleTranscription
    (c : State) (audioBuffer : AudioBuffer) (o : StartOutcome)
    (reply : option jsstring) : list effect :=
  handleTranscription_begin c audioBuffer o
  ++ match o with
     | Resolved (Some result) =>
         if sends c (Some (TranscriberData.text result))
         then handleSend_settle reply else []
     | _ => []
     end.

Definition handleApiKeyChange (newApiKey : jsstring) : list effect :=
  [setApiKey newApiKey; localStorage_setItem newApiKey].

(** What the user does, one thing after the other; every handler closes
    over the state of the latest render. *)
Inductive action : Type :=
| Type_ (t : jsstring)                                   (* the text input changes *)
| ApiKey (k : jsstring)
| Send (reply : option jsstring)                          (* the send button *)
| Voice (audioBuffer : AudioBuffer) (o : StartOutcome) (reply : option jsstring).

Definition perform (s : State) (a : action) : list effect :=
  match a with
  | Type_ t => [setInputText t]
  | ApiKey k => handleApiKeyChange k
  | Send reply => handleSend s None reply
  | Voice audioBuffer o reply => handleTranscription s audioBuffer o reply
  end.

Fixpoint session (s : State) (l : list action) : list effect :=
  match l with
  | [] => []
  | a :: r => let t := perform s a in t ++ session (run s t) r
  end.

(** The messages the page shows: [messages.slice(1)]. *)
Definition shown (s : State) : list Message := drop 1 (messages s).

(** A request body as the API expects it from this page: the system
    prompt first, a user message that is not blank last. *)
Definition well_formed_body (body : list Message) : Prop :=
  head body = Some system_prompt
  /\ exists text, last body = Some {| role := user; content := text |}
                  /\ trim text <> [].

Definition sample_state : State :=
  {| messages := [system_prompt]; inputText := lit "typed";
     isLoading := false; apiKey := lit "sk-1" |}.

Definition sample_transcription : TranscriberData.t :=
  {| TranscriberData.text := lit "hello"; TranscriberData.latency := Finite 1 |}.

Definition empty_transcription : TranscriberData.t :=
  {| TranscriberData.text := []; TranscriberData.latency := Finite 1 |}.

(** The system prompt comes first and is the only system message. *)
Definition prompt_first (s : State) : Prop :=
  exists rest, messages s = system_prompt :: rest
               /\ Forall (fun m => role m <> system) rest.

End ChatbotPage.

(** * Properties *)

(** ** Rounding to the nearest double *)

Section DoubleProperties.
Import Double.
Local Open Scope Q_scope.

(** Powers of two. *)
Lemma pow2_pos (z : Z) : 0 < 2 ^ z.
Proof. apply Qpower_0_lt. reflexivity. Qed.

Lemma pow2_add (a b : Z) : 2 ^ (a + b) == 2 ^ a * 2 ^ b.
Proof. apply Qpower_plus. discriminate. Qed.

Lemma pow2_le (a b : Z) : (a <= b)%Z -> 2 ^ a <= 2 ^ b.
Proof. intros H. apply Qpower_le_compat_l; [exact H|discriminate]. Qed.

Lemma pow2_lt (a b : Z) : (a < b)%Z -> 2 ^ a < 2 ^ b.
Proof. intros H. apply Qpower_lt_compat_l; [exact H|reflexivity]. Qed.

Lemma pow2_Z (n : Z) : (0 <= n)%Z -> inject_Z (2 ^ n) == 2 ^ n.
Proof. intros H. now rewrite Zpower_Qpower. Qed.

(** [ilog2 q] is the exponent of the binade of [q]. *)
Lemma ilog2_spec (q : Q) : 0 < q -> 2 ^ ilog2 q <= q /\ q < 2 ^ (ilog2 q + 1).
Proof.
  intros Hq. destruct q as [n d].
  assert (Hn : (0 < n)%Z) by (unfold Qlt in Hq; simpl in Hq; lia).
  unfold ilog2. cbn [Qnum Qden].
  set (a := Z.log2 n). set (b := Z.log2 (Zpos d)).
  destruct (Z.log2_spec n Hn) as [Ha1 Ha2]. fold a in Ha1, Ha2.
  destruct (Z.log2_spec (Zpos d) eq_refl) as [Hb1 Hb2]. fold b in Hb1, Hb2.
  assert (Ha0 : (0 <= a)%Z) by apply Z.log2_nonneg.
  assert (Hb0 : (0 <= b)%Z) by apply Z.log2_nonneg.
  assert (Qa1 : 2 ^ a <= inject_Z n).
  { eapply Qle_trans; [apply Qle_lteq; right; symmetry; apply pow2_Z; lia|].
    rewrite <- Zle_Qle. exact Ha1. }
  assert (Qa2 : inject_Z n < 2 ^ (a + 1)).
  { eapply Qlt_le_trans; [|apply Qle_lteq; right; apply pow2_Z; lia].
    rewrite <- Zlt_Qlt. exact Ha2. }
  assert (Qb1 : 2 ^ b <= inject_Z (Zpos d)).
  { eapply Qle_trans; [apply Qle_lteq; right; symmetry; apply pow2_Z; lia|].
    rewrite <- Zle_Qle. exact Hb1. }
  assert (Qb2 : inject_Z (Zpos d) < 2 ^ (b + 1)).
  { eapply Qlt_le_trans; [|apply Qle_lteq; right; apply pow2_Z; lia].
    rewrite <- Zlt_Qlt. exact Hb2. }
  assert (Hd : 0 < inject_Z (Zpos d)) by reflexivity.
  assert (U : n # d < 2 ^ (a - b + 1)).
  { rewrite (Qmake_Qdiv n d). apply Qlt_shift_div_r; [exact Hd|].
    apply Qlt_le_trans with (2 ^ (a + 1)); [exact Qa2|].
    replace (a + 1)%Z with ((a - b + 1) + b)%Z by lia.
    eapply Qle_trans; [apply Qle_lteq; right; apply pow2_add|].
    apply Qmult_le_l; [apply pow2_pos|exact Qb1]. }
  assert (L : 2 ^ (a - b - 1) <= n # d).
  { rewrite (Qmake_Qdiv n d). apply Qle_shift_div_l; [exact Hd|].
    apply Qle_trans with (2 ^ a); [|exact Qa1].
    apply Qle_trans with (2 ^ (a - b - 1) * 2 ^ (b + 1)).
    - apply Qmult_le_l; [apply pow2_pos|now apply Qlt_le_weak].
    - apply Qle_lteq; right. rewrite <- pow2_add. now replace (a - b - 1 + (b + 1))%Z with a by lia. }
  destruct (Qle_bool (2 ^ (a - b)) (n # d)) eqn:E.
  - apply Qle_bool_iff in E. split; [exact E|exact U].
  - split; [exact L|]. replace (a - b - 1 + 1)%Z with (a - b)%Z by lia.
    apply Qnot_le_lt. intros H. apply Qle_bool_iff in H. congruence.
Qed.

Lemma ilog2_unique (q : Q) (k : Z) : 2 ^ k <= q -> q < 2 ^ (k + 1) -> ilog2 q = k.
Proof.
  intros H1 H2.
  assert (Hq : 0 < q) by (eapply Qlt_le_trans; [apply (pow2_pos k)|exact H1]).
  destruct (ilog2_spec q Hq) as [L U].
  assert (A : (ilog2 q < k + 1)%Z).
  { apply (Qpower_lt_compat_l_inv 2); [|reflexivity].
    eapply Qle_lt_trans; [exact L|exact H2]. }
  assert (B : (k < ilog2 q + 1)%Z).
  { apply (Qpower_lt_compat_l_inv 2); [|reflexivity].
    eapply Qle_lt_trans; [exact H1|exact U]. }
  lia.
Qed.

Lemma ilog2_le (x y : Q) : 0 < x -> x <= y -> (ilog2 x <= ilog2 y)%Z.
Proof.
  intros Hx Hxy.
  assert (Hy : 0 < y) by (eapply Qlt_le_trans; eauto).
  destruct (ilog2_spec x Hx) as [L _]. destruct (ilog2_spec y Hy) as [_ U].
  assert (A : (ilog2 x < ilog2 y + 1)%Z).
  { apply (Qpower_lt_compat_l_inv 2); [|reflexivity].
    eapply Qle_lt_trans; [exact L|]. eapply Qle_lt_trans; [exact Hxy|exact U]. }
  lia.
Qed.

Lemma ilog2_comp (x y : Q) : 0 < x -> x == y -> ilog2 x = ilog2 y.
Proof.
  intros Hx E. destruct (ilog2_spec x Hx) as [L U]. symmetry.
  apply ilog2_unique; rewrite <- E; assumption.
Qed.

(** Rounding to the nearest integer fixes the integers, moves a number by
    a half at most, and is monotone. *)
Lemma nearest_even_Z (k : Z) : nearest_even (inject_Z k) = k.
Proof.
  unfold nearest_even. rewrite Qfloor_Z.
  destruct (Qcompare_spec (inject_Z k - inject_Z k) (1 # 2)) as [H|H|H]; [lra|reflexivity|lra].
Qed.

Lemma nearest_even_bounds (a : Q) :
  inject_Z (nearest_even a) - a <= 1 # 2 /\ a - inject_Z (nearest_even a) <= 1 # 2.
Proof.
  unfold nearest_even. pose proof (Qfloor_le a) as L. pose proof (Qlt_floor a) as U.
  rewrite inject_Z_plus in U. change (inject_Z 1) with 1 in U.
  destruct (Qcompare_spec (a - inject_Z (Qfloor a)) (1 # 2)) as [H|H|H].
  - destruct (Z.even (Qfloor a));
      [|rewrite inject_Z_plus; change (inject_Z 1) with 1]; lra.
  - lra.
  - rewrite inject_Z_plus. change (inject_Z 1) with 1. lra.
Qed.

Lemma nearest_even_le (a b : Q) : a <= b -> (nearest_even a <= nearest_even b)%Z.
Proof.
  intros Hab. pose proof (Qfloor_resp_le a b Hab) as Hf.
  pose proof (Qfloor_le a) as La. pose proof (Qlt_floor a) as Ua.
  pose proof (Qfloor_le b) as Lb. pose proof (Qlt_floor b) as Ub.
  rewrite inject_Z_plus in Ua, Ub. change (inject_Z 1) with 1 in Ua, Ub.
  unfold nearest_even.
  destruct (Z.eq_dec (Qfloor a) (Qfloor b)) as [E|E].
  - rewrite <- E in *.
    destruct (Qcompare_spec (a - inject_Z (Qfloor a)) (1 # 2)) as [H|H|H];
      destruct (Qcompare_spec (b - inject_Z (Qfloor a)) (1 # 2)) as [H'|H'|H'];
      try destruct (Z.even (Qfloor a)); try lia; exfalso; lra.
  - assert (Hlt : (Qfloor a + 1 <= Qfloor b)%Z) by lia.
    destruct (Qcompare_spec (a - inject_Z (Qfloor a)) (1 # 2)) as [H|H|H];
      destruct (Qcompare_spec (b - inject_Z (Qfloor b)) (1 # 2)) as [H'|H'|H'];
      try destruct (Z.even (Qfloor a)); try destruct (Z.even (Qfloor b)); lia.
Qed.

Lemma nearest_even_comp (a b : Q) : a == b -> nearest_even a = nearest_even b.
Proof.
  intros E. apply Z.le_antisymm; apply nearest_even_le; lra.
Qed.

Lemma Qabs_pos_eq (q : Q) : 0 < q -> Qabs q = q.
Proof.
  destruct q as [n d]. unfold Qlt. simpl. intros H. unfold Qabs.
  f_equal. lia.
Qed.

Lemma ulp_exponent_pos (q : Q) :
  0 < q -> ulp_exponent q = Z.max (ilog2 q - 52) (-1074).
Proof. intros H. unfold ulp_exponent. now rewrite Qabs_pos_eq. Qed.

Lemma Qdiv_le_compat_r (x y c : Q) : 0 < c -> x <= y -> x / c <= y / c.
Proof.
  intros Hc H. apply Qmult_le_compat_r; [exact H|].
  apply Qlt_le_weak, Qinv_lt_0_compat, Hc.
Qed.

Lemma nearest_zero (q : Q) : q == 0 -> nearest q == 0.
Proof.
  intros E. unfold nearest.
  rewrite (nearest_even_comp (q / 2 ^ ulp_exponent q) (inject_Z 0)).
  - rewrite nearest_even_Z. apply Qmult_0_l.
  - unfold Qdiv. apply Qeq_trans with (0 * / 2 ^ ulp_exponent q).
    + apply Qmult_comp; [exact E|reflexivity].
    + apply Qmult_0_l.
Qed.

Lemma nearest_nonneg (q : Q) : 0 <= q -> 0 <= nearest q.
Proof.
  intros H. unfold nearest. apply Qmult_le_0_compat.
  - change 0 with (inject_Z 0). rewrite <- Zle_Qle.
    rewrite <- (nearest_even_Z 0) at 1. apply nearest_even_le.
    apply Qle_shift_div_l; [apply pow2_pos|]. now setoid_rewrite Qmult_0_l.
  - apply Qlt_le_weak, pow2_pos.
Qed.

(** Rounding is monotone: within a binade because [nearest_even] is, and
    across binades because the power of two between them is a double. *)
Lemma nearest_le_pos (x y : Q) : 0 < x -> x <= y -> nearest x <= nearest y.
Proof.
  intros Hx Hxy.
  assert (Hy : 0 < y) by (eapply Qlt_le_trans; eauto).
  unfold nearest. rewrite !ulp_exponent_pos by assumption.
  pose proof (ilog2_le x y Hx Hxy) as Hl.
  destruct (ilog2_spec x Hx) as [_ Ux]. destruct (ilog2_spec y Hy) as [Ly _].
  set (cx := Z.max (ilog2 x - 52) (-1074)).
  set (cy := Z.max (ilog2 y - 52) (-1074)).
  destruct (Z.eq_dec cx cy) as [E|E].
  - rewrite <- E. apply Qmult_le_compat_r; [|apply Qlt_le_weak, pow2_pos].
    rewrite <- Zle_Qle. apply nearest_even_le.
    apply Qdiv_le_compat_r; [apply pow2_pos|exact Hxy].
  - assert (Hc : (cx < cy)%Z) by lia.
    assert (Hcy : cy = (ilog2 y - 52)%Z) by lia.
    apply Qle_trans with (2 ^ (cy + 52)).
    + assert (H : (nearest_even (x / 2 ^ cx) <= 2 ^ (cy + 52 - cx))%Z).
      { rewrite <- (nearest_even_Z (2 ^ (cy + 52 - cx))). apply nearest_even_le.
        apply Qle_shift_div_r; [apply pow2_pos|].
        rewrite pow2_Z by lia. rewrite <- pow2_add.
        replace (cy + 52 - cx + cx)%Z with (cy + 52)%Z by lia.
        apply Qlt_le_weak. eapply Qlt_le_trans; [exact Ux|].
        apply pow2_le. lia. }
      apply Qle_trans with (inject_Z (2 ^ (cy + 52 - cx)) * 2 ^ cx).
      * apply Qmult_le_compat_r; [|apply Qlt_le_weak, pow2_pos].
        now rewrite <- Zle_Qle.
      * rewrite pow2_Z by lia. rewrite <- pow2_add.
        replace (cy + 52 - cx + cx)%Z with (cy + 52)%Z by lia. apply Qle_refl.
    + assert (H : (2 ^ 52 <= nearest_even (y / 2 ^ cy))%Z).
      { rewrite <- (nearest_even_Z (2 ^ 52)) at 1. apply nearest_even_le.
        apply Qle_shift_div_l; [apply pow2_pos|].
        rewrite pow2_Z by lia. rewrite <- pow2_add.
        replace (52 + cy)%Z with (ilog2 y) by lia. exact Ly. }
      apply Qle_trans with (inject_Z (2 ^ 52) * 2 ^ cy).
      * rewrite pow2_Z by lia. rewrite <- pow2_add.
        replace (52 + cy)%Z with (cy + 52)%Z by lia. apply Qle_refl.
      * apply Qmult_le_compat_r; [|apply Qlt_le_weak, pow2_pos].
        now rewrite <- Zle_Qle.
Qed.

Lemma nearest_le (x y : Q) : 0 <= x -> x <= y -> nearest x <= nearest y.
Proof.
  intros Hx Hxy. apply Qle_lteq in Hx as [Hx|Hx].
  - now apply nearest_le_pos.
  - rewrite (nearest_zero x) by now symmetry.
    apply nearest_nonneg. lra.
Qed.

Lemma nearest_comp (x y : Q) : x == y -> nearest x == nearest y.
Proof.
  intros E. destruct (Qeq_dec x 0) as [Z|NZ].
  - rewrite (nearest_zero x Z). symmetry. apply nearest_zero. lra.
  - unfold nearest.
    assert (Ha : 0 < Qabs x).
    { destruct (Qlt_le_dec 0 (Qabs x)) as [H|H]; [exact H|].
      exfalso. apply NZ. apply Qabs_Qle_condition in H. lra. }
    assert (Hu : ulp_exponent x = ulp_exponent y).
    { unfold ulp_exponent. f_equal. f_equal. apply ilog2_comp; [exact Ha|].
      now apply Qabs_wd. }
    rewrite <- Hu.
    rewrite (nearest_even_comp (x / 2 ^ ulp_exponent x) (y / 2 ^ ulp_exponent x)).
    + reflexivity.
    + unfold Qdiv. apply Qmult_comp; [exact E|reflexivity].
Qed.

Lemma Qneg_nonneg (q : Q) : 0 <= q -> Qneg q = false.
Proof. unfold Qle, Qneg. simpl. intros H. apply Z.ltb_ge. lia. Qed.

Lemma Qneg_comp (x y : Q) : x == y -> Qneg x = Qneg y.
Proof.
  unfold Qeq, Qneg. intros E.
  destruct (Z.ltb_spec (Qnum x) 0), (Z.ltb_spec (Qnum y) 0); try reflexivity; nia.
Qed.

(** The double a result is rounded to does not depend on the fraction
    that represents the result. *)
Lemma round_comp (x y : Q) : x == y -> round x = round y.
Proof.
  intros E. unfold round. pose proof (nearest_comp x y E) as En.
  rewrite (Qneg_comp x y E), (Qred_complete _ _ En).
  replace (Qle_bool (2 ^ 1024) (Qabs (nearest x)))
    with (Qle_bool (2 ^ 1024) (Qabs (nearest y))); [reflexivity|].
  apply eq_true_iff_eq. rewrite !Qle_bool_iff.
  apply Qabs_wd in En. split; intros H; lra.
Qed.

Lemma round_nonneg (x : Q) :
  0 <= x ->
  round x = (if Qle_bool (2 ^ 1024) (nearest x) then Infinity false
             else Finite (Qred (nearest x))).
Proof.
  intros H. unfold round. rewrite (Qneg_nonneg x H).
  replace (Qle_bool (2 ^ 1024) (Qabs (nearest x)))
    with (Qle_bool (2 ^ 1024) (nearest x)); [reflexivity|].
  apply eq_true_iff_eq. rewrite !Qle_bool_iff.
  pose proof (Qabs_pos _ (nearest_nonneg x H)) as E. split; intros H'; lra.
Qed.

Lemma round_le (x y : Q) : 0 <= x -> x <= y -> num_le (round x) (round y).
Proof.
  intros Hx Hxy. assert (Hy : 0 <= y) by lra.
  pose proof (nearest_le x y Hx Hxy) as Hn.
  rewrite (round_nonneg x Hx), (round_nonneg y Hy).
  destruct (Qle_bool (2 ^ 1024) (nearest y)) eqn:Ey.
  - destruct (Qle_bool (2 ^ 1024) (nearest x)); exact I.
  - destruct (Qle_bool (2 ^ 1024) (nearest x)) eqn:Ex.
    + apply Qle_bool_iff in Ex.
      assert (C : Qle_bool (2 ^ 1024) (nearest y) = true) by (apply Qle_bool_iff; lra).
      congruence.
    + simpl. now apply Qred_le.
Qed.

Lemma round_between (x y b : Q) :
  0 <= x -> x <= y -> round y = Finite b ->
  exists a, round x = Finite a /\ 0 <= a /\ a <= b.
Proof.
  intros Hx Hxy Hy. pose proof (round_le x y Hx Hxy) as H. rewrite Hy in H.
  rewrite (round_nonneg x Hx) in *.
  destruct (Qle_bool (2 ^ 1024) (nearest x)); [destruct H|].
  eexists. split; [reflexivity|]. split; [|exact H].
  rewrite Qred_correct. now apply nearest_nonneg.
Qed.

(** In the normal range rounding moves a number by [2 ^ -53] of it at
    most. *)
Lemma nearest_error (x : Q) :
  2 ^ (-1022) <= x ->
  Qabs (nearest x - x) <= x * (1 # 9007199254740992).
Proof.
  intros Hx.
  assert (H0 : 0 < x) by (eapply Qlt_le_trans; [apply (pow2_pos (-1022))|exact Hx]).
  assert (Hl : (-1022 <= ilog2 x)%Z).
  { rewrite <- (ilog2_unique (2 ^ (-1022)) (-1022)).
    - apply ilog2_le; [apply pow2_pos|exact Hx].
    - apply Qle_refl.
    - now apply pow2_lt. }
  destruct (ilog2_spec x H0) as [L _].
  unfold nearest. rewrite ulp_exponent_pos by exact H0.
  rewrite Z.max_l by lia.
  set (e := (ilog2 x - 52)%Z). set (t := 2 ^ e).
  assert (Ht : 0 < t) by apply pow2_pos.
  destruct (nearest_even_bounds (x / t)) as [B1 B2].
  set (n := inject_Z (nearest_even (x / t))) in *.
  assert (Hs : x / t * t == x) by (field; lra).
  assert (Hte : t * 4503599627370496 <= x).
  { eapply Qle_trans; [|exact L]. subst t e.
    replace (ilog2 x) with (ilog2 x - 52 + 52)%Z at 2 by lia.
    rewrite pow2_add. apply Qle_refl. }
  assert (C1 : (n - x / t) * t <= (1 # 2) * t)
    by (apply Qmult_le_compat_r; lra).
  assert (C2 : (x / t - n) * t <= (1 # 2) * t)
    by (apply Qmult_le_compat_r; lra).
  apply Qabs_Qle_condition. split; lra.
Qed.
(** Some roundings: 0.1; a tie above [2 ^ 53], where the doubles are the
    even integers; the half of the least subnormal number and a number
    just above it; the greatest double and the least number that
    overflows. *)
Example round_samples :
  round (1 # 10) = Finite (3602879701896397 # 36028797018963968)
  /\ round (2 ^ 53 + 1) = Finite 9007199254740992
  /\ round (2 ^ 53 + 3) = Finite 9007199254740996
  /\ round (2 ^ (-1075)) = Finite 0
  /\ num_eq (round (2 ^ (-1075) + 2 ^ (-1200))) (Finite (2 ^ (-1074)))
  /\ num_eq (round (2 ^ 1024 - 2 ^ 971)) (Finite (2 ^ 1024 - 2 ^ 971))
  /\ round (2 ^ 1024 - 2 ^ 970) = Infinity false
  /\ round (- (2 ^ 1024)) = Infinity true.
Proof. vm_compute. repeat split. Qed.

End DoubleProperties.

(** ** Running traces *)

Lemma run_app (s : State) (t1 t2 : list effect) :
  run s (t1 ++ t2) = run (run s t1) t2.
Proof. apply foldl_app. Qed.

Lemma run_cons (s : State) (e : effect) (t : list effect) :
  run s (e :: t) = run (apply s e) t.
Proof. reflexivity. Qed.

(** Effects that are not setters leave the state alone. *)
Lemma apply_not_mutation (s : State) (e : effect) :
  is_mutation e = false -> apply s e = s.
Proof. destruct e; simpl; intros H; try discriminate; reflexivity. Qed.

Lemma run_not_mutation (t : list effect) :
  forall s, forallb (fun e => negb (is_mutation e)) t = true -> run s t = s.
Proof.
  induction t as [|e t IH]; intros s H; [reflexivity|].
  simpl in H. apply andb_prop in H as [He Ht].
  rewrite run_cons, apply_not_mutation; [now apply IH|].
  now destruct (is_mutation e).
Qed.

(** Progress events only touch [progress]. *)
Lemma audioData_run_progress (ps : list (option number)) :
  forall s, audioData (run s (flat_map onDownloadProgress ps)) = audioData s.
Proof.
  induction ps as [|p ps IH]; intros s; simpl; [reflexivity|].
  rewrite IH. reflexivity.
Qed.

(** ** The declared MIME type of a download *)

Lemma declared_mimeType_empty : declared_mimeType (Some []) = lit "audio/wav".
Proof. reflexivity. Qed.

Lemma declared_mimeType_wave :
  declared_mimeType (Some (lit "audio/wave")) = lit "audio/wav".
Proof. reflexivity. Qed.

Lemma declared_mimeType_other (m : jsstring) :
  m <> [] -> m <> lit "audio/wave" -> declared_mimeType (Some m) = m.
Proof.
  intros Hne Hw. unfold declared_mimeType.
  destruct m as [|c m]; [congruence|]. simpl.
  rewrite bool_decide_eq_false_2; [reflexivity|assumption].
Qed.

Lemma declared_mimeType_spec (m : jsstring) :
  declared_mimeType (Some m)
  = if bool_decide (m = [] \/ m = lit "audio/wave") then lit "audio/wav" else m.
Proof.
  case_bool_decide as H.
  - destruct H as [->| ->]; reflexivity.
  - apply declared_mimeType_other; intros ->; apply H; auto.
Qed.

(** C2. A download from a non-empty URL whose response declares the
    content type [m] and whose bytes decode installs an audio whose
    [mimeType] is ["audio/wav"] when [m] is empty or ["audio/wave"], and
    [m] itself otherwise. *)
Theorem downloadAudioFromUrl_mimeType
    (s : State) (u m : jsstring) (ps : list (option number))
    (data : ArrayBuffer) (blob : nat) (d : AudioBuffer) :
  u <> [] ->
  audioData
    (run s (downloadAudioFromUrl (Some u)
              {| progressEvents := ps; response := Some (data, Some m);
                 blobUrl := blob; decoded := Some d |}))
  = Some {| buffer := d; url := BlobUrl blob; source := URL;
            mimeType := if bool_decide (m = [] \/ m = lit "audio/wave")
                        then lit "audio/wav" else m |}.
Proof.
  intros Hu. destruct u as [|c u]; [congruence|].
  unfold downloadAudioFromUrl, download_settle, download_decoded. simpl.
  rewrite !run_app. simpl.
  rewrite <- declared_mimeType_spec. reflexivity.
Qed.

Lemma downloadAudioFromUrl_mimeType_witness :
  audioData
    (run initial (downloadAudioFromUrl (Some (lit "https://example.org/a.wav"))
              {| progressEvents := [Some (Finite (1 # 2)); None];
                 response := Some ([82; 73; 70; 70], Some (lit "audio/wave"));
                 blobUrl := 4%nat; decoded := Some 9%nat |}))
  = Some {| buffer := 9%nat; url := BlobUrl 4; source := URL;
            mimeType := lit "audio/wav" |}.
Proof.
  exact (downloadAudioFromUrl_mimeType initial (lit "https://example.org/a.wav")
           (lit "audio/wave") [Some (Finite (1 # 2)); None] [82; 73; 70; 70]
           4%nat 9%nat ltac:(discriminate)).
Defined.

(** ** Progress fractions *)

Lemma num_or_not_NaN (p : option number) : is_NaN (num_or p (Finite 0)) = false.
Proof. destruct p as [[| |q]|]; simpl; try reflexivity. now destruct (Qzero q). Qed.

(** C10. Every progress event of the recording reader and of the download
    installs [Some v] with [v] a number that is not [NaN]; [v] is 0 when
    the ratio [loaded / total] is [NaN] (both are 0), and when the
    [progress] field of the download event is [undefined] or [NaN]. *)
Theorem progress_fraction_defined :
  (forall (s : State) (loaded total : N),
      exists v, reader_onprogress (loaded, total) = [setProgress (Some v)]
        /\ progress (run s (reader_onprogress (loaded, total))) = Some v
        /\ is_NaN v = false
        /\ (is_NaN (num_div (of_N loaded) (of_N total)) = true -> v = Finite 0))
  /\ reader_onprogress (0, 0) = [setProgress (Some (Finite 0))]
  /\ (forall (s : State) (p : option number),
      exists v, onDownloadProgress p = [setProgress (Some v)]
        /\ progress (run s (onDownloadProgress p)) = Some v
        /\ is_NaN v = false
        /\ (p = None \/ p = Some NaN -> v = Finite 0)).
Proof.
  split; [|split].
  - intros s loaded total. eexists. split; [reflexivity|].
    split; [reflexivity|]. split; [apply num_or_not_NaN|].
    intros H. cbn [fst snd]. unfold Double.div.
    destruct (num_div (of_N loaded) (of_N total)); try discriminate H.
    reflexivity.
  - reflexivity.
  - intros s p. eexists. split; [reflexivity|].
    split; [reflexivity|]. split; [apply num_or_not_NaN|].
    intros [-> | ->]; reflexivity.
Qed.

(** ** The batch evaluator *)

Lemma iterations_imap (start : nat -> AudioBuffer -> StartOutcome) (n : nat)
    (rest : list Item.t) :
  forall i,
    iterations start n i rest
    = concat (imap (fun j a => iteration n (i + j) a (start (i + j)%nat (Item.buffer a)))
                   rest).
Proof.
  induction rest as [|a rest IH]; intros i; [reflexivity|].
  cbn [iterations imap concat]. rewrite Nat.add_0_r, IH. do 2 f_equal.
  apply imap_ext. intros j x _. simpl. now rewrite Nat.add_succ_r.
Qed.

Lemma transcriptionResults_iteration (s : State) (n i : nat) (a : Item.t)
    (o : StartOutcome) :
  transcriptionResults (run s (iteration n i a o))
  = transcriptionResults s ++ [result_of a o].
Proof. destruct o as [[d|]|]; reflexivity. Qed.

Lemma transcriptionResults_iterations
    (start : nat -> AudioBuffer -> StartOutcome) (n : nat) (rest : list Item.t) :
  forall i s,
    transcriptionResults (run s (iterations start n i rest))
    = transcriptionResults s
      ++ imap (fun j a => result_of a (start (i + j)%nat (Item.buffer a))) rest.
Proof.
  induction rest as [|a rest IH]; intros i s.
  - simpl. now rewrite app_nil_r.
  - cbn [iterations imap]. rewrite run_app, IH, transcriptionResults_iteration.
    rewrite Nat.add_0_r, <- app_assoc. do 2 f_equal.
    apply imap_ext. intros j x _. simpl. now rewrite Nat.add_succ_r.
Qed.

(** What a batch leaves in [transcriptionResults]: one entry per item, in
    the order of the items; the entry of an item whose call did not deliver
    a result is [undefined]. *)
Lemma transcribeAllFiles_results
    (s : State) (l : list Item.t) (start : nat -> AudioBuffer -> StartOutcome) :
  transcriptionResults (run s (transcribeAllFiles l start))
  = imap (fun i a => result_of a (start i (Item.buffer a))) l.
Proof.
  unfold transcribeAllFiles. rewrite run_app, transcriptionResults_iterations.
  reflexivity.
Qed.

Lemma transcribeAllFiles_results_length
    (s : State) (l : list Item.t) (start : nat -> AudioBuffer -> StartOutcome) :
  length (transcriptionResults (run s (transcribeAllFiles l start))) = length l.
Proof. now rewrite transcribeAllFiles_results, length_imap. Qed.

(** C1. A batch of one item whose call of [start] rejects, or resolves to
    [undefined], leaves the array [[undefined]] in [transcriptionResults]:
    the entry is not a record and carries neither the file name nor the
    ground truth of the item, and building the report from it throws. *)
Theorem transcribeAllFiles_failed_entry_undefined :
  forall (s : State) (a : Item.t),
    transcriptionResults (run s (transcribeAllFiles [a] (fun _ _ => Rejected)))
    = [None]
    /\ transcriptionResults
         (run s (transcribeAllFiles [a] (fun _ _ => Resolved None)))
       = [None]
    /\ forall toLowerCase toString,
         concatenatedResults toLowerCase toString [None] = None.
Proof. intros s a. repeat split. Qed.

(** *** Progress of a batch *)

Lemma round_finite (x a : Q) :
  Double.round x = Finite a -> (a == Double.nearest x)%Q.
Proof.
  unfold Double.round. destruct (Qle_bool _ _); [discriminate|].
  intros [= <-]. apply Qred_correct.
Qed.

Lemma round_error (x a : Q) :
  (2 ^ (-1022) <= x)%Q -> Double.round x = Finite a ->
  (Qabs (a - x) <= x * (1 # 9007199254740992))%Q.
Proof.
  intros Hx Ha. apply round_finite in Ha.
  pose proof (nearest_error x Hx) as H.
  apply Qabs_Qle_condition in H. apply Qabs_Qle_condition. lra.
Qed.

Lemma round_0 : Double.round 0 = Finite 0.
Proof. vm_compute. reflexivity. Qed.

Lemma round_1 : Double.round 1 = Finite 1.
Proof. vm_compute. reflexivity. Qed.

Lemma round_100 : Double.round 100 = Finite 100.
Proof. vm_compute. reflexivity. Qed.

Lemma div_of_nat (i n : nat) :
  n <> O ->
  Double.div (of_nat i) (of_nat n)
  = Double.round (inject_Z (Z.of_nat i) / inject_Z (Z.of_nat n)).
Proof.
  intros Hn. unfold Double.div, num_div, of_nat, Qzero. simpl.
  destruct (Z.eqb_spec (Z.of_nat n) 0) as [E|E]; [lia|reflexivity].
Qed.

Lemma mul_100 (a : Q) :
  Double.mul (Finite a) (Finite 100) = Double.round (a * 100).
Proof. reflexivity. Qed.

Lemma inject_Z_pos (n : nat) : n <> O -> (0 < inject_Z (Z.of_nat n))%Q.
Proof. intros H. change 0%Q with (inject_Z 0). rewrite <- Zlt_Qlt. lia. Qed.

Lemma fraction_le (i k n : nat) :
  (i <= k)%nat -> n <> O ->
  (inject_Z (Z.of_nat (i + 1)) / inject_Z (Z.of_nat n)
   <= inject_Z (Z.of_nat (k + 1)) / inject_Z (Z.of_nat n))%Q.
Proof.
  intros H Hn. apply Qdiv_le_compat_r; [now apply inject_Z_pos|].
  rewrite <- Zle_Qle. lia.
Qed.

Lemma fraction_bounds (i n : nat) :
  (i < n)%nat ->
  (0 < inject_Z (Z.of_nat (i + 1)) / inject_Z (Z.of_nat n))%Q
  /\ (inject_Z (Z.of_nat (i + 1)) / inject_Z (Z.of_nat n) <= 1)%Q.
Proof.
  intros H. assert (Hn : (0 < inject_Z (Z.of_nat n))%Q) by (apply inject_Z_pos; lia).
  split.
  - apply Qlt_shift_div_l; [exact Hn|]. rewrite Qmult_0_l. apply inject_Z_pos. lia.
  - apply Qle_shift_div_r; [exact Hn|]. rewrite Qmult_1_l, <- Zle_Qle. lia.
Qed.

(** The quotient [(i + 1) / n] of an iteration is a double between 0 and
    1. *)
Lemma div_fraction (i n : nat) :
  (i < n)%nat ->
  exists a, Double.div (of_nat (i + 1)) (of_nat n) = Finite a
    /\ (0 <= a)%Q /\ (a <= 1)%Q.
Proof.
  intros H. rewrite div_of_nat by lia.
  destruct (fraction_bounds i n H) as [H0 H1].
  apply (round_between _ 1); [now apply Qlt_le_weak|exact H1|exact round_1].
Qed.

Lemma percent_finite (i n : nat) :
  (i < n)%nat ->
  exists a p, Double.div (of_nat (i + 1)) (of_nat n) = Finite a
    /\ percent i n = Finite p
    /\ (0 <= a)%Q /\ (a <= 1)%Q /\ (0 <= p)%Q /\ (p <= 100)%Q.
Proof.
  intros H. destruct (div_fraction i n H) as (a & Ha & H0 & H1).
  unfold percent. rewrite Ha, mul_100.
  destruct (round_between (a * 100) 100 100) as (p & Hp & Hp0 & Hp1);
    [lra|lra|exact round_100|].
  exists a, p. tauto.
Qed.

Lemma percent_le (i k n : nat) :
  (i <= k)%nat -> (k < n)%nat -> num_le (percent i n) (percent k n).
Proof.
  intros Hik Hk.
  destruct (div_fraction i n) as (a & Ha & Ha0 & Ha1); [lia|].
  destruct (div_fraction k n) as (b & Hb & Hb0 & Hb1); [lia|].
  assert (Hab : (a <= b)%Q).
  { pose proof (round_le _ _ (Qlt_le_weak _ _ (proj1 (fraction_bounds i n ltac:(lia))))
                  (fraction_le i k n Hik ltac:(lia))) as H.
    rewrite <- !div_of_nat, Ha, Hb in H by lia. exact H. }
  unfold percent. rewrite Ha, Hb, !mul_100. apply round_le; lra.
Qed.

(** The report after the last item is 100: [n / n] is 1 and [1 * 100] is
    100, with no rounding. *)
Lemma percent_last (i n : nat) : (i + 1)%nat = n -> percent i n = Finite 100.
Proof.
  intros E. unfold percent. rewrite div_of_nat by lia. rewrite E.
  rewrite (round_comp _ 1), round_1; [exact round_100|].
  apply Qmult_inv_r. intros H.
  pose proof (inject_Z_pos n ltac:(lia)). lra.
Qed.

(** A report before the last one is below 100: the quotient is at most
    [1 - 2 ^ -53], the double before 1, and 100 times that rounds to the
    double before 100. *)
Lemma percent_before_last (i n : nat) :
  (i + 1 < n)%nat -> (Z.of_nat n <= 2 ^ 53)%Z ->
  exists p, percent i n = Finite p /\ (p < 100)%Q.
Proof.
  intros H Hn.
  destruct (fraction_bounds i n ltac:(lia)) as [H0 _].
  set (c := (9007199254740991 # 9007199254740992)%Q).
  assert (Hc : Double.round c = Finite c) by (vm_compute; reflexivity).
  assert (Hx : (inject_Z (Z.of_nat (i + 1)) / inject_Z (Z.of_nat n) <= c)%Q).
  { apply Qle_shift_div_r; [apply inject_Z_pos; lia|].
    assert (H1 : (inject_Z (Z.of_nat (i + 1)) + 1 <= inject_Z (Z.of_nat n))%Q).
    { change 1%Q with (inject_Z 1). rewrite <- inject_Z_plus, <- Zle_Qle. lia. }
    assert (H2 : (inject_Z (Z.of_nat n) <= 9007199254740992)%Q).
    { change 9007199254740992%Q with (inject_Z (2 ^ 53)). now rewrite <- Zle_Qle. }
    subst c. lra. }
  destruct (round_between _ c c (Qlt_le_weak _ _ H0) Hx Hc) as (a & Ha & Ha0 & Ha1).
  unfold percent. rewrite div_of_nat, Ha, mul_100 by lia.
  set (d := (7036874417766399 # 70368744177664)%Q).
  assert (Hd : Double.round (c * 100) = Finite d) by (vm_compute; reflexivity).
  destruct (round_between (a * 100) (c * 100) d) as (p & Hp & _ & Hp1);
    [lra|lra|exact Hd|].
  exists p. split; [exact Hp|]. subst d. lra.
Qed.

(** A report is the exact percentage rounded twice: it is within
    [2 ^ -51] of it, relatively. *)
Lemma percent_error (i n : nat) :
  (i < n)%nat -> (Z.of_nat n <= 2 ^ 53)%Z ->
  exists p, percent i n = Finite p
    /\ (Qabs (p - percentage i n)
        <= percentage i n * (1 # 2251799813685248))%Q.
Proof.
  intros H Hn.
  destruct (fraction_bounds i n H) as [H0 H1].
  destruct (percent_finite i n H) as (a & p & Ha & Hp & Ha0 & Ha1 & Hp0 & Hp1).
  exists p. split; [exact Hp|].
  unfold percent in Hp. rewrite Ha, mul_100 in Hp.
  rewrite div_of_nat in Ha by lia.
  unfold percentage.
  set (x := (inject_Z (Z.of_nat (i + 1)) / inject_Z (Z.of_nat n))%Q) in *.
  assert (Hlow : (2 ^ (-1022) <= 1 # 18014398509481984)%Q).
  { change (1 # 18014398509481984)%Q with (2 ^ (-54))%Q. now apply pow2_le. }
  assert (Hx : (1 # 9007199254740992 <= x)%Q).
  { subst x. apply Qle_shift_div_l; [apply inject_Z_pos; lia|].
    assert (H2 : (inject_Z (Z.of_nat n) <= 9007199254740992)%Q).
    { change 9007199254740992%Q with (inject_Z (2 ^ 53)). now rewrite <- Zle_Qle. }
    assert (H3 : (1 <= inject_Z (Z.of_nat (i + 1)))%Q).
    { change 1%Q with (inject_Z 1). rewrite <- Zle_Qle. lia. }
    lra. }
  pose proof (round_error x a ltac:(lra) Ha) as Ea.
  apply Qabs_Qle_condition in Ea.
  pose proof (round_error (a * 100) p ltac:(lra) Hp) as Ep.
  apply Qabs_Qle_condition in Ep. apply Qabs_Qle_condition. lra.
Qed.

Lemma batch_timeline_iterations
    (start : nat -> AudioBuffer -> StartOutcome) (n : nat) (rest : list Item.t) :
  forall i,
    batch_timeline (iterations start n i rest)
    = concat (imap (fun j a => [transcriber_start (Item.buffer a);
                                setTestProgress (percent (i + j) n)]) rest).
Proof.
  induction rest as [|a rest IH]; intros i; [reflexivity|].
  cbn [iterations imap concat]. unfold batch_timeline in *.
  rewrite filter_app, IH, Nat.add_0_r. f_equal.
  - destruct (start i (Item.buffer a)) as [[d|]|]; reflexivity.
  - f_equal. apply imap_ext. intros j x _. simpl. now rewrite Nat.add_succ_r.
Qed.

Lemma reported_progress_iterations
    (start : nat -> AudioBuffer -> StartOutcome) (n : nat) (rest : list Item.t) :
  forall i,
    reported_progress (iterations start n i rest)
    = map (fun j => percent j n) (seq i (length rest)).
Proof.
  induction rest as [|a rest IH]; intros i; [reflexivity|].
  cbn [iterations]. unfold reported_progress in *.
  rewrite omap_app, IH. simpl. f_equal.
  destruct (start i (Item.buffer a)) as [[d|]|]; reflexivity.
Qed.

Lemma reported_progress_batch
    (l : list Item.t) (start : nat -> AudioBuffer -> StartOutcome) :
  reported_progress (transcribeAllFiles l start)
  = Finite 0 :: map (fun i => percent i (length l)) (seq 0 (length l)).
Proof.
  unfold transcribeAllFiles, reported_progress.
  rewrite omap_app. fold (reported_progress (iterations start (length l) 0 l)).
  now rewrite reported_progress_iterations.
Qed.

Lemma lookup_percents (n j : nat) (p : number) :
  (Finite 0 :: map (fun i => percent i n) (seq 0 n)) !! j = Some p ->
  (j = O /\ p = Finite 0)
  \/ (exists i, j = S i /\ (i < n)%nat /\ p = percent i n).
Proof.
  destruct j as [|i]; simpl.
  - intros [= <-]. now left.
  - intros H. right. exists i. rewrite list_lookup_fmap in H.
    destruct (seq 0 n !! i) as [k|] eqn:E; [|discriminate].
    apply lookup_seq in E as [-> Hi]. simpl in H. injection H as <-. auto.
Qed.

(** C4, as the code has it. During a batch over [N] items, [N] within the
    lengths an array can have, the progress reports are: 0 at the start,
    then after the call for item [i] has settled, whatever its outcome, the
    double that [((i + 1) / N) * 100] evaluates to, which is the exact
    percentage up to the two roundings (within [2 ^ -51] of it,
    relatively). The reports never decrease, and a report is 100 exactly
    when it is the one that follows the last item. *)
Theorem batch_progress_monotone_complete :
  forall (l : list Item.t) (start : nat -> AudioBuffer -> StartOutcome),
    (Z.of_nat (length l) < 2 ^ 32)%Z ->
    batch_timeline (transcribeAllFiles l start)
    = setTestProgress (Finite 0)
      :: concat (imap (fun i a =>
                         [transcriber_start (Item.buffer a);
                          setTestProgress (percent i (length l))]) l)
    /\ reported_progress (transcribeAllFiles l start)
       = Finite 0 :: map (fun i => percent i (length l)) (seq 0 (length l))
    /\ (forall i : nat,
          (i < length l)%nat ->
          exists p : Q,
            percent i (length l) = Finite p
            /\ (Qabs (p - percentage i (length l))
                <= percentage i (length l) * (1 # 2251799813685248))%Q)
    /\ nondecreasing (reported_progress (transcribeAllFiles l start))
    /\ (forall (j : nat) (p : number),
          reported_progress (transcribeAllFiles l start) !! j = Some p ->
          num_eq p (Finite 100) <-> (j = length l /\ l <> [])).
Proof.
  intros l start Hlen.
  assert (Hn : (Z.of_nat (length l) <= 2 ^ 53)%Z) by lia.
  split; [|split; [|split; [|split]]].
  - unfold transcribeAllFiles, batch_timeline. rewrite filter_app.
    fold (batch_timeline (iterations start (length l) 0 l)).
    rewrite batch_timeline_iterations. reflexivity.
  - apply reported_progress_batch.
  - intros i Hi. now apply percent_error.
  - rewrite reported_progress_batch. intros j k p q Hjk Hj Hk.
    apply lookup_percents in Hj as [[-> ->]|(i & -> & Hi & ->)];
      apply lookup_percents in Hk as [[-> ->]|(i' & -> & Hi' & ->)].
    + apply Qle_refl.
    + destruct (percent_finite i' _ Hi') as (a & p & _ & -> & _ & _ & Hp & _).
      exact Hp.
    + lia.
    + apply percent_le; lia.
  - rewrite reported_progress_batch. intros j p Hj.
    apply lookup_percents in Hj as [[-> ->]|(i & -> & Hi & ->)].
    + split; [discriminate|]. intros [E Hl]. destruct l; [congruence|discriminate].
    + destruct (Nat.eq_dec (i + 1)%nat (length l)) as [E|E].
      * rewrite (percent_last i _ E). split; [|reflexivity].
        intros _. split; [lia|]. intros ->. simpl in Hi. lia.
      * destruct (percent_before_last i (length l)) as (p & -> & Hp); [lia|exact Hn|].
        split; [|intros [E' _]; lia].
        simpl. intros Hp'. rewrite Hp' in Hp. discriminate Hp.
Qed.

Lemma batch_progress_monotone_complete_witness :
  nondecreasing
    (reported_progress
       (transcribeAllFiles [sample_item; sample_item; sample_item]
          (fun i _ => match i with O => Rejected | _ => Resolved None end)))
  /\ reported_progress
       (transcribeAllFiles [sample_item; sample_item; sample_item]
          (fun i _ => match i with O => Rejected | _ => Resolved None end))
     = [Finite 0; percent 0 3; percent 1 3; percent 2 3].
Proof.
  pose proof (batch_progress_monotone_complete
                [sample_item; sample_item; sample_item]
                (fun i _ => match i with O => Rejected | _ => Resolved None end)
                ltac:(vm_compute; reflexivity)) as (_ & H2 & _ & H4 & _).
  split; [exact H4|exact H2].
Defined.

(** The reports of a batch of three items: the first two are not the exact
    percentages [100 / 3] and [200 / 3], which no double is. *)
Lemma batch_of_three_not_exact :
  reported_progress
    (transcribeAllFiles [sample_item; sample_item; sample_item]
       (fun _ _ => Rejected))
  = [Finite 0;
     Finite (2345624805922133 # 70368744177664);
     Finite (2345624805922133 # 35184372088832);
     Finite 100]
  /\ ~ num_eq (percent 0 3) (Finite (percentage 0 3))
  /\ ~ num_eq (percent 1 3) (Finite (percentage 1 3)).
Proof.
  split; [vm_compute; reflexivity|]. split; vm_compute; discriminate.
Qed.

Example progress_of_two_items :
  reported_progress
    (transcribeAllFiles [sample_item; sample_item]
       (fun i _ => match i with O => Rejected | _ => Resolved None end))
  = [Finite 0; Finite 50; Finite 100].
Proof. vm_compute. reflexivity. Qed.

(** ** The adapters signal the change of input first *)



Lemma load_lines_quiet (env : Corpus) (lines : list jsstring) :
  quiet (load_lines env lines).1.
Proof.
  induction lines as [|line rest IH]; simpl; [constructor|].
  destruct (load_lines env rest) as [log items]. simpl in IH.
  destruct (load_line env line); simpl; auto.
  constructor; [reflexivity|assumption].
Qed.

Lemma handleClick_quiet (env : Corpus) : quiet (handleClick env).1.
Proof.
  unfold handleClick. destruct (fetch_text env transcriptionsFile) as [text|].
  - pose proof (load_lines_quiet env (manifest_lines text)) as H.
    destruct (load_lines env (manifest_lines text)) as [log items]. simpl in *.
    apply Forall_app. split; [assumption|]. repeat constructor.
  - repeat constructor.
Qed.


(** ** Playback handles *)

Lemma released_app (h : nat) (t1 t2 : list effect) :
  released h (t1 ++ t2) = (released h t1 + released h t2)%nat.
Proof. unfold released. now rewrite filter_app, length_app. Qed.

Lemma released_flat_map {A} (h : nat) (f : A -> list effect) (l : list A) :
  (forall x, released h (f x) = O) -> released h (flat_map f l) = O.
Proof.
  intros Hf. induction l as [|x l IH]; [reflexivity|].
  simpl. now rewrite released_app, Hf, IH.
Qed.

Lemma released_download (h : nat) (u : option jsstring) (env : Download) :
  released h (downloadAudioFromUrl u env) = O.
Proof.
  unfold downloadAudioFromUrl. destruct (truthy_string u); [|reflexivity].
  rewrite !released_app, released_flat_map by reflexivity.
  unfold download_settle, download_decoded.
  destruct (response env) as [[data ct]|]; [|reflexivity].
  destruct (decoded env); reflexivity.
Qed.

Lemma released_recording (h : nat) (data : Blob) (env : Recording) :
  released h (onRecording data env) = O.
Proof.
  unfold onRecording, setAudioFromRecording.
  rewrite !released_app, released_flat_map by reflexivity.
  unfold reader_onloadend. destruct (rec_decoded env); reflexivity.
Qed.

Lemma released_file (h : nat) (files : option Blob) (env : FileRead) :
  released h (file_oninput files env) = O.
Proof.
  destruct files as [f|]; [|reflexivity]. simpl.
  destruct (file_result env), (file_decoded env); reflexivity.
Qed.

Lemma released_quiet_log (h : nat) (env : Corpus) :
  released h (handleClick env).1 = O.
Proof.
  unfold handleClick. destruct (fetch_text env transcriptionsFile) as [text|];
    [|reflexivity].
  assert (H : released h (load_lines env (manifest_lines text)).1 = O).
  { induction (manifest_lines text) as [|line rest IH]; [reflexivity|].
    simpl. destruct (load_lines env rest) as [log items]. simpl in IH.
    destruct (load_line env line); simpl; assumption. }
  destruct (load_lines env (manifest_lines text)) as [log items]. simpl in *.
  now rewrite released_app, H.
Qed.

Lemma released_iterations (h : nat)
    (start : nat -> AudioBuffer -> StartOutcome) (n : nat) (rest : list Item.t) :
  forall i, released h (iterations start n i rest) = O.
Proof.
  induction rest as [|a rest IH]; intros i; [reflexivity|].
  cbn [iterations]. rewrite released_app, IH.
  destruct (start i (Item.buffer a)) as [[d|]|]; reflexivity.
Qed.

Lemma released_testTile (h : nat) (env : Corpus)
    (start : nat -> AudioBuffer -> StartOutcome) :
  released h (testTile_click env start) = O.
Proof.
  unfold testTile_click. pose proof (released_quiet_log h env) as H.
  destruct (handleClick env) as [log [l|]]; simpl in H;
    rewrite released_app, H; [|reflexivity].
  unfold onFilesLoaded, audioDataList_effect. destruct l as [|a l]; [reflexivity|].
  unfold transcribeAllFiles. rewrite !released_app, released_iterations. reflexivity.
Qed.

Lemma released_perform (h : nat) (s : State) (a : action) :
  released h (perform s a) = O.
Proof.
  destruct a; simpl.
  - unfold urlTile_submit, audioDownloadUrl_effect. rewrite released_app.
    case_bool_decide; [reflexivity|]. now rewrite released_download.
  - apply released_file.
  - apply released_recording.
  - apply released_testTile.
Qed.

(** C9, as the code has it. Over any session, whatever the adapters used
    and whatever the browser answers, no playback handle is ever released:
    a handle is never released twice, and the handle of an audio that is
    replaced or reset stays registered. *)
Theorem playback_handle_never_released :
  forall (s : State) (l : list action) (h : nat), released h (session s l) = O.
Proof.
  intros s l h. revert s.
  induction l as [|a l IH]; intros s; [reflexivity|].
  cbn [session]. now rewrite released_app, released_perform, IH.
Qed.

Lemma replaced_handle_not_released :
  playback_handle
    (run initial
       (session initial [UrlSubmitted (lit "a") (sample_download 0%nat 0%nat)]))
  = Some 0%nat
  /\ playback_handle
       (run initial
          (session initial [UrlSubmitted (lit "a") (sample_download 0%nat 0%nat);
                            UrlSubmitted (lit "b") (sample_download 1%nat 1%nat)]))
     = Some 1%nat
  /\ released 0%nat
       (session initial [UrlSubmitted (lit "a") (sample_download 0%nat 0%nat);
                         UrlSubmitted (lit "b") (sample_download 1%nat 1%nat)])
     <> 1%nat.
Proof. repeat split. vm_compute. discriminate. Qed.

(** ** The test corpus *)

Lemma load_lines_omap (env : Corpus) (lines : list jsstring) :
  load_lines env lines = (omap (logged env) lines, omap (pushed env) lines).
Proof.
  induction lines as [|line rest IH]; [reflexivity|].
  simpl. rewrite IH. unfold logged, pushed.
  destruct (load_line env line); reflexivity.
Qed.

Example sample_corpus_loaded :
  handleClick sample_corpus
  = ([console_error (lit "/chat_new/test-clean/A02.flac"); console_log],
     Some [sample_item]).
Proof. vm_compute. reflexivity. Qed.

Lemma load_lines_app (env : Corpus) (l1 l2 : list jsstring) :
  load_lines env (l1 ++ l2)
  = ((load_lines env l1).1 ++ (load_lines env l2).1,
     (load_lines env l1).2 ++ (load_lines env l2).2).
Proof. rewrite !load_lines_omap, !omap_app. reflexivity. Qed.

Lemma load_lines_cons (env : Corpus) (line : jsstring) (rest : list jsstring) :
  load_lines env (line :: rest)
  = match load_line env line with
    | Skipped => load_lines env rest
    | Pushed item => ((load_lines env rest).1, item :: (load_lines env rest).2)
    | Failed audioFilePath =>
        (console_error audioFilePath :: (load_lines env rest).1,
         (load_lines env rest).2)
    end.
Proof.
  cbn [load_lines]. destruct (load_lines env rest) as [log items].
  destruct (load_line env line); reflexivity.
Qed.

(** C3, as the code has it. A line of the manifest with a space in it names
    an audio file. When the fetch of that file (or the reading of its
    bytes) rejects, or its bytes do not decode, the path is logged, no item
    is added for the line, and the lines before and after it contribute
    what they contribute without it. When the file is fetched and decoded
    its item is added, in the order of the manifest, and nothing is logged.
    A line without a space is passed over. When the manifest is fetched,
    [onFilesLoaded] is called with the list so built, whatever the text of
    the response is: the status of the response is not looked at, and when
    no audio that is served decodes the list is empty. When the fetch of
    the manifest (or the reading of its text) rejects, [onFilesLoaded] is
    not called at all: no list is produced and the component state,
    [audioDataList] included, is left as it was. *)
Theorem handleClick_partial_failure :
  forall (env : Corpus),
    (forall (before after : list jsstring) (line : jsstring)
            (firstSpaceIndex : nat),
        indexOf SPACE line = Some firstSpaceIndex ->
        let filename := substring 0 firstSpaceIndex line in
        let audioFilePath := audioFilesPath ++ filename ++ lit ".flac" in
        ((fetch_arrayBuffer env audioFilePath = None
          \/ (exists arrayBuffer contentType,
                fetch_arrayBuffer env audioFilePath
                = Some (arrayBuffer, contentType)
                /\ decodeAudioData env arrayBuffer = None)) ->
         load_lines env (before ++ line :: after)
         = ((load_lines env before).1
              ++ console_error audioFilePath :: (load_lines env after).1,
            (load_lines env before).2 ++ (load_lines env after).2))
        /\ (forall arrayBuffer contentType decoded,
              fetch_arrayBuffer env audioFilePath
              = Some (arrayBuffer, contentType) ->
              decodeAudioData env arrayBuffer = Some decoded ->
              load_lines env (before ++ line :: after)
              = ((load_lines env before).1 ++ (load_lines env after).1,
                 (load_lines env before).2
                   ++ {| Item.buffer := decoded;
                         Item.url := ResourceUrl audioFilePath;
                         Item.source := TEST;
                         Item.mimeType :=
                           string_or contentType (lit "audio/wav");
                         Item.filename := filename;
                         Item.transcription :=
                           trim (substring_from (firstSpaceIndex + 1) line) |}
                   :: (load_lines env after).2)))
    /\ (forall (before after : list jsstring) (line : jsstring),
          indexOf SPACE line = None ->
          load_lines env (before ++ line :: after)
          = ((load_lines env before).1 ++ (load_lines env after).1,
             (load_lines env before).2 ++ (load_lines env after).2))
    /\ match fetch_text env transcriptionsFile with
       | Some text =>
           handleClick env
           = ((load_lines env (manifest_lines text)).1 ++ [console_log],
              Some (load_lines env (manifest_lines text)).2)
           /\ ((forall path arrayBuffer contentType,
                  fetch_arrayBuffer env path = Some (arrayBuffer, contentType) ->
                  decodeAudioData env arrayBuffer = None) ->
               (handleClick env).2 = Some [])
       | None =>
           handleClick env = ([console_error transcriptionsFile], None)
           /\ forall s start, run s (testTile_click env start) = s
       end.
Proof.
  intros env. split; [|split].
  - intros before after line firstSpaceIndex Hi filename audioFilePath. split.
    + intros Hfail. rewrite load_lines_app, load_lines_cons.
      unfold load_line. rewrite Hi. fold filename. fold audioFilePath.
      destruct Hfail as [->|(arrayBuffer & contentType & -> & ->)]; reflexivity.
    + intros arrayBuffer contentType decoded Hf Hd.
      rewrite load_lines_app, load_lines_cons.
      unfold load_line. rewrite Hi. fold filename. fold audioFilePath.
      rewrite Hf, Hd. reflexivity.
  - intros before after line Hi. rewrite load_lines_app, load_lines_cons.
    unfold load_line. now rewrite Hi.
  - unfold testTile_click, handleClick.
    destruct (fetch_text env transcriptionsFile) as [text|].
    + destruct (load_lines env (manifest_lines text)) as [log items] eqn:E.
      split; [reflexivity|]. intros Hnone. simpl. f_equal.
      apply (f_equal snd) in E. simpl in E. subst items.
      induction (manifest_lines text) as [|line rest IH]; [reflexivity|].
      rewrite load_lines_cons. unfold load_line.
      destruct (indexOf SPACE line) as [i|]; [|exact IH].
      destruct (fetch_arrayBuffer env _) as [[arrayBuffer contentType]|] eqn:Ef;
        [|exact IH].
      rewrite (Hnone _ _ _ Ef). exact IH.
    + split; [reflexivity|]. intros s start. reflexivity.
Qed.

Lemma handleClick_partial_failure_witness :
  load_lines sample_corpus
    ([lit "A01 the quick fox"] ++ lit "A02 hello world" :: [lit "A01 again"])
  = ((load_lines sample_corpus [lit "A01 the quick fox"]).1
       ++ console_error (lit "/chat_new/test-clean/A02.flac")
       :: (load_lines sample_corpus [lit "A01 again"]).1,
     (load_lines sample_corpus [lit "A01 the quick fox"]).2
       ++ (load_lines sample_corpus [lit "A01 again"]).2).
Proof.
  exact (proj1 (proj1 (handleClick_partial_failure sample_corpus)
                  [lit "A01 the quick fox"] [lit "A01 again"]
                  (lit "A02 hello world") 3%nat eq_refl)
           (or_introl eq_refl)).
Defined.

(** A server that answers the manifest request with an error page: the
    page is read as the manifest, the audio its only line names does not
    decode, and [onFilesLoaded] is called with the empty list, which
    replaces the list of an earlier batch. *)
Example error_page_manifest :
  handleClick not_found_corpus
  = ([console_error (lit "/chat_new/test-clean/<html>404.flac"); console_log],
     Some [])
  /\ audioDataList
       (run (apply initial (setAudioDataList [sample_item]))
            (testTile_click not_found_corpus (fun _ _ => Rejected)))
     = [].
Proof. split; vm_compute; reflexivity. Qed.

Lemma manifest_failure_keeps_list :
  (handleClick unreachable_corpus).2 <> Some []
  /\ audioDataList
       (run (apply initial (setAudioDataList [sample_item]))
            (testTile_click unreachable_corpus (fun _ _ => Rejected)))
     <> [].
Proof. split; vm_compute; discriminate. Qed.

(** ** The report *)

Lemma split_nonempty (sep : N) (s : jsstring) : split sep s <> [].
Proof.
  destruct s as [|c r]; simpl; [discriminate|].
  destruct (c =? sep); [discriminate|]. destruct (split sep r); discriminate.
Qed.

Lemma split_no_sep (sep : N) (s : jsstring) : sep ∉ s -> split sep s = [s].
Proof.
  induction s as [|c r IH]; intros H; [reflexivity|]. simpl.
  apply not_elem_of_cons in H as [Hc Hr].
  destruct (N.eqb_spec c sep) as [E|_]; [congruence|]. now rewrite IH.
Qed.

Lemma split_app_sep (sep : N) (x r : jsstring) :
  sep ∉ x -> split sep (x ++ sep :: r) = x :: split sep r.
Proof.
  induction x as [|c x IH]; intros H; simpl.
  - now rewrite N.eqb_refl.
  - apply not_elem_of_cons in H as [Hc Hx].
    destruct (N.eqb_spec c sep) as [E|_]; [congruence|]. now rewrite IH.
Qed.

Lemma split_join (sep : N) (lines : list jsstring) :
  lines <> [] -> Forall (fun l => sep ∉ l) lines ->
  split sep (join sep lines) = lines.
Proof.
  induction lines as [|x rest IH]; intros Hne H; [congruence|].
  apply Forall_cons in H as [Hx Hrest].
  destruct rest as [|y rest]; simpl.
  - now apply split_no_sep.
  - rewrite split_app_sep by assumption. f_equal. now apply IH.
Qed.

Lemma join_cons (sep : N) (x : jsstring) (rest : list jsstring) :
  rest <> [] -> join sep (x :: rest) = x ++ sep :: join sep rest.
Proof. destruct rest; [congruence|reflexivity]. Qed.

Lemma join_app (sep : N) (a b : list jsstring) :
  a <> [] -> b <> [] -> join sep (a ++ b) = join sep a ++ sep :: join sep b.
Proof.
  intros Ha Hb. induction a as [|x a IH]; [congruence|].
  destruct a as [|y a].
  - change ([x] ++ b) with (x :: b). now rewrite join_cons.
  - change ((x :: y :: a) ++ b) with (x :: (y :: a) ++ b).
    rewrite join_cons by discriminate. rewrite IH by discriminate.
    rewrite (join_cons sep x (y :: a)) by discriminate.
    now rewrite <- app_assoc.
Qed.

Lemma join_groups (sep : N) (groups : list (list jsstring)) :
  Forall (fun g => g <> []) groups ->
  join sep (map (join sep) groups) = join sep (concat groups).
Proof.
  induction groups as [|g groups IH]; intros H; [reflexivity|].
  apply Forall_cons in H as [Hg Hgs].
  destruct groups as [|g' groups].
  - simpl. now rewrite app_nil_r.
  - change (map (join sep) (g :: g' :: groups))
      with (join sep g :: map (join sep) (g' :: groups)).
    rewrite join_cons by discriminate. rewrite IH by assumption.
    change (concat (g :: g' :: groups)) with (g ++ concat (g' :: groups)).
    rewrite join_app; [reflexivity|assumption|].
    apply Forall_cons in Hgs as [Hg' _]. simpl.
    destruct g'; [congruence|discriminate].
Qed.

Section ReportProperties.

Variable toLowerCase : jsstring -> jsstring.
Variable toString : number -> jsstring.

Local Abbreviation fields := (report_fields toLowerCase toString).
Local Abbreviation triple := (report_triple toLowerCase toString).
Local Abbreviation block := (report_block toLowerCase toString).

Lemma report_block_fields (data : Result.t) :
  block (Some data) = Some (join LF (fields data)).
Proof. reflexivity. Qed.

Lemma mapM_report_block (rs : list Result.t) :
  mapM block (Some <$> rs) = Some (map (fun r => join LF (fields r)) rs).
Proof.
  induction rs as [|r rs IH]; [reflexivity|].
  cbn [fmap list_fmap mapM]. rewrite IH. reflexivity.
Qed.

Lemma blocks_of_fields (rs : list Result.t) :
  blocks_of (concat (map fields rs)) = Some (map triple rs).
Proof.
  induction rs as [|r rs IH]; [reflexivity|].
  simpl. simpl in IH. rewrite IH. reflexivity.
Qed.

(** The report of a list of records: the lines of the records, three
    per record, joined by newlines. *)
Lemma concatenatedResults_records (rs : list Result.t) :
  concatenatedResults toLowerCase toString (Some <$> rs)
  = Some (join LF (concat (map fields rs))).
Proof.
  unfold concatenatedResults. rewrite mapM_report_block. simpl. f_equal.
  rewrite <- (map_map fields (join LF)). apply join_groups.
  apply Forall_forall. intros g Hg. apply list_elem_of_In, in_map_iff in Hg.
  destruct Hg as (r & <- & _). discriminate.
Qed.

(** An [undefined] entry makes the report throw. *)
Lemma concatenatedResults_undefined (before after : list (option Result.t)) :
  concatenatedResults toLowerCase toString (before ++ None :: after) = None.
Proof.
  unfold concatenatedResults.
  assert (H : mapM block (before ++ None :: after) = None).
  { induction before as [|x before IH]; [reflexivity|].
    simpl. destruct (block x); [|reflexivity]. simpl. now rewrite IH. }
  now rewrite H.
Qed.

Lemma parse_report_lines (lines : list jsstring) :
  Forall (fun l => LF ∉ l) lines ->
  (3 <= length lines)%nat ->
  parse_report (join LF lines) = blocks_of lines.
Proof.
  intros H Hlen. unfold parse_report.
  destruct lines as [|a [|b [|c rest]]]; simpl in Hlen; try lia.
  rewrite split_join by (assumption || discriminate).
  destruct (join LF (a :: b :: c :: rest)) eqn:E; [|reflexivity].
  simpl in E. destruct a; discriminate.
Qed.

End ReportProperties.

(** C5, as the code has it. For results that are all records, the report
    is the lines of the records joined by newlines, three lines per record:
    the latency, the lowercased trimmed ground truth, the lowercased trimmed
    transcription. When none of these lines contains a newline, splitting
    the report at the newlines and reading three lines per record gives
    back the three strings of every record. *)
Theorem report_roundtrip
    (toLowerCase : jsstring -> jsstring) (toString : number -> jsstring)
    (rs : list Result.t) :
  Forall (fun r => Forall (fun f => LF ∉ f)
                     (report_fields toLowerCase toString r)) rs ->
  exists text,
    concatenatedResults toLowerCase toString (Some <$> rs) = Some text
    /\ text = join LF (concat (map (report_fields toLowerCase toString) rs))
    /\ parse_report text = Some (map (report_triple toLowerCase toString) rs).
Proof.
  intros H. eexists. split; [apply concatenatedResults_records|].
  split; [reflexivity|].
  destruct rs as [|r rs]; [reflexivity|].
  rewrite parse_report_lines.
  - apply blocks_of_fields.
  - apply Forall_concat, Forall_fmap. exact H.
  - simpl. lia.
Qed.

Example sample_report :
  concatenatedResults ascii_toLowerCase integer_toString (Some <$> sample_results)
  = Some (lit "12" ++ LF :: lit "the quick fox" ++ LF :: lit "the quick fox"
          ++ LF :: lit "3" ++ LF :: lit "hello world" ++ [LF]).
Proof. vm_compute. reflexivity. Qed.

Lemma report_roundtrip_witness :
  exists text,
    concatenatedResults ascii_toLowerCase integer_toString (Some <$> sample_results)
    = Some text
    /\ text = join LF (concat (map (report_fields ascii_toLowerCase integer_toString)
                                   sample_results))
    /\ parse_report text
       = Some (map (report_triple ascii_toLowerCase integer_toString) sample_results).
Proof.
  apply (report_roundtrip ascii_toLowerCase integer_toString sample_results).
  repeat constructor; vm_compute; intros H;
    repeat (apply elem_of_cons in H as [H|H]; [discriminate H|]);
    apply elem_of_nil in H; exact H.
Defined.

Lemma multiline_transcription_not_recovered :
  (text ← concatenatedResults ascii_toLowerCase integer_toString
            [Some multiline_result];
   parse_report text)
  = Some [(lit "1", lit "a", lit "b"); (lit "2", lit "c", lit "d")]
  /\ (text ← concatenatedResults ascii_toLowerCase integer_toString
               [Some multiline_result];
      parse_report text)
     <> Some [report_triple ascii_toLowerCase integer_toString multiline_result].
Proof. split; vm_compute; [reflexivity|discriminate]. Qed.

(** Two different lists of results have the same report: no reader can
    tell them apart. *)
Lemma report_not_injective :
  concatenatedResults ascii_toLowerCase integer_toString [Some multiline_result]
  = concatenatedResults ascii_toLowerCase integer_toString (Some <$> two_results)
  /\ map (report_triple ascii_toLowerCase integer_toString) [multiline_result]
     <> map (report_triple ascii_toLowerCase integer_toString) two_results.
Proof. split; vm_compute; [reflexivity|discriminate]. Qed.

(** ** URL loads that overlap *)

Section UrlLoaderProperties.

Import UrlLoader.

Lemma lookup_abort_request_ne (rs : gmap nat status) (c id : nat) :
  id <> c -> abort_request rs c !! id = rs !! id.
Proof.
  intros H. unfold abort_request.
  destruct (rs !! c) as [[]|]; try reflexivity.
  now rewrite lookup_insert_ne.
Qed.

Lemma lookup_abort_request_eq (rs : gmap nat status) (c : nat) :
  abort_request rs c !! c
  = match rs !! c with Some InFlight => Some Aborted | st => st end.
Proof.
  unfold abort_request.
  destruct (rs !! c) as [[]|] eqn:E; rewrite ?E; try reflexivity.
  now rewrite lookup_insert_eq.
Qed.

Lemma abort_request_is_Some (rs : gmap nat status) (c id : nat) (st : status) :
  abort_request rs c !! id = Some st -> exists st', rs !! id = Some st'.
Proof.
  destruct (decide (id = c)) as [->|Hne].
  - rewrite lookup_abort_request_eq. destruct (rs !! c) as [st'|]; eauto.
  - rewrite lookup_abort_request_ne by assumption. eauto.
Qed.

(** After the cleanup nothing is in flight. *)
Lemma cleanup_aborts (m : machine) (id : nat) :
  wf m ->
  match cleanup m with
  | Some c => abort_request (requests m) c
  | None => requests m
  end !! id <> Some InFlight.
Proof.
  intros [_ Hfl] H. destruct (cleanup m) as [c|] eqn:Ec.
  - destruct (decide (id = c)) as [->|Hne].
    + rewrite lookup_abort_request_eq in H.
      destruct (requests m !! c) as [[]|]; discriminate.
    + rewrite lookup_abort_request_ne in H by assumption.
      apply Hfl in H. congruence.
  - apply Hfl in H. congruence.
Qed.

Lemma wf_with_component (m : machine) (c : State) :
  wf m -> wf (with_component m c).
Proof. intros H. exact H. Qed.

Lemma wf_rerun_effect (m : machine) (next : option jsstring) :
  wf m -> wf (rerun_effect m next).
Proof.
  intros Hwf. pose proof (cleanup_aborts m) as Hno. destruct Hwf as [Hlt Hfl].
  assert (Hdom : forall id st,
             match cleanup m with
             | Some c => abort_request (requests m) c
             | None => requests m
             end !! id = Some st -> (id < fresh m)%nat).
  { intros id st H. destruct (cleanup m) as [c|].
    - apply abort_request_is_Some in H as [st' H]. eauto.
    - eauto. }
  unfold rerun_effect. destruct (truthy_string next); split; simpl.
  - intros id st H. destruct (decide (id = fresh m)) as [->|Hne]; [lia|].
    rewrite lookup_insert_ne in H by congruence. apply Hdom in H. lia.
  - intros id H. destruct (decide (id = fresh m)) as [->|Hne]; [reflexivity|].
    rewrite lookup_insert_ne in H by congruence.
    exfalso. now apply (Hno id (conj Hlt Hfl)).
  - exact Hdom.
  - intros id H. exfalso. now apply (Hno id (conj Hlt Hfl)).
Qed.

Lemma wf_set_url (m : machine) (t : list effect) (next : option jsstring) :
  wf m -> wf (set_url m t next).
Proof.
  intros H. unfold set_url. case_bool_decide.
  - now apply wf_with_component.
  - now apply wf_rerun_effect, wf_with_component.
Qed.

(** A request that leaves the state [InFlight] keeps the invariant. *)
Lemma wf_with_status (m : machine) (id : nat) (st : status) :
  wf m -> st <> InFlight -> is_Some (requests m !! id) ->
  wf (with_status m id st).
Proof.
  intros [Hlt Hfl] Hst [st0 Hid]. split; simpl.
  - intros id' st' H. destruct (decide (id' = id)) as [->|Hne]; [eauto|].
    rewrite lookup_insert_ne in H by congruence. eauto.
  - intros id' H. destruct (decide (id' = id)) as [->|Hne].
    + rewrite lookup_insert_eq in H. congruence.
    + rewrite lookup_insert_ne in H by congruence. eauto.
Qed.

Lemma wf_step (m m' : machine) (ev : event) :
  wf m -> step m ev = Some m' -> wf m'.
Proof.
  intros Hwf H.
  destruct ev as [e| |id p|id data ct blob|id|id d|a]; simpl in H.
  - injection H as <-. now apply wf_set_url.
  - injection H as <-. now apply wf_set_url.
  - destruct (requests m !! id) as [[]|]; try discriminate.
    injection H as <-. exact Hwf.
  - destruct (requests m !! id) as [[]|] eqn:E; try discriminate.
    injection H as <-. apply wf_with_status; [exact Hwf|discriminate|].
    simpl. eauto.
  - destruct (requests m !! id) as [[]|] eqn:E; try discriminate;
      injection H as <-; (apply wf_with_status; [exact Hwf|discriminate|]);
      simpl; eauto.
  - destruct (requests m !! id) as [[]|] eqn:E; try discriminate.
    injection H as <-. apply wf_with_status; [exact Hwf| |simpl; eauto].
    destruct d; discriminate.
  - injection H as <-. exact Hwf.
Qed.

Lemma wf_init : wf init.
Proof. split; intros id; simpl; intros; simplify_map_eq. Qed.

Lemma wf_exec (evs : list event) :
  forall m m', wf m -> exec m evs = Some m' -> wf m'.
Proof.
  induction evs as [|ev evs IH]; intros m m' Hwf H; simpl in H.
  - now injection H as <-.
  - destruct (step m ev) as [m1|] eqn:E; [|discriminate].
    simpl in H. eapply IH; [|exact H]. eapply wf_step; eauto.
Qed.

(** A cancelled request stays cancelled under the cleanup and under the
    start of a new request. *)
Lemma cancelled_set_url (m : machine) (t : list effect)
    (next : option jsstring) (id : nat) :
  wf m -> cancelled m id -> cancelled (set_url m t next) id.
Proof.
  intros [Hlt _] Hc.
  assert (Hid : (id < fresh m)%nat) by (destruct Hc as [H|H]; eauto).
  assert (Hab : forall st, (st = Aborted \/ st = Failed) ->
            requests m !! id = Some st ->
            match cleanup m with
            | Some c => abort_request (requests m) c
            | None => requests m
            end !! id = Some st).
  { intros st Hst Hl. destruct (cleanup m) as [c|]; [|exact Hl].
    destruct (decide (id = c)) as [->|Hne].
    - rewrite lookup_abort_request_eq, Hl. destruct Hst as [-> | ->]; reflexivity.
    - now rewrite lookup_abort_request_ne. }
  unfold set_url. case_bool_decide as Hsame; [exact Hc|].
  unfold rerun_effect, cancelled. simpl.
  destruct (truthy_string next); simpl.
  - rewrite lookup_insert_ne by lia. destruct Hc as [Hl|Hl]; [left|right]; auto.
  - destruct Hc as [Hl|Hl]; [left|right]; auto.
Qed.

Lemma cancelled_step (m m' : machine) (ev : event) (id : nat) :
  wf m -> cancelled m id -> step m ev = Some m' ->
  cancelled m' id /\ not_result_of id ev.
Proof.
  intros Hwf Hc H.
  destruct ev as [e| |id0 p|id0 data ct blob|id0|id0 d|a]; simpl in H.
  - injection H as <-. split; [now apply cancelled_set_url|exact I].
  - injection H as <-. split; [now apply cancelled_set_url|exact I].
  - destruct (requests m !! id0) as [[]|]; try discriminate.
    injection H as <-. split; [exact Hc|exact I].
  - destruct (requests m !! id0) as [[]|] eqn:E; try discriminate.
    injection H as <-.
    assert (id0 <> id) by (intros ->; destruct Hc; congruence).
    split; [|assumption]. unfold cancelled. simpl.
    now rewrite lookup_insert_ne.
  - destruct (decide (id0 = id)) as [->|Hne].
    + destruct (requests m !! id) as [[]|] eqn:E; try discriminate;
        injection H as <-; (split; [|exact I]); right; simpl;
        apply lookup_insert_eq.
    + destruct (requests m !! id0) as [[]|] eqn:E; try discriminate;
        injection H as <-; (split; [|exact I]); unfold cancelled; simpl;
        now rewrite lookup_insert_ne.
  - destruct (requests m !! id0) as [[]|] eqn:E; try discriminate.
    injection H as <-.
    assert (id0 <> id) by (intros ->; destruct Hc; congruence).
    split; [|assumption]. unfold cancelled. simpl.
    now rewrite lookup_insert_ne.
  - injection H as <-. split; [exact Hc|exact I].
Qed.

Lemma cancelled_exec (evs : list event) (id : nat) :
  forall m m', wf m -> cancelled m id -> exec m evs = Some m' ->
    cancelled m' id /\ Forall (not_result_of id) evs.
Proof.
  induction evs as [|ev evs IH]; intros m m' Hwf Hc H; simpl in H.
  - injection H as <-. split; [exact Hc|constructor].
  - destruct (step m ev) as [m1|] eqn:E; [|discriminate]. simpl in H.
    destruct (cancelled_step _ _ _ _ Hwf Hc E) as [Hc1 Hev].
    destruct (IH m1 m' (wf_step _ _ _ Hwf E) Hc1 H) as [Hc' Hevs].
    split; [exact Hc'|]. now constructor.
Qed.

(** A submission with another URL aborts the request in flight. *)
Lemma submit_aborts (m : machine) (id : nat) (e : jsstring) :
  wf m -> requests m !! id = Some InFlight ->
  audioDownloadUrl (component m) <> Some e ->
  requests (set_url m [onInputChange] (Some e)) !! id = Some Aborted.
Proof.
  intros [Hlt Hfl] Hid Hne. unfold set_url.
  rewrite bool_decide_eq_false_2 by assumption.
  unfold rerun_effect. simpl. rewrite (Hfl id Hid).
  assert (Hab : abort_request (requests m) id !! id = Some Aborted)
    by now rewrite lookup_abort_request_eq, Hid.
  destruct e as [|c e]; simpl; [exact Hab|].
  rewrite lookup_insert_ne; [exact Hab|]. apply Hlt in Hid. lia.
Qed.

End UrlLoaderProperties.

(** C6, as the code has it. In any state the component can reach, when a
    request is in flight and a URL different from the current one is
    submitted, the submission aborts the request; whatever happens
    afterwards, the request stays aborted or failed, so it is never the one
    being decoded or installed, and no later event delivers its response
    or installs its result. *)
Theorem stale_url_load_discarded
    (t1 t2 : list UrlLoader.event) (m1 m2 : UrlLoader.machine)
    (id : nat) (e : jsstring) :
  UrlLoader.exec UrlLoader.init t1 = Some m1 ->
  UrlLoader.requests m1 !! id = Some UrlLoader.InFlight ->
  audioDownloadUrl (UrlLoader.component m1) <> Some e ->
  UrlLoader.exec m1 (UrlLoader.UrlSubmit e :: t2) = Some m2 ->
  UrlLoader.requests (UrlLoader.set_url m1 [onInputChange] (Some e)) !! id
  = Some UrlLoader.Aborted
  /\ UrlLoader.cancelled m2 id
  /\ UrlLoader.requests m2 !! id <> Some UrlLoader.Installed
  /\ Forall (UrlLoader.not_result_of id) t2.
Proof.
  intros H1 Hid Hne H2.
  pose proof (wf_exec _ _ _ wf_init H1) as Hwf.
  pose proof (submit_aborts _ _ _ Hwf Hid Hne) as Hab.
  simpl in H2.
  destruct (cancelled_exec t2 id _ m2
              (wf_set_url _ [onInputChange] (Some e) Hwf) (or_introl Hab) H2)
    as [Hc Hev].
  repeat split; try assumption.
  destruct Hc as [Hc|Hc]; rewrite Hc; discriminate.
Qed.

Lemma stale_url_load_discarded_witness :
  UrlLoader.requests
    (UrlLoader.set_url (UrlLoader.after UrlLoader.first_submission)
       [onInputChange] (Some (lit "https://b/y.wav"))) !! 0%nat
  = Some UrlLoader.Aborted
  /\ UrlLoader.cancelled
       (UrlLoader.after
          (UrlLoader.first_submission
           ++ UrlLoader.UrlSubmit (lit "https://b/y.wav")
              :: UrlLoader.after_second_submission)) 0
  /\ UrlLoader.requests
       (UrlLoader.after
          (UrlLoader.first_submission
           ++ UrlLoader.UrlSubmit (lit "https://b/y.wav")
              :: UrlLoader.after_second_submission)) !! 0%nat
     <> Some UrlLoader.Installed
  /\ Forall (UrlLoader.not_result_of 0) UrlLoader.after_second_submission.
Proof.
  apply (stale_url_load_discarded UrlLoader.first_submission
           UrlLoader.after_second_submission
           (UrlLoader.after UrlLoader.first_submission) _ 0%nat
           (lit "https://b/y.wav")).
  - vm_compute. reflexivity.
  - vm_compute. reflexivity.
  - vm_compute. discriminate.
  - vm_compute. reflexivity.
Defined.

Example second_load_installed :
  audioData
    (UrlLoader.component
       (UrlLoader.after
          (UrlLoader.first_submission
           ++ UrlLoader.UrlSubmit (lit "https://b/y.wav")
              :: UrlLoader.after_second_submission)))
  = Some {| buffer := 3%nat; url := BlobUrl 7; source := URL;
            mimeType := lit "audio/wav" |}.
Proof. vm_compute. reflexivity. Qed.

Lemma same_url_resubmission_keeps_first_load :
  UrlLoader.requests (UrlLoader.after (take 1 UrlLoader.same_url_twice)) !! 0%nat
  = Some UrlLoader.InFlight
  /\ UrlLoader.requests (UrlLoader.after (take 2 UrlLoader.same_url_twice)) !! 0%nat
     = Some UrlLoader.InFlight
  /\ (m ← UrlLoader.exec UrlLoader.init UrlLoader.same_url_twice;
      UrlLoader.requests m !! 0%nat) = Some UrlLoader.Installed
  /\ (m ← UrlLoader.exec UrlLoader.init UrlLoader.same_url_twice;
      audioData (UrlLoader.component m))
     = Some {| buffer := 3%nat; url := BlobUrl 7; source := URL;
               mimeType := lit "audio/wav" |}.
Proof. repeat split; vm_compute; reflexivity. Qed.

(** The premise that the transfer is still in flight matters: once the
    response has arrived nothing cancels the pending decode, and its result
    is installed when it resolves, here over the audio of the later URL. *)
Example decode_of_earlier_load_installed :
  (m ← UrlLoader.exec UrlLoader.init UrlLoader.submission_during_decode;
   Some (audioDownloadUrl (UrlLoader.component m),
         audioData (UrlLoader.component m)))
  = Some (Some (lit "https://b/y.mp3"),
          Some {| buffer := 3%nat; url := BlobUrl 7; source := URL;
                  mimeType := lit "audio/wav" |}).
Proof. vm_compute. reflexivity. Qed.

(** ** The single-flight gate of the orchestrator *)

Section OrchestratorProperties.

Import Orchestrator.

Lemma consistent_init : consistent init.
Proof. repeat split; simpl; try lia; intros [H|H]; discriminate. Qed.

Lemma consistent_step (o : t) (i : input) : consistent o -> consistent (step o i).
Proof.
  intros (Hlen & Hbusy & Hstale). destruct i as [c| |c ok|]; simpl.
  - (* start *)
    destruct (running o) as [|c0 r] eqn:Er; unfold consistent; simpl.
    + split; [lia|]. split; [intros _|]; discriminate.
    + split; [exact Hlen|]. split; [intros _; discriminate|exact Hstale].
  - (* artifacts_ready *)
    unfold consistent; simpl. split; [exact Hlen|]. split.
    + intros H. apply Hbusy.
      destruct (state o); destruct H as [H|H]; try discriminate H; auto.
    + intros Hs. now rewrite (Hstale Hs).
  - (* engine_done *)
    case_bool_decide as Hin; [|unfold consistent; auto].
    destruct (running o) as [|c0 [|c1 r]] eqn:Er; simpl in Hlen; try lia.
    + apply elem_of_nil in Hin. destruct Hin.
    + apply list_elem_of_singleton in Hin as ->.
      unfold consistent; simpl.
      rewrite filter_cons_False by auto. simpl. split; [lia|].
      split; [|discriminate].
      destruct (stale o) eqn:Es.
      * rewrite (Hstale eq_refl). intros [H|H]; discriminate.
      * destruct ok; intros [H|H]; discriminate.
  - (* input_changed *)
    unfold consistent; simpl. split; [exact Hlen|].
    split; [intros [H|H]; discriminate|reflexivity].
Qed.

Lemma consistent_exec (l : list input) :
  forall o, consistent o -> consistent (exec o l).
Proof.
  induction l as [|i l IH]; intros o H; [exact H|].
  simpl. apply IH. now apply consistent_step.
Qed.

End OrchestratorProperties.

(** C7, on the orchestrator as the specification describes it. After any
    sequence of calls of [start], completions of the engine and input
    changes, at most one accepted call has not finished; the engine is
    occupied whenever the state is [ModelLoading] or [Busy]; and a call of
    [start] is accepted only when every call accepted before it has
    finished, and is rejected, leaving the running call alone, otherwise. *)
Theorem orchestrator_single_flight :
  forall (l : list Orchestrator.input) (c : nat),
    (length (Orchestrator.running (Orchestrator.exec Orchestrator.init l)) <= 1)%nat
    /\ (Orchestrator.state (Orchestrator.exec Orchestrator.init l) = Orchestrator.Busy
        \/ Orchestrator.state (Orchestrator.exec Orchestrator.init l)
           = Orchestrator.ModelLoading ->
        Orchestrator.isBusy (Orchestrator.exec Orchestrator.init l) = true)
    /\ match Orchestrator.running (Orchestrator.exec Orchestrator.init l) with
       | [] =>
           Orchestrator.running
             (Orchestrator.exec Orchestrator.init (l ++ [Orchestrator.start c]))
           = [c]
           /\ head (Orchestrator.replies
                      (Orchestrator.exec Orchestrator.init
                         (l ++ [Orchestrator.start c])))
              = Some (c, Orchestrator.accepted)
       | c0 :: r =>
           Orchestrator.running
             (Orchestrator.exec Orchestrator.init (l ++ [Orchestrator.start c]))
           = c0 :: r
           /\ head (Orchestrator.replies
                      (Orchestrator.exec Orchestrator.init
                         (l ++ [Orchestrator.start c])))
              = Some (c, Orchestrator.rejected)
       end.
Proof.
  intros l c.
  destruct (consistent_exec l _ consistent_init) as (Hlen & Hbusy & _).
  split; [exact Hlen|]. split.
  - intros H. apply Hbusy in H. unfold Orchestrator.isBusy.
    destruct (Orchestrator.running _); [congruence|reflexivity].
  - unfold Orchestrator.exec. rewrite foldl_app. simpl.
    fold (Orchestrator.exec Orchestrator.init l).
    destruct (Orchestrator.running (Orchestrator.exec Orchestrator.init l));
      split; reflexivity.
Qed.

Example overlapping_calls_replies :
  Orchestrator.replies
    (Orchestrator.exec Orchestrator.init Orchestrator.overlapping_calls)
  = [(3%nat, Orchestrator.accepted); (2%nat, Orchestrator.rejected);
     (1%nat, Orchestrator.rejected); (0%nat, Orchestrator.accepted)].
Proof. reflexivity. Qed.

(** * Further properties of the adapters *)

(** ** Outcome of a download *)

Lemma progress_run_download_progress (ps : list (option number)) :
  forall s,
    audioDownloadUrl (run s (flat_map onDownloadProgress ps)) = audioDownloadUrl s
    /\ audioDataList (run s (flat_map onDownloadProgress ps)) = audioDataList s.
Proof.
  induction ps as [|p ps IH]; intros s; [split; reflexivity|].
  change (flat_map onDownloadProgress (p :: ps))
    with (onDownloadProgress p ++ flat_map onDownloadProgress ps).
  rewrite run_app. destruct (IH (run s (onDownloadProgress p))) as [-> ->].
  split; reflexivity.
Qed.

Lemma downloadAudioFromUrl_final
    (s : State) (u : jsstring) (env : Download) :
  u <> [] ->
  progress (run s (downloadAudioFromUrl (Some u) env)) = None
  /\ audioData (run s (downloadAudioFromUrl (Some u) env))
     = match response env, decoded env with
       | Some (_, contentType), Some d =>
           Some {| buffer := d; url := BlobUrl (blobUrl env); source := URL;
                   mimeType := declared_mimeType contentType |}
       | _, _ => None
       end
  /\ audioDownloadUrl (run s (downloadAudioFromUrl (Some u) env)) = audioDownloadUrl s
  /\ audioDataList (run s (downloadAudioFromUrl (Some u) env)) = audioDataList s.
Proof.
  intros Hu. destruct u as [|c u]; [congruence|].
  unfold downloadAudioFromUrl. cbn [truthy_string]. rewrite !run_app.
  set (s1 := run (run s download_begin) (flat_map onDownloadProgress (progressEvents env))).
  assert (Ha : audioData s1 = None)
    by (unfold s1; now rewrite audioData_run_progress).
  destruct (progress_run_download_progress (progressEvents env) (run s download_begin))
    as [Hu1 Hl1].
  fold s1 in Hu1, Hl1. simpl in Hu1, Hl1.
  unfold download_settle, download_decoded, setAudioFromDownload_resume.
  destruct (response env) as [[data ct]|]; [destruct (decoded env) as [d|]|];
    simpl; rewrite ?Ha, ?Hu1, ?Hl1; repeat split; reflexivity.
Qed.

(** X1. A download from a non-empty URL always ends with no load in
    progress; the audio it leaves is the downloaded one when both the
    request and the decode succeed, and none at all otherwise, whatever
    audio was loaded before. The URL and the batch list are not touched. *)
Theorem downloadAudioFromUrl_outcome
    (s : State) (u : jsstring) (env : Download) :
  u <> [] ->
  progress (run s (downloadAudioFromUrl (Some u) env)) = None
  /\ audioData (run s (downloadAudioFromUrl (Some u) env))
     = match response env, decoded env with
       | Some (_, contentType), Some d =>
           Some {| buffer := d; url := BlobUrl (blobUrl env); source := URL;
                   mimeType := declared_mimeType contentType |}
       | _, _ => None
       end
  /\ audioDownloadUrl (run s (downloadAudioFromUrl (Some u) env)) = audioDownloadUrl s
  /\ audioDataList (run s (downloadAudioFromUrl (Some u) env)) = audioDataList s.
Proof. apply downloadAudioFromUrl_final. Qed.

Lemma downloadAudioFromUrl_outcome_witness :
  progress (run initial (downloadAudioFromUrl (Some (lit "u"))
                           (sample_download 2%nat 5%nat))) = None
  /\ audioData (run initial (downloadAudioFromUrl (Some (lit "u"))
                               (sample_download 2%nat 5%nat)))
     = Some {| buffer := 5%nat; url := BlobUrl 2; source := URL;
               mimeType := lit "audio/mpeg" |}
  /\ audioDownloadUrl (run initial (downloadAudioFromUrl (Some (lit "u"))
                                      (sample_download 2%nat 5%nat))) = None
  /\ audioDataList (run initial (downloadAudioFromUrl (Some (lit "u"))
                                   (sample_download 2%nat 5%nat))) = [].
Proof.
  exact (downloadAudioFromUrl_outcome initial (lit "u")
           (sample_download 2%nat 5%nat) ltac:(discriminate)).
Defined.

(** X2. Submitting the URL that is already recorded changes nothing in the
    component state: no download starts, so an audio loaded since from a
    file stays the current one. *)
Theorem urlTile_submit_same_url (s : State) (u : jsstring) (env : Download) :
  audioDownloadUrl s = Some u ->
  urlTile_submit (audioDownloadUrl s) u env
  = [onInputChange; setAudioDownloadUrl (Some u)]
  /\ run s (urlTile_submit (audioDownloadUrl s) u env) = s.
Proof.
  intros H. unfold urlTile_submit, audioDownloadUrl_effect, onUrlUpdate.
  rewrite bool_decide_eq_true_2 by assumption. rewrite app_nil_r.
  split; [reflexivity|]. destruct s; simpl in *. now subst.
Qed.

Lemma urlTile_submit_same_url_witness :
  urlTile_submit
    (audioDownloadUrl (apply initial (setAudioDownloadUrl (Some (lit "u")))))
    (lit "u") (sample_download 2%nat 5%nat)
  = [onInputChange; setAudioDownloadUrl (Some (lit "u"))]
  /\ run (apply initial (setAudioDownloadUrl (Some (lit "u"))))
       (urlTile_submit
          (audioDownloadUrl (apply initial (setAudioDownloadUrl (Some (lit "u")))))
          (lit "u") (sample_download 2%nat 5%nat))
     = apply initial (setAudioDownloadUrl (Some (lit "u"))).
Proof.
  exact (urlTile_submit_same_url
           (apply initial (setAudioDownloadUrl (Some (lit "u"))))
           (lit "u") (sample_download 2%nat 5%nat) eq_refl).
Defined.

(** ** Outcome of a recording *)

Lemma run_reader_onprogress (evs : list (N * N)) :
  forall s,
    is_Some (progress s) ->
    is_Some (progress (run s (flat_map reader_onprogress evs)))
    /\ audioData (run s (flat_map reader_onprogress evs)) = audioData s
    /\ audioDownloadUrl (run s (flat_map reader_onprogress evs)) = audioDownloadUrl s.
Proof.
  induction evs as [|ev evs IH]; intros s Hs; [repeat split; assumption|].
  change (flat_map reader_onprogress (ev :: evs))
    with (reader_onprogress ev ++ flat_map reader_onprogress evs).
  rewrite run_app.
  destruct (IH (run s (reader_onprogress ev))) as (Hp & -> & ->);
    [simpl; eauto|].
  repeat split. exact Hp.
Qed.

Lemma onRecording_final (s : State) (data : Blob) (env : Recording) :
  audioDownloadUrl (run s (onRecording data env)) = None
  /\ match rec_decoded env with
     | Some d =>
         progress (run s (onRecording data env)) = None
         /\ audioData (run s (onRecording data env))
            = Some {| buffer := d; url := BlobUrl (rec_blobUrl env);
                      source := RECORDING; mimeType := blob_type data |}
     | None =>
         isAudioLoading (run s (onRecording data env)) = true
         /\ audioData (run s (onRecording data env)) = None
     end.
Proof.
  unfold onRecording, setAudioFromRecording. rewrite !run_app.
  set (s0 := run (run (run s [onInputChange]) resetAudio)
               [setProgress (Some (Finite 0)); createObjectURL (rec_blobUrl env)]).
  destruct (run_reader_onprogress (rec_progress env) s0) as (Hp & Ha & Hu);
    [simpl; eauto|].
  unfold reader_onloadend. destruct (rec_decoded env) as [d|]; simpl.
  - rewrite Hu. repeat split.
  - rewrite Ha, Hu. unfold isAudioLoading. destruct Hp as [p ->]. repeat split.
Qed.

(** X3. Loading a recording always forgets the download URL. When the
    decode succeeds the recording becomes the current audio, with the type
    of the blob, and no load is in progress; when the decode fails no audio
    is left and the load stays in progress for good. *)
Theorem onRecording_outcome (s : State) (data : Blob) (env : Recording) :
  audioDownloadUrl (run s (onRecording data env)) = None
  /\ match rec_decoded env with
     | Some d =>
         progress (run s (onRecording data env)) = None
         /\ audioData (run s (onRecording data env))
            = Some {| buffer := d; url := BlobUrl (rec_blobUrl env);
                      source := RECORDING; mimeType := blob_type data |}
     | None =>
         isAudioLoading (run s (onRecording data env)) = true
         /\ audioData (run s (onRecording data env)) = None
     end.
Proof. apply onRecording_final. Qed.

(** ** More on URL loads that overlap *)

Section UrlLoaderInvariants.

Import UrlLoader.

Lemma audioDownloadUrl_set_url (m : machine) (t : list effect)
    (next : option jsstring) :
  audioDownloadUrl (component (set_url m t next)) = next.
Proof.
  unfold set_url, rerun_effect. rewrite run_app.
  case_bool_decide; [reflexivity|]. destruct (truthy_string next); reflexivity.
Qed.

Lemma in_flight_set_url (m : machine) (t : list effect) (next : option jsstring) :
  wf m ->
  (forall id, requests m !! id = Some InFlight ->
              truthy_string (audioDownloadUrl (component m)) = true) ->
  forall id, requests (set_url m t next) !! id = Some InFlight ->
             truthy_string next = true.
Proof.
  intros Hwf Hurl id. unfold set_url. case_bool_decide as Hsame.
  - simpl. intros H. rewrite <- Hsame. eauto.
  - unfold rerun_effect. simpl.
    destruct (truthy_string next); [reflexivity|]. simpl.
    intros H. exfalso. exact (cleanup_aborts m id Hwf H).
Qed.

Lemma in_flight_with_status (m : machine) (id0 id : nat) (st : status) :
  st <> InFlight ->
  requests (with_status m id0 st) !! id = Some InFlight ->
  requests m !! id = Some InFlight.
Proof.
  intros Hst. simpl. destruct (decide (id = id0)) as [->|Hne].
  - rewrite lookup_insert_eq. congruence.
  - now rewrite lookup_insert_ne by congruence.
Qed.

Lemma in_flight_url_step (m m' : machine) (ev : event) :
  wf m ->
  (forall id, requests m !! id = Some InFlight ->
              truthy_string (audioDownloadUrl (component m)) = true) ->
  step m ev = Some m' ->
  forall id, requests m' !! id = Some InFlight ->
             truthy_string (audioDownloadUrl (component m')) = true.
Proof.
  intros Hwf Hurl H.
  destruct ev as [e| |id0 p|id0 data ct blob|id0|id0 d|a]; simpl in H.
  - injection H as <-. intros id Hid. rewrite audioDownloadUrl_set_url.
    eapply in_flight_set_url; eauto.
  - injection H as <-. intros id Hid. rewrite audioDownloadUrl_set_url.
    eapply in_flight_set_url; eauto.
  - destruct (requests m !! id0) as [[]|]; try discriminate.
    injection H as <-. exact Hurl.
  - destruct (requests m !! id0) as [[]|]; try discriminate.
    injection H as <-. intros id Hid.
    apply in_flight_with_status in Hid; [|discriminate]. exact (Hurl id Hid).
  - destruct (requests m !! id0) as [[]|]; try discriminate;
      injection H as <-; intros id Hid;
      (apply in_flight_with_status in Hid; [|discriminate]); exact (Hurl id Hid).
  - destruct (requests m !! id0) as [[]|]; try discriminate.
    injection H as <-. intros id Hid.
    apply in_flight_with_status in Hid; [|destruct d; discriminate].
    destruct d; exact (Hurl id Hid).
  - injection H as <-. exact Hurl.
Qed.

Lemma in_flight_url_exec (evs : list event) :
  forall m m',
    wf m ->
    (forall id, requests m !! id = Some InFlight ->
                truthy_string (audioDownloadUrl (component m)) = true) ->
    exec m evs = Some m' ->
    forall id, requests m' !! id = Some InFlight ->
               truthy_string (audioDownloadUrl (component m')) = true.
Proof.
  induction evs as [|ev evs IH]; intros m m' Hwf Hurl H; simpl in H.
  - now injection H as <-.
  - destruct (step m ev) as [m1|] eqn:E; [|discriminate]. simpl in H.
    eapply (IH m1); [eapply wf_step; eauto| |exact H].
    eapply in_flight_url_step; eauto.
Qed.

Lemma in_flight_url_init :
  forall id, requests init !! id = Some InFlight ->
             truthy_string (audioDownloadUrl (component init)) = true.
Proof. intros id H. simpl in H. simplify_map_eq. Qed.

End UrlLoaderInvariants.

(** X4. In every state the component can reach at most one request is in
    flight. *)
Theorem one_request_in_flight
    (evs : list UrlLoader.event) (m : UrlLoader.machine) (i j : nat) :
  UrlLoader.exec UrlLoader.init evs = Some m ->
  UrlLoader.requests m !! i = Some UrlLoader.InFlight ->
  UrlLoader.requests m !! j = Some UrlLoader.InFlight ->
  i = j.
Proof.
  intros H Hi Hj. destruct (wf_exec _ _ _ wf_init H) as [_ Hfl].
  apply Hfl in Hi, Hj. congruence.
Qed.

Lemma one_request_in_flight_witness : 1%nat = 1%nat.
Proof.
  exact (one_request_in_flight
           (UrlLoader.first_submission ++ [UrlLoader.UrlSubmit (lit "https://b/y.wav")])
           (UrlLoader.after
              (UrlLoader.first_submission
               ++ [UrlLoader.UrlSubmit (lit "https://b/y.wav")]))
           1%nat 1%nat
           ltac:(vm_compute; reflexivity) ltac:(vm_compute; reflexivity)
           ltac:(vm_compute; reflexivity)).
Defined.

(** X5. Submitting the empty URL, or resetting the audio, cancels the
    request in flight and starts none: afterwards no request is in
    flight. *)
Theorem empty_url_or_reset_cancels
    (evs : list UrlLoader.event) (m m' : UrlLoader.machine)
    (ev : UrlLoader.event) (id : nat) :
  UrlLoader.exec UrlLoader.init evs = Some m ->
  ev = UrlLoader.UrlSubmit [] \/ ev = UrlLoader.ResetAudio ->
  UrlLoader.step m ev = Some m' ->
  UrlLoader.requests m' !! id <> Some UrlLoader.InFlight.
Proof.
  intros H Hev Hstep Hid.
  pose proof (wf_exec _ _ _ wf_init H) as Hwf.
  pose proof (in_flight_url_exec _ _ _ wf_init in_flight_url_init H) as Hurl.
  pose proof (in_flight_url_step _ _ _ Hwf Hurl Hstep id Hid) as Ht.
  destruct Hev as [-> | ->]; simpl in Hstep; injection Hstep as <-;
    rewrite audioDownloadUrl_set_url in Ht; discriminate.
Qed.

Lemma empty_url_or_reset_cancels_witness :
  UrlLoader.requests
    (UrlLoader.after (UrlLoader.first_submission ++ [UrlLoader.UrlSubmit []]))
    !! 0%nat
  <> Some UrlLoader.InFlight.
Proof.
  exact (empty_url_or_reset_cancels UrlLoader.first_submission
           (UrlLoader.after UrlLoader.first_submission)
           (UrlLoader.after (UrlLoader.first_submission ++ [UrlLoader.UrlSubmit []]))
           (UrlLoader.UrlSubmit []) 0%nat
           ltac:(vm_compute; reflexivity) (or_introl eq_refl)
           ltac:(vm_compute; reflexivity)).
Defined.

(** X6. When a request in flight is superseded by the submission of
    another, non-empty URL and its rejection is then handled, its [finally]
    clears the progress of the component although the new request is in
    flight: the load in progress is no longer shown. *)
Theorem superseded_request_clears_progress
    (evs : list UrlLoader.event) (m : UrlLoader.machine)
    (id : nat) (c : N) (e : jsstring) :
  UrlLoader.exec UrlLoader.init evs = Some m ->
  UrlLoader.requests m !! id = Some UrlLoader.InFlight ->
  audioDownloadUrl (UrlLoader.component m) <> Some (c :: e) ->
  exists m',
    UrlLoader.exec m [UrlLoader.UrlSubmit (c :: e); UrlLoader.RequestFailed id]
    = Some m'
    /\ UrlLoader.requests m' !! UrlLoader.fresh m = Some UrlLoader.InFlight
    /\ progress (UrlLoader.component m') = None
    /\ isAudioLoading (UrlLoader.component m') = false.
Proof.
  intros H Hid Hne.
  pose proof (wf_exec _ _ _ wf_init H) as Hwf.
  pose proof (submit_aborts _ _ _ Hwf Hid Hne) as Hab.
  assert (Hlt : (id < UrlLoader.fresh m)%nat) by (destruct Hwf as [Hlt _]; eauto).
  assert (Hnew : UrlLoader.requests
                   (UrlLoader.set_url m [onInputChange] (Some (c :: e)))
                   !! UrlLoader.fresh m = Some UrlLoader.InFlight).
  { unfold UrlLoader.set_url. rewrite bool_decide_eq_false_2 by assumption.
    unfold UrlLoader.rerun_effect. simpl. apply lookup_insert_eq. }
  cbn [UrlLoader.exec UrlLoader.step]. simpl mbind. rewrite Hab. simpl.
  eexists. split; [reflexivity|]. simpl. split; [|split; reflexivity].
  rewrite lookup_insert_ne by lia. exact Hnew.
Qed.

Lemma superseded_request_clears_progress_witness :
  exists m',
    UrlLoader.exec (UrlLoader.after UrlLoader.first_submission)
      [UrlLoader.UrlSubmit (lit "https://b/y.wav"); UrlLoader.RequestFailed 0]
    = Some m'
    /\ UrlLoader.requests m' !! UrlLoader.fresh (UrlLoader.after UrlLoader.first_submission)
       = Some UrlLoader.InFlight
    /\ progress (UrlLoader.component m') = None
    /\ isAudioLoading (UrlLoader.component m') = false.
Proof.
  exact (superseded_request_clears_progress UrlLoader.first_submission
           (UrlLoader.after UrlLoader.first_submission) 0%nat 104 (lit "ttps://b/y.wav")
           ltac:(vm_compute; reflexivity) ltac:(vm_compute; reflexivity)
           ltac:(vm_compute; discriminate)).
Defined.

(** ** Results of a batch *)

Lemma frame_iteration (s : State) (n i : nat) (a : Item.t) (o : StartOutcome) :
  audioData (run s (iteration n i a o)) = audioData s
  /\ progress (run s (iteration n i a o)) = progress s
  /\ audioDownloadUrl (run s (iteration n i a o)) = audioDownloadUrl s
  /\ audioDataList (run s (iteration n i a o)) = audioDataList s.
Proof. destruct o as [[d|]|]; repeat split. Qed.

Lemma frame_iterations
    (start : nat -> AudioBuffer -> StartOutcome) (n : nat) (rest : list Item.t) :
  forall i s,
    audioData (run s (iterations start n i rest)) = audioData s
    /\ progress (run s (iterations start n i rest)) = progress s
    /\ audioDownloadUrl (run s (iterations start n i rest)) = audioDownloadUrl s
    /\ audioDataList (run s (iterations start n i rest)) = audioDataList s.
Proof.
  induction rest as [|a rest IH]; intros i s; [repeat split|].
  cbn [iterations]. rewrite run_app.
  destruct (IH (S i) (run s (iteration n i a (start i (Item.buffer a)))))
    as (-> & -> & -> & ->).
  apply frame_iteration.
Qed.

(** X7. A batch replaces the earlier results by one entry per item, in the
    order of the items: the entry of item [i] is the record made of the file
    name and ground truth of the item and of the text and latency the call
    delivered, or [undefined] when the call delivered none. The current
    audio, the load progress, the download URL and the list of items are
    left as they were. *)
Theorem transcribeAllFiles_entries
    (s : State) (l : list Item.t) (start : nat -> AudioBuffer -> StartOutcome) :
  length (transcriptionResults (run s (transcribeAllFiles l start))) = length l
  /\ (forall (i : nat) (a : Item.t),
        l !! i = Some a ->
        transcriptionResults (run s (transcribeAllFiles l start)) !! i
        = Some (match start i (Item.buffer a) with
                | Resolved (Some d) =>
                    Some {| Result.filename := Item.filename a;
                            Result.groundTruth := Item.transcription a;
                            Result.transcription := TranscriberData.text d;
                            Result.latency := TranscriberData.latency d |}
                | _ => None
                end))
  /\ audioData (run s (transcribeAllFiles l start)) = audioData s
  /\ progress (run s (transcribeAllFiles l start)) = progress s
  /\ audioDownloadUrl (run s (transcribeAllFiles l start)) = audioDownloadUrl s
  /\ audioDataList (run s (transcribeAllFiles l start)) = audioDataList s.
Proof.
  assert (E : transcriptionResults (run s (transcribeAllFiles l start))
              = imap (fun i a => result_of a (start i (Item.buffer a))) l).
  { unfold transcribeAllFiles. rewrite run_app, transcriptionResults_iterations.
    reflexivity. }
  split; [now rewrite E, length_imap|]. split.
  - intros i a Hi. rewrite E, list_lookup_imap, Hi. reflexivity.
  - unfold transcribeAllFiles. rewrite run_app.
    destruct (frame_iterations start (length l) l 0
                (run s [setTestProgress (Finite 0); setTranscriptionResults []]))
      as (-> & -> & -> & ->).
    repeat split.
Qed.

(** ** The report of a batch *)

Lemma concatenatedResults_None
    (toLowerCase : jsstring -> jsstring) (toString : number -> jsstring)
    (rs : list (option Result.t)) :
  concatenatedResults toLowerCase toString rs = None <-> None ∈ rs.
Proof.
  unfold concatenatedResults. split.
  - intros H.
    assert (Hm : mapM (report_block toLowerCase toString) rs = None)
      by (destruct (mapM _ rs); [discriminate|reflexivity]).
    clear H. induction rs as [|[r|] rs IH]; [discriminate| |set_solver].
    simpl in Hm.
    destruct (mapM (report_block toLowerCase toString) rs); [discriminate|].
    apply elem_of_cons. right. now apply IH.
  - intros H. apply list_elem_of_split in H as (before & after & ->).
    apply concatenatedResults_undefined.
Qed.

(** X8. The report of the results of a batch cannot be built (reading the
    latency of an [undefined] entry throws) exactly when the call for some
    item did not deliver a result. *)
Theorem report_of_batch_throws_iff
    (toLowerCase : jsstring -> jsstring) (toString : number -> jsstring)
    (s : State) (l : list Item.t) (start : nat -> AudioBuffer -> StartOutcome) :
  concatenatedResults toLowerCase toString
    (transcriptionResults (run s (transcribeAllFiles l start))) = None
  <-> exists (i : nat) (a : Item.t),
        l !! i = Some a
        /\ forall d, start i (Item.buffer a) <> Resolved (Some d).
Proof.
  rewrite concatenatedResults_None, transcribeAllFiles_results.
  rewrite list_elem_of_lookup. split.
  - intros (i & Hi). rewrite list_lookup_imap in Hi.
    destruct (l !! i) as [a|] eqn:Ha; [|discriminate]. simpl in Hi.
    exists i, a. split; [exact Ha|]. intros d Hd. rewrite Hd in Hi. discriminate.
  - intros (i & a & Ha & Hd). exists i. rewrite list_lookup_imap, Ha. simpl.
    f_equal. unfold result_of.
    destruct (start i (Item.buffer a)) as [[d|]|]; try reflexivity.
    now destruct (Hd d).
Qed.

(** ** Reading the manifest *)

Lemma elem_of_trimStart (c : N) (s : jsstring) : c ∈ trimStart s -> c ∈ s.
Proof.
  induction s as [|d s IH]; simpl; [auto|].
  destruct (isWhiteSpace d); [|auto]. intros H. apply elem_of_cons. right. auto.
Qed.

Lemma elem_of_trim (c : N) (s : jsstring) : c ∈ trim s -> c ∈ s.
Proof.
  unfold trim, trimEnd. intros H.
  rewrite elem_of_reverse in H. apply elem_of_trimStart in H.
  rewrite elem_of_reverse in H. now apply elem_of_trimStart.
Qed.

Lemma trimStart_nil (s : jsstring) :
  trimStart s = [] -> Forall (fun c => isWhiteSpace c = true) s.
Proof.
  induction s as [|d s IH]; simpl; [constructor|].
  destruct (isWhiteSpace d) eqn:E; [|discriminate]. intros H. constructor; auto.
Qed.

Lemma trimStart_keeps (c : N) (s : jsstring) :
  isWhiteSpace c = false -> c ∈ s -> c ∈ trimStart s.
Proof.
  intros Hc. induction s as [|d s IH]; simpl; [auto|].
  intros H. destruct (isWhiteSpace d) eqn:E; [|exact H].
  apply elem_of_cons in H as [->|H]; [congruence|auto].
Qed.

(** A string with a character that is not white space is not blank. *)
Lemma trim_not_blank (c : N) (s : jsstring) :
  isWhiteSpace c = false -> c ∈ s -> trim s <> [].
Proof.
  intros Hc H E. unfold trim, trimEnd in E.
  apply (trimStart_keeps c _ Hc) in H. rewrite <- elem_of_reverse in H.
  apply (trimStart_keeps c _ Hc) in H. rewrite <- elem_of_reverse in H.
  rewrite E in H. now apply elem_of_nil in H.
Qed.

Lemma indexOf_Some (c : N) (s : jsstring) (i : nat) :
  indexOf c s = Some i -> (c ∉ take i s) /\ s !! i = Some c.
Proof.
  revert i. induction s as [|d s IH]; intros i; simpl; [discriminate|].
  destruct (N.eqb_spec d c) as [->|Hne].
  - intros [= <-]. split; [apply not_elem_of_nil|reflexivity].
  - destruct (indexOf c s) as [j|]; [|discriminate]. intros [= <-].
    destruct (IH j eq_refl) as [Hnot Hj]. split; [|exact Hj].
    simpl. apply not_elem_of_cons. split; [congruence|exact Hnot].
Qed.

Lemma indexOf_app (c : N) (a b : jsstring) :
  c ∉ a -> indexOf c (a ++ c :: b) = Some (length a).
Proof.
  induction a as [|d a IH]; intros H; simpl.
  - now rewrite N.eqb_refl.
  - apply not_elem_of_cons in H as [Hd Ha].
    destruct (N.eqb_spec d c) as [E|_]; [congruence|]. now rewrite IH.
Qed.

Lemma split_parts_no_sep (sep : N) (s : jsstring) :
  Forall (fun l => sep ∉ l) (split sep s).
Proof.
  induction s as [|c r IH]; simpl; [repeat constructor; apply not_elem_of_nil|].
  destruct (N.eqb_spec c sep) as [E|Hne].
  - constructor; [apply not_elem_of_nil|exact IH].
  - destruct (split sep r) as [|l ls].
    { repeat constructor. apply not_elem_of_cons.
      split; [congruence|apply not_elem_of_nil]. }
    apply Forall_cons in IH as [Hl Hls]. constructor; [|exact Hls].
    apply not_elem_of_cons. split; [congruence|exact Hl].
Qed.

Lemma manifest_lines_single_line (text line : jsstring) :
  line ∈ manifest_lines text -> (LF ∉ line) /\ trim line <> [].
Proof.
  unfold manifest_lines. intros H. apply list_elem_of_filter in H as [Hb Hl].
  split; [|exact Hb].
  pose proof (split_parts_no_sep LF text) as Hall.
  rewrite Forall_forall in Hall. auto.
Qed.

Lemma manifest_lines_join (lines : list jsstring) :
  Forall (fun l => (LF ∉ l) /\ trim l <> []) lines ->
  manifest_lines (join LF lines) = lines.
Proof.
  intros H. unfold manifest_lines. destruct lines as [|x rest]; [reflexivity|].
  rewrite split_join; [|discriminate|eapply Forall_impl; [exact H|now intros l [? ?]]].
  induction H as [|l ls [_ Hl] _ IH]; [reflexivity|].
  rewrite filter_cons_True by exact Hl. now rewrite IH.
Qed.

(** X9. Every item the test tile produces comes from one line of the
    manifest: its file name holds no space and no newline, its ground truth
    is a single line, its URL is the path of the [.flac] resource of that
    name under the corpus directory, its source is [TEST] and its MIME type
    is not empty. *)
Theorem handleClick_items_well_formed
    (env : Corpus) (items : list Item.t) (item : Item.t) :
  (handleClick env).2 = Some items ->
  item ∈ items ->
  (SPACE ∉ Item.filename item)
  /\ (LF ∉ Item.filename item)
  /\ (LF ∉ Item.transcription item)
  /\ Item.url item
     = ResourceUrl (audioFilesPath ++ Item.filename item ++ lit ".flac")
  /\ Item.source item = TEST
  /\ Item.mimeType item <> [].
Proof.
  unfold handleClick.
  destruct (fetch_text env transcriptionsFile) as [text|]; [|discriminate].
  rewrite load_lines_omap. simpl. intros [= <-] Hin.
  apply list_elem_of_omap in Hin as (line & Hline & Hp).
  apply manifest_lines_single_line in Hline as [HLF _].
  unfold pushed, load_line in Hp.
  destruct (indexOf SPACE line) as [i|] eqn:Ei; [|discriminate].
  apply indexOf_Some in Ei as [Hsp _].
  destruct (fetch_arrayBuffer env _) as [[bytes ct]|]; [|discriminate].
  destruct (decodeAudioData env bytes) as [d|]; [|discriminate].
  injection Hp as <-. simpl. unfold substring, substring_from.
  rewrite Nat.sub_0_r, drop_0. repeat split.
  - exact Hsp.
  - intros H. apply HLF. eapply elem_of_sublist; [exact H|apply sublist_take].
  - intros H. apply HLF. apply elem_of_trim in H.
    eapply elem_of_sublist; [exact H|apply sublist_drop].
  - destruct ct as [[|c ct]|]; discriminate.
Qed.

Lemma handleClick_items_well_formed_witness :
  (SPACE ∉ Item.filename sample_item)
  /\ (LF ∉ Item.filename sample_item)
  /\ (LF ∉ Item.transcription sample_item)
  /\ Item.url sample_item
     = ResourceUrl (audioFilesPath ++ Item.filename sample_item ++ lit ".flac")
  /\ Item.source sample_item = TEST
  /\ Item.mimeType sample_item <> [].
Proof.
  apply (handleClick_items_well_formed sample_corpus [sample_item] sample_item).
  - vm_compute. reflexivity.
  - apply list_elem_of_singleton. reflexivity.
Defined.

Lemma pushed_line (env : Corpus) (id text : jsstring) :
  Forall (fun c => isWhiteSpace c = false) id ->
  (forall path, is_Some (fetch_arrayBuffer env path)) ->
  (forall bytes, is_Some (decodeAudioData env bytes)) ->
  exists item,
    pushed env (id ++ SPACE :: text) = Some item
    /\ Item.filename item = id
    /\ Item.transcription item = trim text.
Proof.
  intros Hid Hfetch Hdecode. unfold pushed, load_line.
  assert (Hsp : SPACE ∉ id).
  { intros H. rewrite Forall_forall in Hid. apply Hid in H. discriminate. }
  rewrite indexOf_app by exact Hsp.
  unfold substring, substring_from.
  rewrite Nat.sub_0_r, drop_0, take_app_length.
  replace (drop (length id + 1) (id ++ SPACE :: text)) with text.
  2:{ change (id ++ SPACE :: text) with (id ++ [SPACE] ++ text).
      rewrite app_assoc, drop_app_length'; [reflexivity|].
      now rewrite length_app. }
  destruct (Hfetch (audioFilesPath ++ id ++ lit ".flac")) as [[bytes ct] ->].
  destruct (Hdecode bytes) as [d ->]. eexists. repeat split.
Qed.

(** X10. Reading back a manifest written one entry per line as the file
    name, a space and the ground truth: when the file names are not empty
    and hold no white space, the ground truths hold no newline and every
    audio can be fetched and decoded, the test tile produces one item per
    entry, in order, with that file name and the trimmed ground truth. *)
Theorem manifest_roundtrip (env : Corpus) (entries : list (jsstring * jsstring)) :
  Forall (fun e => e.1 <> []
                   /\ Forall (fun c => isWhiteSpace c = false) e.1
                   /\ (LF ∉ e.2)) entries ->
  fetch_text env transcriptionsFile
  = Some (join LF (map (fun e => e.1 ++ SPACE :: e.2) entries)) ->
  (forall path, is_Some (fetch_arrayBuffer env path)) ->
  (forall bytes, is_Some (decodeAudioData env bytes)) ->
  exists items,
    (handleClick env).2 = Some items
    /\ map (fun item => (Item.filename item, Item.transcription item)) items
       = map (fun e => (e.1, trim e.2)) entries.
Proof.
  intros Hent Htext Hfetch Hdecode. unfold handleClick. rewrite Htext.
  rewrite load_lines_omap. simpl. eexists. split; [reflexivity|].
  rewrite manifest_lines_join.
  - clear Htext.
    induction Hent as [|[id text] rest (Hne & Hid & Htx) _ IH]; [reflexivity|].
    destruct (pushed_line env id text Hid Hfetch Hdecode) as (item & Hp & Hf & Ht).
    change (omap (pushed env)
              (map (fun e => e.1 ++ SPACE :: e.2) ((id, text) :: rest)))
      with (match pushed env (id ++ SPACE :: text) with
            | Some y => y :: omap (pushed env)
                               (map (fun e => e.1 ++ SPACE :: e.2) rest)
            | None => omap (pushed env) (map (fun e => e.1 ++ SPACE :: e.2) rest)
            end).
    rewrite Hp. cbn [map fst snd]. rewrite Hf, Ht. f_equal. exact IH.
  - apply Forall_fmap. eapply Forall_impl; [exact Hent|].
    intros [id text] (Hne & Hid & Htx). simpl in *.
    destruct id as [|c id]; [congruence|].
    apply Forall_cons in Hid as [Hc Hid]. split.
    + change ((c :: id) ++ SPACE :: text) with (c :: id ++ SPACE :: text).
      rewrite not_elem_of_cons, not_elem_of_app, not_elem_of_cons.
      rewrite Forall_forall in Hid.
      repeat split; try assumption; try discriminate.
      * intros <-. discriminate.
      * intros H. apply Hid in H. discriminate.
    + apply (trim_not_blank c); [exact Hc|]. apply elem_of_cons. now left.
Qed.

Lemma manifest_roundtrip_witness :
  exists items,
    (handleClick complete_corpus).2 = Some items
    /\ map (fun item => (Item.filename item, Item.transcription item)) items
       = map (fun e => (e.1, trim e.2))
           [(lit "A01", lit "the quick fox"); (lit "A02", lit " hello world ")].
Proof.
  apply (manifest_roundtrip complete_corpus
           [(lit "A01", lit "the quick fox"); (lit "A02", lit " hello world ")]).
  - repeat constructor; try discriminate; vm_compute; intros H;
      repeat (apply elem_of_cons in H as [H|H]; [discriminate H|]);
      apply elem_of_nil in H; exact H.
  - reflexivity.
  - intros path. simpl. eauto.
  - intros bytes. simpl. eauto.
Defined.

(** ** The progress bar *)

(** X11. Once a download from a non-empty URL has finished, the bar shows
    100 when the audio was fetched and decoded, and 0 otherwise. *)
Theorem AudioDataBar_after_download (s : State) (u : jsstring) (env : Download) :
  u <> [] ->
  AudioDataBar (bar_progress (run s (downloadAudioFromUrl (Some u) env)))
  = match response env, decoded env with
    | Some _, Some _ => Finite 100
    | _, _ => Finite 0
    end.
Proof.
  intros Hu. destruct (downloadAudioFromUrl_final s u env Hu) as (Hp & Ha & _).
  unfold bar_progress. rewrite Hp, Ha.
  destruct (response env) as [[data ct]|]; [destruct (decoded env)|]; reflexivity.
Qed.

Lemma AudioDataBar_after_download_witness :
  AudioDataBar (bar_progress (run initial (downloadAudioFromUrl (Some (lit "u"))
                                             (sample_download 2%nat 5%nat))))
  = Finite 100.
Proof.
  exact (AudioDataBar_after_download initial (lit "u")
           (sample_download 2%nat 5%nat) ltac:(discriminate)).
Defined.

Lemma AudioDataBar_whole (q : Q) :
  (0 <= q)%Q -> (q <= 1)%Q ->
  exists n : Z, AudioDataBar (Finite q) = Finite (inject_Z n) /\ (0 <= n <= 100)%Z.
Proof.
  intros H0 H1. unfold AudioDataBar. rewrite mul_100.
  destruct (round_between (q * 100) 100 100) as (r & Hr & Hr0 & Hr1);
    [lra|lra|exact round_100|].
  rewrite Hr. exists (Qfloor (r + (1 # 2))). split; [reflexivity|]. split.
  - change 0%Z with (Qfloor 0). apply Qfloor_resp_le. lra.
  - change 100%Z with (Qfloor (100 + (1 # 2))). apply Qfloor_resp_le. lra.
Qed.

(** The fraction a progress event of the reader installs is a double
    between 0 and 1. *)
Lemma reader_onprogress_fraction (loaded total : N) :
  loaded <= total ->
  exists q,
    num_or (Some (Double.div (of_N loaded) (of_N total))) (Finite 0) = Finite q
    /\ (0 <= q)%Q /\ (q <= 1)%Q.
Proof.
  intros H. destruct (N.eq_dec total 0) as [->|Ht].
  - assert (loaded = 0) as -> by lia. exists 0%Q. repeat split; discriminate.
  - assert (Hpos : (0 < inject_Z (Z.of_N total))%Q).
    { change 0%Q with (inject_Z 0). rewrite <- Zlt_Qlt. lia. }
    assert (E : Double.div (of_N loaded) (of_N total)
                = Double.round (inject_Z (Z.of_N loaded) / inject_Z (Z.of_N total))).
    { unfold Double.div, num_div, of_N, Qzero. simpl.
      destruct (Z.eqb_spec (Z.of_N total) 0) as [E|E]; [lia|reflexivity]. }
    destruct (round_between (inject_Z (Z.of_N loaded) / inject_Z (Z.of_N total)) 1 1)
      as (a & Ha & Ha0 & Ha1).
    + apply Qle_shift_div_l; [exact Hpos|]. rewrite Qmult_0_l.
      change 0%Q with (inject_Z 0). rewrite <- Zle_Qle. lia.
    + apply Qle_shift_div_r; [exact Hpos|]. rewrite Qmult_1_l, <- Zle_Qle. lia.
    + exact round_1.
    + rewrite E, Ha. unfold num_or, truthy.
      destruct (Qzero a); [exists 0%Q|exists a]; repeat split;
        assumption || discriminate.
Qed.

(** X12. For a progress value between 0 and 1, as the doubles between 0
    and 1 are, the bar shows a whole number between 0 and 100: the product
    [progress * 100] is rounded to a double between 0 and 100, and
    [Math.round] takes that to a whole number. So does the bar after
    every progress event of the reader of a recording. *)
Theorem AudioDataBar_range :
  (forall q : Q,
      (0 <= q)%Q -> (q <= 1)%Q ->
      exists n : Z,
        AudioDataBar (Finite q) = Finite (inject_Z n) /\ (0 <= n <= 100)%Z)
  /\ (forall (s : State) (loaded total : N),
        loaded <= total ->
        exists n : Z,
          AudioDataBar (bar_progress (run s (reader_onprogress (loaded, total))))
          = Finite (inject_Z n)
          /\ (0 <= n <= 100)%Z).
Proof.
  split; [exact AudioDataBar_whole|].
  intros s loaded total H.
  destruct (reader_onprogress_fraction loaded total H) as (q & Hq & H0 & H1).
  unfold reader_onprogress, bar_progress. cbn [fst snd run foldl apply progress].
  rewrite Hq. now apply AudioDataBar_whole.
Qed.

Lemma AudioDataBar_range_witness :
  (exists n : Z,
     AudioDataBar (Finite (1 # 3)) = Finite (inject_Z n) /\ (0 <= n <= 100)%Z)
  /\ (exists n : Z,
        AudioDataBar (bar_progress (run initial (reader_onprogress (29, 200))))
        = Finite (inject_Z n)
        /\ (0 <= n <= 100)%Z).
Proof.
  split.
  - exact (proj1 AudioDataBar_range (1 # 3) ltac:(discriminate) ltac:(discriminate)).
  - exact (proj2 AudioDataBar_range initial 29 200 ltac:(discriminate)).
Defined.

(** The bar after 29 of 200 bytes of a recording were read: the progress is
    the double next to 0.145, its product with 100 is the double
    14.499999999999998, and the bar shows 14. The double next to 0.015
    times 100 is 1.5 exactly, and the bar shows 2. *)
Example AudioDataBar_rounding :
  AudioDataBar (bar_progress (run initial (reader_onprogress (29, 200))))
  = Finite 14
  /\ Double.mul (Double.div (of_N 29) (of_N 200)) (Finite 100)
     = Finite (8162774324609023 # 562949953421312)
  /\ AudioDataBar (Double.round (15 # 1000)) = Finite 2
  /\ Double.mul (Double.round (15 # 1000)) (Finite 100) = Finite (3 # 2)
  /\ AudioDataBar (Finite (1 # 3)) = Finite 33.
Proof. vm_compute. repeat split. Qed.

(** ** [titleCase] *)

Lemma isWordChar_not_LineTerminator (c : N) :
  isWordChar c = true -> isLineTerminator c = false.
Proof.
  unfold isWordChar, isLineTerminator. intros H.
  repeat match goal with
         | |- context [N.eqb ?a ?b] => destruct (N.eqb_spec a b)
         | H : context [N.eqb ?a ?b] |- _ => destruct (N.eqb_spec a b)
         | H : context [N.leb ?a ?b] |- _ => destruct (N.leb_spec a b)
         end; simpl in *; try reflexivity; try discriminate; lia.
Qed.

Lemma word_toUpperCase_word (c : N) :
  isWordChar c = true -> isWordChar (word_toUpperCase c) = true.
Proof.
  unfold word_toUpperCase. intros H.
  destruct ((97 <=? c) && (c <=? 122)) eqn:E; [|exact H].
  apply andb_prop in E as [Hlo Hhi]. apply N.leb_le in Hlo, Hhi.
  unfold isWordChar.
  assert (H1 : (65 <=? c - 32) = true) by (apply N.leb_le; lia).
  assert (H2 : (c - 32 <=? 90) = true) by (apply N.leb_le; lia).
  rewrite H1, H2. now destruct ((48 <=? c - 32) && (c - 32 <=? 57)).
Qed.

Lemma word_toUpperCase_idemp (c : N) :
  word_toUpperCase (word_toUpperCase c) = word_toUpperCase c.
Proof.
  unfold word_toUpperCase.
  destruct ((97 <=? c) && (c <=? 122)) eqn:E; [|now rewrite E].
  apply andb_prop in E as [Hlo Hhi]. apply N.leb_le in Hlo, Hhi.
  assert (H : (97 <=? c - 32) = false) by (apply N.leb_gt; lia).
  now rewrite H.
Qed.

Lemma isWordChar_toUpperCase (c : N) :
  isWordChar (word_toUpperCase c) = isWordChar c.
Proof.
  destruct (isWordChar c) eqn:E; [now apply word_toUpperCase_word|].
  unfold word_toUpperCase.
  destruct ((97 <=? c) && (c <=? 122)) eqn:E'; [|exact E].
  unfold isWordChar in E. rewrite E' in E.
  now rewrite !orb_true_r in E.
Qed.

Lemma capitalize_app (a b : jsstring) :
  a <> [] -> capitalize (a ++ b) = capitalize a ++ b.
Proof. destruct a; [congruence|reflexivity]. Qed.

Lemma reverse_not_nil (w : jsstring) : w <> [] -> reverse w <> [].
Proof.
  intros H E. apply (f_equal length) in E. rewrite length_reverse in E.
  destruct w; [congruence|discriminate].
Qed.

(** The scan for the matches and the pass agree, also from inside a
    word. *)
Lemma word_matches_one_pass (s : jsstring) :
  concat (map capitalize (word_matches None s)) = titleCase_one_pass false s
  /\ forall w,
       w <> [] ->
       concat (map capitalize (word_matches (Some w) s))
       = capitalize (reverse w) ++ titleCase_one_pass true s.
Proof.
  induction s as [|c r [IHn IHw]]; [split; [reflexivity|intros w _; reflexivity]|].
  split.
  - cbn [word_matches titleCase_one_pass].
    destruct (isWordChar c); [|exact IHn].
    now rewrite IHw by discriminate.
  - intros w Hw. cbn [word_matches titleCase_one_pass].
    destruct (isWordChar c).
    + rewrite IHw by discriminate.
      rewrite reverse_cons, capitalize_app by now apply reverse_not_nil.
      now rewrite <- app_assoc.
    + destruct (isLineTerminator c); cbn [map concat andb negb].
      * now rewrite IHn.
      * rewrite IHn, reverse_cons, capitalize_app by now apply reverse_not_nil.
        now rewrite <- app_assoc.
Qed.

Lemma one_pass_sublist (s : jsstring) :
  forall inWord,
    map word_toUpperCase (titleCase_one_pass inWord s)
    `sublist_of` map word_toUpperCase s.
Proof.
  induction s as [|c r IH]; intros inWord; [constructor|].
  cbn [titleCase_one_pass map].
  destruct (isWordChar c).
  - destruct inWord; cbn [map]; rewrite ?word_toUpperCase_idemp;
      apply sublist_skip, IH.
  - destruct (inWord && negb (isLineTerminator c)); cbn [map].
    + apply sublist_skip, IH.
    + apply sublist_cons, IH.
Qed.

Lemma one_pass_word_chars (s : jsstring) :
  forall inWord,
    filter (fun c => isWordChar c)
      (map word_toUpperCase (titleCase_one_pass inWord s))
    = filter (fun c => isWordChar c) (map word_toUpperCase s).
Proof.
  induction s as [|c r IH]; intros inWord; [reflexivity|].
  cbn [titleCase_one_pass map].
  destruct (isWordChar c) eqn:Ec.
  - rewrite (filter_cons_True _ (word_toUpperCase c))
      by now rewrite isWordChar_toUpperCase, Ec.
    destruct inWord; cbn [map]; rewrite ?word_toUpperCase_idemp;
      rewrite filter_cons_True by now rewrite isWordChar_toUpperCase, Ec.
    + now rewrite IH.
    + now rewrite IH.
  - rewrite (filter_cons_False _ (word_toUpperCase c))
      by now rewrite isWordChar_toUpperCase, Ec.
    destruct (inWord && negb (isLineTerminator c)); cbn [map]; [|apply IH].
    rewrite filter_cons_False by now rewrite isWordChar_toUpperCase, Ec.
    apply IH.
Qed.

Lemma one_pass_no_LineTerminator (s : jsstring) :
  forall inWord,
    Forall (fun c => isLineTerminator c = false) (titleCase_one_pass inWord s).
Proof.
  induction s as [|c r IH]; intros inWord; [constructor|].
  cbn [titleCase_one_pass].
  destruct (isWordChar c) eqn:Ec.
  - constructor; [|apply IH].
    destruct inWord; apply isWordChar_not_LineTerminator;
      [exact Ec|now apply word_toUpperCase_word].
  - destruct inWord, (isLineTerminator c) eqn:El; cbn [andb negb];
      try apply IH.
    constructor; [exact El|apply IH].
Qed.

(** X13. [titleCase] is one pass over the lowercased string: a word
    character (a letter of the basic alphabet, a digit or an underscore) is
    kept, a lowercase letter in upper case when it does not directly
    follow a word character; any other character is kept only when it
    directly follows a word character and is not a line terminator. So,
    up to the case of the letters, the result is a subsequence of the
    lowercased string that holds all its word characters, in their order,
    and it holds no line terminator. *)
Theorem titleCase_keeps_words
    (toLowerCase : jsstring -> jsstring) (str : jsstring) :
  titleCase toLowerCase str = titleCase_one_pass false (toLowerCase str)
  /\ map word_toUpperCase (titleCase toLowerCase str)
     `sublist_of` map word_toUpperCase (toLowerCase str)
  /\ filter (fun c => isWordChar c)
       (map word_toUpperCase (titleCase toLowerCase str))
     = filter (fun c => isWordChar c) (map word_toUpperCase (toLowerCase str))
  /\ Forall (fun c => isLineTerminator c = false) (titleCase toLowerCase str).
Proof.
  assert (E : titleCase toLowerCase str
              = titleCase_one_pass false (toLowerCase str))
    by apply (word_matches_one_pass (toLowerCase str)).
  rewrite E. split; [reflexivity|]. split; [apply one_pass_sublist|].
  split; [apply one_pass_word_chars|apply one_pass_no_LineTerminator].
Qed.

Example titleCase_languages :
  titleCase ascii_toLowerCase (lit "spanish/castilian") = lit "Spanish/Castilian"
  /\ titleCase ascii_toLowerCase (lit "haitian creole/haitian")
     = lit "Haitian Creole/Haitian"
  /\ titleCase ascii_toLowerCase (lit "a  B" ++ LF :: lit "c") = lit "A BC".
Proof. repeat split. Qed.

(** ** The record tile *)

Lemma RecordTile_exec_sublist (evs : list RecordTile.event) :
  forall s,
    (RecordTile.exec s evs).2
      `sublist_of` RecordTile.pending s ++ RecordTile.recordings evs.
Proof.
  induction evs as [|ev evs IH]; intros s; [apply sublist_nil_l|].
  cbn [RecordTile.exec].
  destruct (RecordTile.step s ev) as [s1 loaded] eqn:Es.
  specialize (IH s1). destruct (RecordTile.exec s1 evs) as [s2 loaded'].
  simpl in IH |- *. unfold RecordTile.pending in *.
  destruct ev as [|blob| |]; simpl in Es.
  - injection Es as <- <-. exact IH.
  - injection Es as <- <-. simpl in IH |- *.
    change (RecordTile.recordings (RecordTile.onRecordingComplete blob :: evs))
      with (blob :: RecordTile.recordings evs).
    now apply sublist_inserts_l.
  - destruct (RecordTile.audioBlob s) as [data|]; injection Es as <- <-;
      simpl in IH |- *; [now apply sublist_skip|exact IH].
  - injection Es as <- <-. simpl in IH |- *. now apply sublist_inserts_l.
Qed.

(** X14. Whatever the order of clicks, recordings, submissions and
    closings, the blobs the record tile hands to the audio manager form a
    subsequence of the recordings the recorder delivered: no recording is
    loaded twice, none is loaded that was not recorded, and submitting
    without a recording loads nothing. *)
Theorem RecordTile_loads_each_recording_once :
  forall (evs : list RecordTile.event),
    (RecordTile.exec RecordTile.init evs).2 `sublist_of` RecordTile.recordings evs
    /\ (length (RecordTile.exec RecordTile.init evs).2
        <= length (RecordTile.recordings evs))%nat.
Proof.
  intros evs. pose proof (RecordTile_exec_sublist evs RecordTile.init) as H.
  simpl in H. split; [exact H|now apply sublist_length].
Qed.

Example RecordTile_sample :
  (RecordTile.exec RecordTile.init RecordTile.sample_events).2
  = [{| blob_type := lit "audio/webm"; blob_bytes := [2] |}].
Proof. reflexivity. Qed.

(** ** The chat page *)

Lemma ChatbotPage_run_app (s : ChatbotPage.State) (t1 t2 : list ChatbotPage.effect) :
  ChatbotPage.run s (t1 ++ t2) = ChatbotPage.run (ChatbotPage.run s t1) t2.
Proof. apply foldl_app. Qed.

Lemma ChatbotPage_posts_app (t1 t2 : list ChatbotPage.effect) :
  ChatbotPage.posts (t1 ++ t2) = ChatbotPage.posts t1 ++ ChatbotPage.posts t2.
Proof. apply omap_app. Qed.

Lemma ChatbotPage_sends_true (c : ChatbotPage.State) (messageText : option jsstring) :
  ChatbotPage.sends c messageText = true ->
  trim (ChatbotPage.text_to_send c messageText) <> []
  /\ ChatbotPage.apiKey c <> [].
Proof.
  unfold ChatbotPage.sends. intros H. apply andb_prop in H as [H1 H2].
  apply negb_true_iff in H1, H2.
  apply bool_decide_eq_false in H1, H2. auto.
Qed.

Lemma handleSend_begin_sends (c : ChatbotPage.State) (messageText : option jsstring) :
  ChatbotPage.sends c messageText = true ->
  ChatbotPage.handleSend_begin c messageText
  = [ChatbotPage.setMessages
       (ChatbotPage.messages c
        ++ [{| ChatbotPage.role := ChatbotPage.user;
               ChatbotPage.content := ChatbotPage.text_to_send c messageText |}]);
     ChatbotPage.setInputText []; ChatbotPage.setIsLoading true;
     ChatbotPage.post
       (ChatbotPage.messages c
        ++ [{| ChatbotPage.role := ChatbotPage.user;
               ChatbotPage.content := ChatbotPage.text_to_send c messageText |}])].
Proof.
  intros H. apply ChatbotPage_sends_true in H as [H1 H2].
  unfold ChatbotPage.handleSend_begin.
  now rewrite !bool_decide_eq_false_2 by assumption.
Qed.

Lemma handleSend_begin_quiet (c s : ChatbotPage.State) (messageText : option jsstring) :
  ChatbotPage.sends c messageText = false ->
  ChatbotPage.posts (ChatbotPage.handleSend_begin c messageText) = []
  /\ ChatbotPage.run s (ChatbotPage.handleSend_begin c messageText) = s.
Proof.
  unfold ChatbotPage.sends, ChatbotPage.handleSend_begin. intros H.
  case_bool_decide; [split; reflexivity|].
  case_bool_decide; [split; reflexivity|]. discriminate.
Qed.

(** X15. [handleSend] sends nothing and changes nothing when the text (the
    argument or, when that is absent or empty, the typed text) is blank or
    the API key is empty. Otherwise it posts once, the messages of the
    render it closes over followed by the user's text, and it ends with
    exactly these messages followed by the reply or by the error message,
    with the input cleared and the loading flag off, whatever messages the
    state held in between. *)
Theorem handleSend_outcome
    (c s : ChatbotPage.State) (messageText reply : option jsstring) :
  if ChatbotPage.sends c messageText then
    ChatbotPage.posts (ChatbotPage.handleSend c messageText reply)
    = [ChatbotPage.messages c
       ++ [{| ChatbotPage.role := ChatbotPage.user;
              ChatbotPage.content := ChatbotPage.text_to_send c messageText |}]]
    /\ ChatbotPage.run s (ChatbotPage.handleSend c messageText reply)
       = {| ChatbotPage.messages :=
              ChatbotPage.messages c
              ++ [{| ChatbotPage.role := ChatbotPage.user;
                     ChatbotPage.content := ChatbotPage.text_to_send c messageText |};
                  match reply with
                  | Some r => {| ChatbotPage.role := ChatbotPage.assistant;
                                 ChatbotPage.content := r |}
                  | None => ChatbotPage.api_error
                  end];
            ChatbotPage.inputText := [];
            ChatbotPage.isLoading := false;
            ChatbotPage.apiKey := ChatbotPage.apiKey s |}
  else
    ChatbotPage.posts (ChatbotPage.handleSend c messageText reply) = []
    /\ ChatbotPage.run s (ChatbotPage.handleSend c messageText reply) = s.
Proof.
  unfold ChatbotPage.handleSend.
  destruct (ChatbotPage.sends c messageText) eqn:E.
  - rewrite (handleSend_begin_sends c messageText E).
    destruct reply as [r|]; split; simpl; try reflexivity;
      now rewrite <- app_assoc.
  - rewrite app_nil_r. now apply handleSend_begin_quiet.
Qed.

(** X16. After a voice input whose transcription is sent, the loading flag
    is already off while the chat request is pending: the [finally] of
    [handleTranscription] runs as soon as [handleSend], called without
    [await], has issued the request. After a typed input the flag is on
    while the request is pending. *)
Theorem voice_request_pending_not_loading
    (c s : ChatbotPage.State) (audioBuffer : AudioBuffer)
    (result : TranscriberData.t) (reply : option jsstring) :
  ChatbotPage.sends c (Some (TranscriberData.text result)) = true ->
  ChatbotPage.handleTranscription c audioBuffer (Resolved (Some result)) reply
  = ChatbotPage.handleTranscription_begin c audioBuffer (Resolved (Some result))
    ++ ChatbotPage.handleSend_settle reply
  /\ length (ChatbotPage.posts
               (ChatbotPage.handleTranscription_begin c audioBuffer
                  (Resolved (Some result)))) = 1%nat
  /\ ChatbotPage.isLoading
       (ChatbotPage.run s
          (ChatbotPage.handleTranscription_begin c audioBuffer
             (Resolved (Some result)))) = false
  /\ ChatbotPage.isLoading
       (ChatbotPage.run s
          (ChatbotPage.handleSend_begin c (Some (TranscriberData.text result))))
     = true.
Proof.
  intros H. unfold ChatbotPage.handleTranscription, ChatbotPage.handleTranscription_begin.
  rewrite H, (handleSend_begin_sends c _ H). repeat split.
Qed.

Lemma voice_request_pending_not_loading_witness :
  ChatbotPage.handleTranscription ChatbotPage.sample_state 7%nat
    (Resolved (Some ChatbotPage.sample_transcription)) (Some (lit "hi"))
  = ChatbotPage.handleTranscription_begin ChatbotPage.sample_state 7%nat
      (Resolved (Some ChatbotPage.sample_transcription))
    ++ ChatbotPage.handleSend_settle (Some (lit "hi"))
  /\ length (ChatbotPage.posts
               (ChatbotPage.handleTranscription_begin ChatbotPage.sample_state 7%nat
                  (Resolved (Some ChatbotPage.sample_transcription)))) = 1%nat
  /\ ChatbotPage.isLoading
       (ChatbotPage.run ChatbotPage.sample_state
          (ChatbotPage.handleTranscription_begin ChatbotPage.sample_state 7%nat
             (Resolved (Some ChatbotPage.sample_transcription)))) = false
  /\ ChatbotPage.isLoading
       (ChatbotPage.run ChatbotPage.sample_state
          (ChatbotPage.handleSend_begin ChatbotPage.sample_state
             (Some (TranscriberData.text ChatbotPage.sample_transcription))))
     = true.
Proof.
  exact (voice_request_pending_not_loading ChatbotPage.sample_state
           ChatbotPage.sample_state 7%nat ChatbotPage.sample_transcription
           (Some (lit "hi")) ltac:(vm_compute; reflexivity)).
Defined.

(** X17. When the transcription of a voice input is the empty string, what
    is sent is the text typed in the input of the render the handler closes
    over: the requests are those of the send button. *)
Theorem empty_transcription_sends_typed_text
    (c : ChatbotPage.State) (audioBuffer : AudioBuffer)
    (result : TranscriberData.t) (reply : option jsstring) :
  TranscriberData.text result = [] ->
  ChatbotPage.text_to_send c (Some (TranscriberData.text result))
  = ChatbotPage.inputText c
  /\ ChatbotPage.posts
       (ChatbotPage.handleTranscription c audioBuffer (Resolved (Some result)) reply)
     = ChatbotPage.posts (ChatbotPage.handleSend c None reply).
Proof.
  intros H. split; [now rewrite H|].
  unfold ChatbotPage.handleTranscription, ChatbotPage.handleTranscription_begin,
    ChatbotPage.handleSend.
  rewrite H.
  change (ChatbotPage.handleSend_begin c (Some []))
    with (ChatbotPage.handleSend_begin c None).
  change (ChatbotPage.sends c (Some [])) with (ChatbotPage.sends c None).
  destruct (ChatbotPage.sends c None) eqn:E.
  - rewrite (handleSend_begin_sends c None E). reflexivity.
  - destruct (handleSend_begin_quiet c c None E) as [Hq _].
    rewrite !app_nil_r, !ChatbotPage_posts_app, Hq. reflexivity.
Qed.

Lemma empty_transcription_sends_typed_text_witness :
  ChatbotPage.text_to_send ChatbotPage.sample_state
    (Some (TranscriberData.text ChatbotPage.empty_transcription))
  = ChatbotPage.inputText ChatbotPage.sample_state
  /\ ChatbotPage.posts
       (ChatbotPage.handleTranscription ChatbotPage.sample_state 7%nat
          (Resolved (Some ChatbotPage.empty_transcription)) None)
     = ChatbotPage.posts (ChatbotPage.handleSend ChatbotPage.sample_state None None).
Proof.
  exact (empty_transcription_sends_typed_text ChatbotPage.sample_state 7%nat
           ChatbotPage.empty_transcription None eq_refl).
Defined.

Example empty_transcription_posts_typed :
  ChatbotPage.posts
    (ChatbotPage.handleTranscription ChatbotPage.sample_state 7%nat
       (Resolved (Some ChatbotPage.empty_transcription)) None)
  = [[ChatbotPage.system_prompt;
      {| ChatbotPage.role := ChatbotPage.user;
         ChatbotPage.content := lit "typed" |}]].
Proof. reflexivity. Qed.

Section ChatSession.

Import ChatbotPage.

Lemma prompt_first_append (s s' : ChatbotPage.State) (extra : list Message) :
  prompt_first s ->
  messages s' = messages s ++ extra ->
  Forall (fun m => role m <> system) extra ->
  prompt_first s'.
Proof.
  intros (rest & Hm & Hrest) Hs' Hextra. exists (rest ++ extra).
  split; [now rewrite Hs', Hm|]. apply Forall_app. now split.
Qed.

Lemma well_formed_body_sent (s : ChatbotPage.State) (text : jsstring) :
  prompt_first s -> trim text <> [] ->
  well_formed_body (messages s ++ [{| role := user; content := text |}]).
Proof.
  intros (rest & Hm & _) Ht. split; [now rewrite Hm|].
  exists text. split; [apply last_snoc|exact Ht].
Qed.

Lemma handleSend_keeps (s : ChatbotPage.State) (messageText reply : option jsstring) :
  prompt_first s ->
  prompt_first (ChatbotPage.run s (handleSend s messageText reply))
  /\ Forall well_formed_body (posts (handleSend s messageText reply)).
Proof.
  intros Hs. unfold handleSend. destruct (sends s messageText) eqn:E.
  - rewrite (handleSend_begin_sends s messageText E).
    destruct (ChatbotPage_sends_true s messageText E) as [Ht _]. split.
    + eapply (prompt_first_append s _
                [{| role := user; content := text_to_send s messageText |};
                 match reply with
                 | Some r => {| role := assistant; content := r |}
                 | None => api_error
                 end]); [exact Hs| |].
      * destruct reply; simpl; now rewrite <- app_assoc.
      * destruct reply; repeat constructor; discriminate.
    + destruct reply; simpl; repeat constructor; now apply well_formed_body_sent.
  - rewrite app_nil_r. destruct (handleSend_begin_quiet s s messageText E) as [-> ->].
    split; [exact Hs|constructor].
Qed.

Lemma handleTranscription_keeps
    (s : ChatbotPage.State) (audioBuffer : AudioBuffer) (o : StartOutcome)
    (reply : option jsstring) :
  prompt_first s ->
  prompt_first (ChatbotPage.run s (handleTranscription s audioBuffer o reply))
  /\ Forall well_formed_body (posts (handleTranscription s audioBuffer o reply)).
Proof.
  intros Hs. unfold handleTranscription, handleTranscription_begin.
  destruct o as [[result|]|].
  - destruct (sends s (Some (TranscriberData.text result))) eqn:E.
    + rewrite (handleSend_begin_sends s _ E).
      destruct (ChatbotPage_sends_true s _ E) as [Ht _]. split.
      * eapply (prompt_first_append s _
                  [{| role := user;
                      content := text_to_send s (Some (TranscriberData.text result)) |};
                   match reply with
                   | Some r => {| role := assistant; content := r |}
                   | None => api_error
                   end]); [exact Hs| |].
        -- destruct reply; simpl; now rewrite <- app_assoc.
        -- destruct reply; repeat constructor; discriminate.
      * destruct reply; simpl; repeat constructor; now apply well_formed_body_sent.
    + rewrite app_nil_r, !ChatbotPage_run_app, !ChatbotPage_posts_app.
      destruct (handleSend_begin_quiet s
                  (ChatbotPage.run
                     (ChatbotPage.run s [setIsLoading true; transcriber_start audioBuffer])
                     [setInputText (TranscriberData.text result)])
                  (Some (TranscriberData.text result)) E) as [-> ->].
      split; [|constructor].
      eapply (prompt_first_append s _ []); [exact Hs| |constructor].
      simpl. now rewrite app_nil_r.
  - split; [|constructor].
    eapply (prompt_first_append s _ [transcription_error]); [exact Hs|reflexivity|].
    repeat constructor. discriminate.
  - split; [|constructor].
    eapply (prompt_first_append s _ [transcription_error]); [exact Hs|reflexivity|].
    repeat constructor. discriminate.
Qed.

Lemma perform_keeps (s : ChatbotPage.State) (a : ChatbotPage.action) :
  prompt_first s ->
  prompt_first (ChatbotPage.run s (ChatbotPage.perform s a))
  /\ Forall well_formed_body (posts (ChatbotPage.perform s a)).
Proof.
  intros Hs. destruct a as [t|k|reply|audioBuffer o reply]; cbn [ChatbotPage.perform].
  - split; [|constructor].
    eapply (prompt_first_append s _ []); [exact Hs| |constructor].
    simpl. now rewrite app_nil_r.
  - split; [|constructor].
    eapply (prompt_first_append s _ []); [exact Hs| |constructor].
    simpl. now rewrite app_nil_r.
  - now apply handleSend_keeps.
  - now apply handleTranscription_keeps.
Qed.

Lemma session_keeps (l : list ChatbotPage.action) :
  forall s,
    prompt_first s ->
    prompt_first (ChatbotPage.run s (ChatbotPage.session s l))
    /\ Forall well_formed_body (posts (ChatbotPage.session s l)).
Proof.
  induction l as [|a l IH]; intros s Hs; [split; [exact Hs|constructor]|].
  cbn [ChatbotPage.session]. rewrite ChatbotPage_run_app, ChatbotPage_posts_app.
  destruct (perform_keeps s a Hs) as [Hs1 Hp1].
  destruct (IH _ Hs1) as [Hs2 Hp2]. split; [exact Hs2|].
  apply Forall_app. now split.
Qed.

End ChatSession.

(** X18. Over any sequence of typing, key changes, sends and voice inputs
    handled one after the other, the conversation keeps the system prompt
    as its first message and holds no other system message, so the page
    hides exactly the prompt; and every request sent to the chat API starts
    with the system prompt and ends with a user message that is not
    blank. *)
Theorem chat_session_prompt_first :
  forall (l : list ChatbotPage.action),
    head (ChatbotPage.messages
            (ChatbotPage.run ChatbotPage.initial
               (ChatbotPage.session ChatbotPage.initial l)))
    = Some ChatbotPage.system_prompt
    /\ Forall (fun m => ChatbotPage.role m <> ChatbotPage.system)
         (ChatbotPage.shown
            (ChatbotPage.run ChatbotPage.initial
               (ChatbotPage.session ChatbotPage.initial l)))
    /\ Forall ChatbotPage.well_formed_body
         (ChatbotPage.posts (ChatbotPage.session ChatbotPage.initial l)).
Proof.
  intros l.
  destruct (session_keeps l ChatbotPage.initial) as [(rest & Hm & Hrest) Hp].
  { exists []. split; [reflexivity|constructor]. }
  unfold ChatbotPage.shown. rewrite Hm. repeat split; assumption.
Qed.

Example chat_session_sample :
  ChatbotPage.messages
    (ChatbotPage.run ChatbotPage.initial
       (ChatbotPage.session ChatbotPage.initial
          [ChatbotPage.Send None;
           ChatbotPage.Type_ (lit "hi");
           ChatbotPage.Send None;
           ChatbotPage.ApiKey (lit "sk-1");
           ChatbotPage.Send (Some (lit "hello"));
           ChatbotPage.Voice 7%nat Rejected None]))
  = [ChatbotPage.system_prompt;
     {| ChatbotPage.role := ChatbotPage.user; ChatbotPage.content := lit "hi" |};
     {| ChatbotPage.role := ChatbotPage.assistant;
        ChatbotPage.content := lit "hello" |};
     ChatbotPage.transcription_error].
Proof. reflexivity. Qed.

(** ** Adapters used one after the other *)

Lemma run_file_oninput (s : State) (f : Blob) (env : FileRead)
    (bytes : ArrayBuffer) (d : AudioBuffer) :
  file_result env = Some bytes -> file_decoded env = Some d ->
  audioData (run s (file_oninput (Some f) env))
  = Some {| buffer := d; url := BlobUrl (file_blobUrl env); source := FILE;
            mimeType := blob_type f |}
  /\ audioDownloadUrl (run s (file_oninput (Some f) env)) = audioDownloadUrl s.
Proof. intros Hr Hd. simpl. rewrite Hr, Hd. split; reflexivity. Qed.

(** X19. The file adapter leaves the recorded download URL in place, the
    recording adapter clears it. So submitting again the URL that was
    loaded before a file was picked starts no download and the file stays
    the current audio, whereas after a recording any non-empty URL is
    downloaded anew and its outcome replaces the recording. *)
Theorem resubmission_after_file_and_after_recording
    (s : State) (u : jsstring) (f : Blob) (env : FileRead)
    (bytes : ArrayBuffer) (d : AudioBuffer) (later : Download)
    (data : Blob) (recording : Recording) :
  u <> [] ->
  audioDownloadUrl s = Some u ->
  file_result env = Some bytes -> file_decoded env = Some d ->
  audioData (run s (session s [FilePicked (Some f) env; UrlSubmitted u later]))
  = Some {| buffer := d; url := BlobUrl (file_blobUrl env); source := FILE;
            mimeType := blob_type f |}
  /\ audioData (run s (session s [RecordingSubmitted data recording;
                                   UrlSubmitted u later]))
     = match response later, decoded later with
       | Some (_, contentType), Some d' =>
           Some {| buffer := d'; url := BlobUrl (blobUrl later); source := URL;
                   mimeType := declared_mimeType contentType |}
       | _, _ => None
       end.
Proof.
  intros Hu Hs Hr Hd. split.
  - cbn [session perform]. rewrite app_nil_r, run_app.
    destruct (run_file_oninput s f env bytes d Hr Hd) as [Ha Hurl].
    unfold urlTile_submit, audioDownloadUrl_effect.
    rewrite bool_decide_eq_true_2 by now rewrite Hurl.
    rewrite app_nil_r. simpl. exact Ha.
  - cbn [session perform]. rewrite app_nil_r, run_app.
    destruct (onRecording_final s data recording) as [Hurl _].
    unfold urlTile_submit, audioDownloadUrl_effect.
    rewrite bool_decide_eq_false_2 by (rewrite Hurl; discriminate).
    rewrite run_app.
    now destruct (downloadAudioFromUrl_final
                    (run (run s (onRecording data recording)) (onUrlUpdate u))
                    u later Hu) as (_ & -> & _).
Qed.

Lemma resubmission_after_file_and_after_recording_witness :
  audioData
    (run (apply initial (setAudioDownloadUrl (Some (lit "u"))))
       (session (apply initial (setAudioDownloadUrl (Some (lit "u"))))
          [FilePicked (Some sample_blob) sample_file_read;
           UrlSubmitted (lit "u") (sample_download 2%nat 5%nat)]))
  = Some {| buffer := 6%nat; url := BlobUrl 3; source := FILE;
            mimeType := lit "audio/webm" |}
  /\ audioData
       (run (apply initial (setAudioDownloadUrl (Some (lit "u"))))
          (session (apply initial (setAudioDownloadUrl (Some (lit "u"))))
             [RecordingSubmitted sample_blob sample_recording;
              UrlSubmitted (lit "u") (sample_download 2%nat 5%nat)]))
     = Some {| buffer := 5%nat; url := BlobUrl 2; source := URL;
               mimeType := lit "audio/mpeg" |}.
Proof.
  exact (resubmission_after_file_and_after_recording
           (apply initial (setAudioDownloadUrl (Some (lit "u")))) (lit "u")
           sample_blob sample_file_read [26; 69; 223; 163] 6%nat
           (sample_download 2%nat 5%nat) sample_blob sample_recording
           ltac:(discriminate) eq_refl eq_refl eq_refl).
Defined.

(** ** A click on the test tile, to the end of the batch *)

Lemma testProgress_run (t : list effect) :
  forall s,
    testProgress (run s t) = default (testProgress s) (last (reported_progress t)).
Proof.
  induction t as [|e t IH]; intros s; [reflexivity|].
  rewrite run_cons, IH.
  destruct e; try reflexivity.
  change (reported_progress (setTestProgress p :: t))
    with (p :: reported_progress t).
  rewrite last_cons. now destruct (last (reported_progress t)).
Qed.

Lemma testProgress_batch
    (s : State) (l : list Item.t) (start : nat -> AudioBuffer -> StartOutcome) :
  l <> [] ->
  num_eq (testProgress (run s (transcribeAllFiles l start))) (Finite 100).
Proof.
  intros Hl. rewrite testProgress_run, reported_progress_batch.
  destruct (length l) as [|n] eqn:En; [destruct l; [congruence|discriminate]|].
  rewrite last_cons, seq_S, map_app. cbn [map]. rewrite last_snoc.
  cbn [default id Nat.add]. rewrite (percent_last n (S n)) by lia. reflexivity.
Qed.

Lemma frame_transcribeAllFiles
    (s : State) (l : list Item.t) (start : nat -> AudioBuffer -> StartOutcome) :
  audioData (run s (transcribeAllFiles l start)) = audioData s
  /\ audioDataList (run s (transcribeAllFiles l start)) = audioDataList s.
Proof.
  unfold transcribeAllFiles. rewrite run_app.
  destruct (frame_iterations start (length l) l O
              (run s [setTestProgress (Finite 0); setTranscriptionResults []]))
    as (-> & _ & _ & ->).
  split; reflexivity.
Qed.

(** X20. A click on the test tile whose manifest is fetched stores the
    loaded items as the list of the batch. When at least one item was
    loaded the batch runs: the results are replaced by one entry per item
    and the progress ends at 100. When no item was loaded no batch runs,
    and the results and the progress of an earlier batch stay as they
    were. The current audio is not touched. *)
Theorem testTile_click_outcome
    (s : State) (env : Corpus) (start : nat -> AudioBuffer -> StartOutcome)
    (items : list Item.t) :
  (handleClick env).2 = Some items ->
  audioDataList (run s (testTile_click env start)) = items
  /\ audioData (run s (testTile_click env start)) = audioData s
  /\ match items with
     | [] =>
         transcriptionResults (run s (testTile_click env start))
         = transcriptionResults s
         /\ testProgress (run s (testTile_click env start)) = testProgress s
     | _ :: _ =>
         length (transcriptionResults (run s (testTile_click env start)))
         = length items
         /\ num_eq (testProgress (run s (testTile_click env start))) (Finite 100)
     end.
Proof.
  intros H. unfold testTile_click.
  pose proof (handleClick_quiet env) as Hq.
  destruct (handleClick env) as [log loaded]. simpl in H, Hq. subst loaded.
  rewrite run_app.
  assert (Hlog : run s log = s).
  { apply run_not_mutation. apply forallb_forall. intros e He.
    unfold quiet in Hq. rewrite Forall_forall in Hq.
    apply list_elem_of_In in He. now rewrite (Hq e He). }
  rewrite Hlog. unfold onFilesLoaded, audioDataList_effect.
  destruct items as [|a items]; [repeat split|].
  rewrite run_app.
  set (s1 := run s [onInputChange; setAudioDataList (a :: items)]).
  destruct (frame_transcribeAllFiles s1 (a :: items) start) as [-> ->].
  split; [reflexivity|]. split; [reflexivity|].
  split; [apply transcribeAllFiles_results_length|].
  now apply testProgress_batch.
Qed.

Lemma testTile_click_outcome_witness :
  audioDataList (run initial (testTile_click sample_corpus (fun _ _ => Rejected)))
  = [sample_item]
  /\ audioData (run initial (testTile_click sample_corpus (fun _ _ => Rejected)))
     = audioData initial
  /\ length (transcriptionResults
               (run initial (testTile_click sample_corpus (fun _ _ => Rejected))))
     = length [sample_item]
  /\ num_eq (testProgress
               (run initial (testTile_click sample_corpus (fun _ _ => Rejected))))
       (Finite 100).
Proof.
  exact (testTile_click_outcome initial sample_corpus (fun _ _ => Rejected)
           [sample_item] ltac:(vm_compute; reflexivity)).
Defined.
